(** * A shallow embedding of the DPLL and CDCL solvers

    The two Python classes [DPLLSolver] (src/src/dpll_solver.py) and
    [CDCLSolver] (src/src/cdcl_solver.py) are transcribed as state-passing
    functions.  Python integers are [Z], list positions and counters are
    [nat], dictionaries are [gmap]s, floats are binary64 primitive floats.
    A [while] loop is a fixpoint over a fuel counter: running out of fuel is
    a separate outcome, so that "always returns" and "never returns" can both
    be stated. *)

From Stdlib Require Import ZArith List Bool Lia.
From Stdlib Require Import Floats.PrimFloat.
From stdpp Require Import gmap list.

Set Warnings "-inexact-float".
Local Open Scope Z_scope.

(** ** Outcomes of a run *)

(** [Done a]: the Python code returned [a].  [Raise]: it raised an exception
    (IndexError or ValueError are the only ones the solvers can meet).
    [OutOfFuel]: the loop budget of the model was used up. *)
Inductive result (A : Type) : Type :=
| Done (a : A)
| Raise
| OutOfFuel.
Arguments Done {A} a.
Arguments Raise {A}.
Arguments OutOfFuel {A}.

Definition bind {A B : Type} (m : result A) (k : A -> result B) : result B :=
  match m with
  | Done a => k a
  | Raise => Raise
  | OutOfFuel => OutOfFuel
  end.

Notation "'let*' p ':=' m 'in' k" := (bind m (fun p => k))
  (at level 10, p pattern, m at level 100, k at level 200).

(** [l[i]] for a non-negative index; Python raises IndexError out of range. *)
Definition index {A : Type} (l : list A) (i : nat) : result A :=
  match l !! i with
  | Some a => Done a
  | None => Raise
  end.

(** The three possible first components of what [solve] returns:
    [True], [False] and [None]. *)
Inductive verdict : Type := Sat | Unsat | Unknown.

(** ** Literals *)

(** [value = lit > 0] *)
Definition lit_sign (lit : Z) : bool := 0 <? lit.

(** [lit = var if value else -var] *)
Definition lit_of (var : Z) (value : bool) : Z := if value then var else - var.

(** [lit in clause] *)
Definition lit_in (lit : Z) (clause : list Z) : bool := existsb (Z.eqb lit) clause.

(** A literal is satisfied by a (partial) assignment when its variable is
    mapped to its polarity. *)
Definition lit_satisfied (A : gmap Z bool) (lit : Z) : bool :=
  match A !! Z.abs lit with
  | Some b => Bool.eqb b (lit_sign lit)
  | None => false
  end.

Definition clause_satisfied (A : gmap Z bool) (clause : list Z) : bool :=
  existsb (lit_satisfied A) clause.

(** Input well-formedness of the data model: a literal is a nonzero integer. *)
Definition nonzero_lits (clauses : list (list Z)) : Prop :=
  Forall (Forall (fun lit => lit <> 0)) clauses.

(** The variables of a clause list. *)
Definition occurs (var : Z) (clauses : list (list Z)) : Prop :=
  exists clause lit, In clause clauses /\ In lit clause /\ Z.abs lit = var.

(** ** The DPLL solver *)

Module DPLL.

Record state : Type := mkState {
  clauses : list (list Z);
  assignment : gmap Z bool;
  num_decisions : nat;
  num_propagations : nat;
  max_depth : nat
}.

Definition set_clauses (s : state) (cl : list (list Z)) : state :=
  mkState cl (assignment s) (num_decisions s) (num_propagations s) (max_depth s).

Definition set_assignment (s : state) (a : gmap Z bool) : state :=
  mkState (clauses s) a (num_decisions s) (num_propagations s) (max_depth s).

Definition incr_decisions (s : state) : state :=
  mkState (clauses s) (assignment s) (S (num_decisions s)) (num_propagations s)
          (max_depth s).

Definition incr_propagations (s : state) : state :=
  mkState (clauses s) (assignment s) (num_decisions s) (S (num_propagations s))
          (max_depth s).

Definition note_depth (s : state) (depth : nat) : state :=
  mkState (clauses s) (assignment s) (num_decisions s) (num_propagations s)
          (Nat.max (max_depth s) depth).

(** [_init_data_structures]: a fresh copy of the input, empty assignment,
    zeroed counters.  The occurrence lists it also builds are never read
    again and are left out. *)
Definition _init_data_structures (original_clauses : list (list Z)) : state :=
  mkState original_clauses ∅ 0 0 0.

(** [_simplify_with_assignment] *)
Definition simplify_clause (lit neg_lit : Z) (clause : list Z) : list (list Z) :=
  if lit_in lit clause then []
  else if lit_in neg_lit clause
       then [filter (fun l => l <> neg_lit) clause]
       else [clause].

Definition _simplify_with_assignment (var : Z) (value : bool) (s : state) : state :=
  let lit := lit_of var value in
  let neg_lit := - lit in
  set_clauses s (flat_map (simplify_clause lit neg_lit) (clauses s)).

(** [self.assignment[var] = value] followed by the simplification *)
Definition assign (var : Z) (value : bool) (s : state) : state :=
  set_assignment s (<[var := value]> (assignment s)).

(** [_find_unit_clauses] *)
Definition _find_unit_clauses (s : state) : list Z :=
  flat_map (fun clause => match clause with [lit] => [lit] | _ => [] end)
           (clauses s).

(** The [for lit in unit_clauses] loop of [_unit_propagate].  The first
    component is [false] when the loop left through [return False]; the
    second is the flag [changed]. *)
Fixpoint unit_for (unit_clauses : list Z) (changed : bool) (s : state)
  : bool * bool * state :=
  match unit_clauses with
  | [] => (true, changed, s)
  | lit :: rest =>
      let var := Z.abs lit in
      let value := lit_sign lit in
      match assignment s !! var with
      | Some b =>
          if Bool.eqb b value then unit_for rest changed s
          else (false, changed, s)
      | None =>
          let s := assign var value s in
          let s := incr_propagations s in
          let s := _simplify_with_assignment var value s in
          unit_for rest true s
      end
  end.

(** [_unit_propagate]: the [while changed] loop. *)
Fixpoint _unit_propagate (fuel : nat) (s : state) : result (bool * state) :=
  match fuel with
  | O => OutOfFuel
  | S fuel =>
      match _find_unit_clauses s with
      | [] => Done (true, s)
      | unit_clauses =>
          match unit_for unit_clauses false s with
          | (false, _, s) => Done (false, s)
          | (true, true, s) => _unit_propagate fuel s
          | (true, false, s) => Done (true, s)
          end
      end
  end.

(** [_all_clauses_satisfied] and [_has_empty_clause] *)
Definition _all_clauses_satisfied (s : state) : bool :=
  match clauses s with [] => true | _ => false end.

Definition _has_empty_clause (s : state) : bool :=
  existsb (fun clause => match clause with [] => true | _ => false end) (clauses s).

(** The dictionary [literal_counts] of [_find_pure_literals], in insertion
    order: one entry [(var, (pos, neg))] per variable met. *)
Fixpoint count_lit (lit : Z) (counts : list (Z * (nat * nat)))
  : list (Z * (nat * nat)) :=
  match counts with
  | [] => [(Z.abs lit, if lit_sign lit then (1%nat, 0%nat) else (0%nat, 1%nat))]
  | (var, (pos, neg)) :: rest =>
      if var =? Z.abs lit
      then (var, if lit_sign lit then (S pos, neg) else (pos, S neg)) :: rest
      else (var, (pos, neg)) :: count_lit lit rest
  end.

Definition literal_counts (cl : list (list Z)) : list (Z * (nat * nat)) :=
  fold_left (fun counts clause => fold_left (fun c lit => count_lit lit c) clause counts)
            cl [].

(** The sequence of [pure_literals.add] calls. *)
Definition pure_adds (s : state) : list Z :=
  flat_map (fun '(var, (pos, neg)) =>
              match assignment s !! var with
              | Some _ => []
              | None =>
                  match pos, neg with
                  | S _, O => [var]
                  | O, S _ => [- var]
                  | _, _ => []
                  end
              end)
           (literal_counts (clauses s)).

(** [_choose_variable] collects [appearing_vars] with these [add] calls. *)
Definition appearing_adds (s : state) : list Z :=
  flat_map (map Z.abs) (clauses s).

Section WithSetOrder.

(** Python iterates a [set] in an order fixed by the interpreter, not by the
    program: [set_iter adds] is the order in which a set built by the
    insertions [adds] is traversed.  Each element comes out once. *)
Variable set_iter : list Z -> list Z.

Definition set_iter_ok : Prop :=
  forall adds, NoDup (set_iter adds) /\ (forall x, In x (set_iter adds) <-> In x adds).

(** [_find_pure_literals] *)
Definition _find_pure_literals (s : state) : list Z := set_iter (pure_adds s).

(** [_pure_literal_eliminate] *)
Fixpoint pure_for (pure_literals : list Z) (s : state) : state :=
  match pure_literals with
  | [] => s
  | lit :: rest =>
      let var := Z.abs lit in
      let value := lit_sign lit in
      match assignment s !! var with
      | Some _ => pure_for rest s
      | None => pure_for rest (_simplify_with_assignment var value (assign var value s))
      end
  end.

Definition _pure_literal_eliminate (s : state) : state :=
  pure_for (_find_pure_literals s) s.

(** [_choose_variable] *)
Definition _choose_variable (s : state) : option Z :=
  find (fun var => match assignment s !! var with None => true | Some _ => false end)
       (set_iter (appearing_adds s)).

(** [_try_assignment], given the recursive call [_dpll(depth + 1)]. *)
Definition _try_assignment (rec : state -> result (bool * state))
    (var : Z) (value : bool) (s : state) : result (bool * state) :=
  let saved_clauses := clauses s in
  let saved_assignment := assignment s in
  let s := assign var value s in
  let s := _simplify_with_assignment var value s in
  let* (r, s) := rec s in
  if r then Done (true, s)
  else Done (false, set_assignment (set_clauses s saved_clauses) saved_assignment).

(** [_dpll] *)
Fixpoint _dpll (fuel : nat) (depth : nat) (s : state) : result (bool * state) :=
  match fuel with
  | O => OutOfFuel
  | S fuel' =>
      let s := note_depth s depth in
      let* (ok, s) := _unit_propagate fuel s in
      if negb ok then Done (false, s) else
      if _all_clauses_satisfied s then Done (true, s) else
      if _has_empty_clause s then Done (false, s) else
      let s := _pure_literal_eliminate s in
      if _all_clauses_satisfied s then Done (true, s) else
      if _has_empty_clause s then Done (false, s) else
      match _choose_variable s with
      | None => Done (false, s)
      | Some var =>
          let s := incr_decisions s in
          let* (r, s) := _try_assignment (_dpll fuel' (S depth)) var true s in
          if r then Done (true, s) else
          let s := incr_decisions s in
          let* (r, s) := _try_assignment (_dpll fuel' (S depth)) var false s in
          if r then Done (true, s) else Done (false, s)
      end
  end.

(** The dictionary [stats]; [time] is [end_time - start_time]. *)
Record stats : Type := mkStats {
  decisions : nat;
  propagations : nat;
  depth_reached : nat;
  time : float
}.

(** [solve].  [start_time] and [end_time] are the two readings of the wall
    clock. *)
Definition solve (start_time end_time : float) (fuel : nat)
    (num_vars : Z) (original_clauses : list (list Z))
  : result (verdict * option (gmap Z bool) * stats) :=
  let s := _init_data_structures original_clauses in
  let* (r, s) := _dpll fuel 0 s in
  let st := mkStats (num_decisions s) (num_propagations s) (max_depth s)
                    (end_time - start_time)%float in
  if r then Done (Sat, Some (assignment s), st)
  else Done (Unsat, None, st).

End WithSetOrder.

End DPLL.

(** A traversal order used to run examples: first insertion first. *)
Fixpoint first_seen (adds : list Z) : list Z :=
  match adds with
  | [] => []
  | x :: rest => x :: filter (fun y => y <> x) (first_seen rest)
  end.

(** ** Python control flow *)

(** [for x in l: body] without early exit. *)
Fixpoint for_each {A S : Type} (l : list A) (body : A -> S -> result S) (s : S)
  : result S :=
  match l with
  | [] => Done s
  | x :: rest => let* s := body x s in for_each rest body s
  end.

(** [while ...: body]: the body says whether to go round again ([inl]) or
    leaves the loop with a value ([inr]). *)
Fixpoint loop {S R : Type} (body : S -> result (S + R)) (fuel : nat) (s : S)
  : result R :=
  match fuel with
  | O => OutOfFuel
  | S fuel =>
      let* next := body s in
      match next with
      | inl s => loop body fuel s
      | inr r => Done r
      end
  end.

(** The first [k] turns of such a loop: the state reached, or the value the
    loop left with. *)
Fixpoint turns {S R : Type} (body : S -> result (S + R)) (k : nat) (s : S)
  : result (S + R) :=
  match k with
  | O => Done (inl s)
  | S k =>
      let* next := body s in
      match next with
      | inl s => turns body k s
      | inr r => Done (inr r)
      end
  end.

(** [l[i] = x] *)
Definition update {A : Type} (l : list A) (i : nat) (x : A) : result (list A) :=
  if (i <? length l)%nat then Done (<[i := x]> l) else Raise.

(** [l[:n]] for any integer [n] *)
Definition slice_to {A : Type} (l : list A) (n : Z) : list A :=
  if n <? 0 then take (length l - Z.to_nat (- n)) l else take (Z.to_nat n) l.

(** [l.remove(x)]: drops the first occurrence, ValueError when there is none *)
Fixpoint list_remove (x : nat) (l : list nat) : result (list nat) :=
  match l with
  | [] => Raise
  | y :: rest =>
      if (x =? y)%nat then Done rest
      else let* r := list_remove x rest in Done (y :: r)
  end.

(** [range(1, n + 1)] *)
Definition range1 (n : Z) : list Z := map Z.of_nat (seq 1 (Z.to_nat n)).

(** ** The CDCL solver *)

Module CDCL.

(** A trail entry [(lit, decision_level, antecedent_clause_idx)]. *)
Definition entry : Type := Z * Z * option nat.

(** The attributes of a [CDCLSolver] object.  [self.seen] is never read
    (conflict analysis has a local list of the same name) and is left out. *)
Record state : Type := mkState {
  num_vars : Z;
  original_clauses : list (list Z);
  clauses : list (list Z);
  learned_clauses : list nat;
  clause_activity : list float;
  max_learned_clauses : nat;
  watch_list : gmap Z (list nat);
  trail : list entry;
  trail_lim : list nat;
  assignment : list (option bool);
  decision_level : Z;
  activity : list float;
  activity_inc : float;
  activity_decay : float;
  var_order : list Z;
  var_pos : gmap Z nat;
  num_decisions : nat;
  num_propagations : nat;
  num_conflicts : nat;
  num_learned : nat;
  num_restarts : nat;
  _propagate_head : nat
}.

Definition set_clauses (x : list (list Z)) (s : state) : state :=
  mkState (num_vars s) (original_clauses s) x (learned_clauses s)
      (clause_activity s) (max_learned_clauses s) (watch_list s) (trail s)
      (trail_lim s) (assignment s) (decision_level s) (activity s)
      (activity_inc s) (activity_decay s) (var_order s) (var_pos s)
      (num_decisions s) (num_propagations s) (num_conflicts s) (num_learned s)
      (num_restarts s) (_propagate_head s).

Definition set_learned_clauses (x : list nat) (s : state) : state :=
  mkState (num_vars s) (original_clauses s) (clauses s) x (clause_activity s)
      (max_learned_clauses s) (watch_list s) (trail s) (trail_lim s)
      (assignment s) (decision_level s) (activity s) (activity_inc s)
      (activity_decay s) (var_order s) (var_pos s) (num_decisions s)
      (num_propagations s) (num_conflicts s) (num_learned s) (num_restarts s)
      (_propagate_head s).

Definition set_clause_activity (x : list float) (s : state) : state :=
  mkState (num_vars s) (original_clauses s) (clauses s) (learned_clauses s) x
      (max_learned_clauses s) (watch_list s) (trail s) (trail_lim s)
      (assignment s) (decision_level s) (activity s) (activity_inc s)
      (activity_decay s) (var_order s) (var_pos s) (num_decisions s)
      (num_propagations s) (num_conflicts s) (num_learned s) (num_restarts s)
      (_propagate_head s).

Definition set_watch_list (x : gmap Z (list nat)) (s : state) : state :=
  mkState (num_vars s) (original_clauses s) (clauses s) (learned_clauses s)
      (clause_activity s) (max_learned_clauses s) x (trail s) (trail_lim s)
      (assignment s) (decision_level s) (activity s) (activity_inc s)
      (activity_decay s) (var_order s) (var_pos s) (num_decisions s)
      (num_propagations s) (num_conflicts s) (num_learned s) (num_restarts s)
      (_propagate_head s).

Definition set_trail (x : list entry) (s : state) : state :=
  mkState (num_vars s) (original_clauses s) (clauses s) (learned_clauses s)
      (clause_activity s) (max_learned_clauses s) (watch_list s) x (trail_lim
      s) (assignment s) (decision_level s) (activity s) (activity_inc s)
      (activity_decay s) (var_order s) (var_pos s) (num_decisions s)
      (num_propagations s) (num_conflicts s) (num_learned s) (num_restarts s)
      (_propagate_head s).

Definition set_trail_lim (x : list nat) (s : state) : state :=
  mkState (num_vars s) (original_clauses s) (clauses s) (learned_clauses s)
      (clause_activity s) (max_learned_clauses s) (watch_list s) (trail s) x
      (assignment s) (decision_level s) (activity s) (activity_inc s)
      (activity_decay s) (var_order s) (var_pos s) (num_decisions s)
      (num_propagations s) (num_conflicts s) (num_learned s) (num_restarts s)
      (_propagate_head s).

Definition set_assignment (x : list (option bool)) (s : state) : state :=
  mkState (num_vars s) (original_clauses s) (clauses s) (learned_clauses s)
      (clause_activity s) (max_learned_clauses s) (watch_list s) (trail s)
      (trail_lim s) x (decision_level s) (activity s) (activity_inc s)
      (activity_decay s) (var_order s) (var_pos s) (num_decisions s)
      (num_propagations s) (num_conflicts s) (num_learned s) (num_restarts s)
      (_propagate_head s).

Definition set_decision_level (x : Z) (s : state) : state :=
  mkState (num_vars s) (original_clauses s) (clauses s) (learned_clauses s)
      (clause_activity s) (max_learned_clauses s) (watch_list s) (trail s)
      (trail_lim s) (assignment s) x (activity s) (activity_inc s)
      (activity_decay s) (var_order s) (var_pos s) (num_decisions s)
      (num_propagations s) (num_conflicts s) (num_learned s) (num_restarts s)
      (_propagate_head s).

Definition set_activity (x : list float) (s : state) : state :=
  mkState (num_vars s) (original_clauses s) (clauses s) (learned_clauses s)
      (clause_activity s) (max_learned_clauses s) (watch_list s) (trail s)
      (trail_lim s) (assignment s) (decision_level s) x (activity_inc s)
      (activity_decay s) (var_order s) (var_pos s) (num_decisions s)
      (num_propagations s) (num_conflicts s) (num_learned s) (num_restarts s)
      (_propagate_head s).

Definition set_activity_inc (x : float) (s : state) : state :=
  mkState (num_vars s) (original_clauses s) (clauses s) (learned_clauses s)
      (clause_activity s) (max_learned_clauses s) (watch_list s) (trail s)
      (trail_lim s) (assignment s) (decision_level s) (activity s) x
      (activity_decay s) (var_order s) (var_pos s) (num_decisions s)
      (num_propagations s) (num_conflicts s) (num_learned s) (num_restarts s)
      (_propagate_head s).

Definition set_var_order (x : list Z) (s : state) : state :=
  mkState (num_vars s) (original_clauses s) (clauses s) (learned_clauses s)
      (clause_activity s) (max_learned_clauses s) (watch_list s) (trail s)
      (trail_lim s) (assignment s) (decision_level s) (activity s)
      (activity_inc s) (activity_decay s) x (var_pos s) (num_decisions s)
      (num_propagations s) (num_conflicts s) (num_learned s) (num_restarts s)
      (_propagate_head s).

Definition set_var_pos (x : gmap Z nat) (s : state) : state :=
  mkState (num_vars s) (original_clauses s) (clauses s) (learned_clauses s)
      (clause_activity s) (max_learned_clauses s) (watch_list s) (trail s)
      (trail_lim s) (assignment s) (decision_level s) (activity s)
      (activity_inc s) (activity_decay s) (var_order s) x (num_decisions s)
      (num_propagations s) (num_conflicts s) (num_learned s) (num_restarts s)
      (_propagate_head s).

Definition set_num_decisions (x : nat) (s : state) : state :=
  mkState (num_vars s) (original_clauses s) (clauses s) (learned_clauses s)
      (clause_activity s) (max_learned_clauses s) (watch_list s) (trail s)
      (trail_lim s) (assignment s) (decision_level s) (activity s)
      (activity_inc s) (activity_decay s) (var_order s) (var_pos s) x
      (num_propagations s) (num_conflicts s) (num_learned s) (num_restarts s)
      (_propagate_head s).

Definition set_num_propagations (x : nat) (s : state) : state :=
  mkState (num_vars s) (original_clauses s) (clauses s) (learned_clauses s)
      (clause_activity s) (max_learned_clauses s) (watch_list s) (trail s)
      (trail_lim s) (assignment s) (decision_level s) (activity s)
      (activity_inc s) (activity_decay s) (var_order s) (var_pos s)
      (num_decisions s) x (num_conflicts s) (num_learned s) (num_restarts s)
      (_propagate_head s).

Definition set_num_conflicts (x : nat) (s : state) : state :=
  mkState (num_vars s) (original_clauses s) (clauses s) (learned_clauses s)
      (clause_activity s) (max_learned_clauses s) (watch_list s) (trail s)
      (trail_lim s) (assignment s) (decision_level s) (activity s)
      (activity_inc s) (activity_decay s) (var_order s) (var_pos s)
      (num_decisions s) (num_propagations s) x (num_learned s) (num_restarts
      s) (_propagate_head s).

Definition set_num_learned (x : nat) (s : state) : state :=
  mkState (num_vars s) (original_clauses s) (clauses s) (learned_clauses s)
      (clause_activity s) (max_learned_clauses s) (watch_list s) (trail s)
      (trail_lim s) (assignment s) (decision_level s) (activity s)
      (activity_inc s) (activity_decay s) (var_order s) (var_pos s)
      (num_decisions s) (num_propagations s) (num_conflicts s) x (num_restarts
      s) (_propagate_head s).

Definition set_num_restarts (x : nat) (s : state) : state :=
  mkState (num_vars s) (original_clauses s) (clauses s) (learned_clauses s)
      (clause_activity s) (max_learned_clauses s) (watch_list s) (trail s)
      (trail_lim s) (assignment s) (decision_level s) (activity s)
      (activity_inc s) (activity_decay s) (var_order s) (var_pos s)
      (num_decisions s) (num_propagations s) (num_conflicts s) (num_learned s)
      x (_propagate_head s).

Definition set_propagate_head (x : nat) (s : state) : state :=
  mkState (num_vars s) (original_clauses s) (clauses s) (learned_clauses s)
      (clause_activity s) (max_learned_clauses s) (watch_list s) (trail s)
      (trail_lim s) (assignment s) (decision_level s) (activity s)
      (activity_inc s) (activity_decay s) (var_order s) (var_pos s)
      (num_decisions s) (num_propagations s) (num_conflicts s) (num_learned s)
      (num_restarts s) x.

(** [__init__] *)
Definition __init__ (num_vars : Z) (clauses : list (list Z)) : state :=
  {| num_vars := num_vars;
     original_clauses :=
       List.filter (fun clause => match clause with [] => false | _ => true end) clauses;
     clauses := [];
     learned_clauses := [];
     clause_activity := [];
     max_learned_clauses := 1000;
     watch_list := ∅;
     trail := [];
     trail_lim := [];
     assignment := replicate (Z.to_nat (num_vars + 1)) None;
     decision_level := 0;
     activity := replicate (Z.to_nat (num_vars + 1)) 0%float;
     activity_inc := 1.0%float;
     activity_decay := 0.95%float;
     var_order := [];
     var_pos := ∅;
     num_decisions := 0;
     num_propagations := 0;
     num_conflicts := 0;
     num_learned := 0;
     num_restarts := 0;
     _propagate_head := 0 |}.

(** [self.watch_list[lit]] of the [defaultdict(list)]: a missing key reads
    as the empty list. *)
Definition watching (s : state) (lit : Z) : list nat :=
  default [] (watch_list s !! lit).

(** [self.watch_list[lit].append(clause_idx)] *)
Definition watch_append (lit : Z) (clause_idx : nat) (s : state) : state :=
  set_watch_list (<[lit := watching s lit ++ [clause_idx]]> (watch_list s)) s.

(** *** The variable heap *)

(** The [while pos > 0] loop of [_heap_decrease].  [pos] goes down at every
    turn, so [n = pos] turns are enough. *)
Fixpoint heap_decrease_loop (n : nat) (var : Z) (pos : nat) (s : state)
  : result state :=
  match pos with
  | O => Done s
  | S _ =>
      match n with
      | O => OutOfFuel
      | S n =>
          let parent := ((pos - 1) / 2)%nat in
          let* vparent := index (var_order s) parent in
          let* aparent := index (activity s) (Z.to_nat vparent) in
          let* avar := index (activity s) (Z.to_nat var) in
          if (avar <=? aparent)%float then Done s else
          let* vpos := index (var_order s) pos in
          let* order := update (var_order s) pos vparent in
          let* order := update order parent vpos in
          let s := set_var_order order s in
          let* v := index (var_order s) pos in
          let s := set_var_pos (<[v := pos]> (var_pos s)) s in
          let* v := index (var_order s) parent in
          let s := set_var_pos (<[v := parent]> (var_pos s)) s in
          heap_decrease_loop n var parent s
      end
  end.

(** [_heap_decrease] *)
Definition _heap_decrease (var : Z) (s : state) : result state :=
  match var_pos s !! var with
  | None => Done s
  | Some pos => heap_decrease_loop pos var pos s
  end.

(** [_heap_insert] *)
Definition _heap_insert (var : Z) (s : state) : result state :=
  match var_pos s !! var with
  | Some _ => Done s
  | None =>
      let s := set_var_pos (<[var := length (var_order s)]> (var_pos s)) s in
      let s := set_var_order (var_order s ++ [var]) s in
      _heap_decrease var s
  end.

(** One comparison of [_heap_percolate_down]:
    [if child < size and activity[var_order[child]] > activity[var_order[largest]]] *)
Definition larger_child (s : state) (child largest : nat) : result nat :=
  if (child <? length (var_order s))%nat then
    let* vchild := index (var_order s) child in
    let* achild := index (activity s) (Z.to_nat vchild) in
    let* vlargest := index (var_order s) largest in
    let* alargest := index (activity s) (Z.to_nat vlargest) in
    Done (if (alargest <? achild)%float then child else largest)
  else Done largest.

(** The [while True] loop of [_heap_percolate_down].  [pos] goes up at every
    turn and stays below the size of the heap. *)
Fixpoint percolate_loop (n : nat) (pos : nat) (s : state) : result state :=
  match n with
  | O => OutOfFuel
  | S n =>
      let left := (2 * pos + 1)%nat in
      let right := (2 * pos + 2)%nat in
      let* largest := larger_child s left pos in
      let* largest := larger_child s right largest in
      if (largest =? pos)%nat then Done s else
      let* vpos := index (var_order s) pos in
      let* vlargest := index (var_order s) largest in
      let* order := update (var_order s) pos vlargest in
      let* order := update order largest vpos in
      let s := set_var_order order s in
      let* v := index (var_order s) pos in
      let s := set_var_pos (<[v := pos]> (var_pos s)) s in
      let* v := index (var_order s) largest in
      let s := set_var_pos (<[v := largest]> (var_pos s)) s in
      percolate_loop n largest s
  end.

(** [_heap_percolate_down] *)
Definition _heap_percolate_down (pos : nat) (s : state) : result state :=
  let* _ := index (var_order s) pos in
  percolate_loop (S (length (var_order s))) pos s.

(** [_heap_pop]; [del self.var_pos[var]] raises KeyError on a missing key. *)
Definition _heap_pop (s : state) : result (option Z * state) :=
  match var_order s with
  | [] => Done (None, s)
  | var :: _ =>
      let last := List.last (var_order s) var in
      let s := set_var_order (removelast (var_order s)) s in
      match var_pos s !! var with
      | None => Raise
      | Some _ =>
          let s := set_var_pos (delete var (var_pos s)) s in
          match var_order s with
          | [] => Done (Some var, s)
          | _ :: _ =>
              let* order := update (var_order s) 0 last in
              let s := set_var_order order s in
              let s := set_var_pos (<[last := 0%nat]> (var_pos s)) s in
              let* s := _heap_percolate_down 0 s in
              Done (Some var, s)
          end
      end
  end.

(** The [while self.var_order] loop of [_choose_variable]: every turn pops
    one variable, so the size of the heap bounds the turns. *)
Fixpoint choose_loop (n : nat) (s : state) : result (option Z * state) :=
  match var_order s with
  | [] => Done (None, s)
  | _ :: _ =>
      match n with
      | O => OutOfFuel
      | S n =>
          let* (popped, s) := _heap_pop s in
          match popped with
          | None => Raise
          | Some var =>
              let* value := index (assignment s) (Z.to_nat var) in
              match value with
              | None => Done (Some var, s)
              | Some _ => choose_loop n s
              end
          end
      end
  end.

(** [_choose_variable] *)
Definition _choose_variable (s : state) : result (option Z * state) :=
  choose_loop (length (var_order s)) s.

(** [_bump_activity] *)
Definition _bump_activity (var : Z) (s : state) : result state :=
  let* a := index (activity s) (Z.to_nat var) in
  let* act := update (activity s) (Z.to_nat var) (a + activity_inc s)%float in
  let s := set_activity act s in
  let* a := index (activity s) (Z.to_nat var) in
  let* s :=
    if (1e100 <? a)%float then
      let* s := for_each (range1 (num_vars s))
                  (fun v s =>
                     let* a := index (activity s) (Z.to_nat v) in
                     let* act := update (activity s) (Z.to_nat v) (a * 1e-100)%float in
                     Done (set_activity act s)) s in
      Done (set_activity_inc (activity_inc s * 1e-100)%float s)
    else Done s in
  match var_pos s !! var with
  | Some _ => _heap_decrease var s
  | None => Done s
  end.

(** [_decay_activities] *)
Definition _decay_activities (s : state) : state :=
  set_activity_inc (activity_inc s / activity_decay s)%float s.

(** *** Assignment and trail lookups *)

(** [_lit_value] *)
Definition _lit_value (s : state) (lit : Z) : result (option bool) :=
  let* val := index (assignment s) (Z.to_nat (Z.abs lit)) in
  match val with
  | None => Done None
  | Some val => Done (Some (if 0 <? lit then val else negb val))
  end.

Definition entry_of_var (var : Z) (e : entry) : bool :=
  let '(lit, _, _) := e in Z.abs lit =? var.

(** [_var_level] *)
Definition _var_level (s : state) (var : Z) : Z :=
  match find (entry_of_var var) (trail s) with
  | Some (_, level, _) => level
  | None => -1
  end.

(** [_get_antecedent] *)
Definition _get_antecedent (s : state) (var : Z) : option nat :=
  match find (entry_of_var var) (trail s) with
  | Some (_, _, antecedent) => antecedent
  | None => None
  end.

(** [self.assignment[var] = value] *)
Definition set_value (var : Z) (value : option bool) (s : state) : result state :=
  let* a := update (assignment s) (Z.to_nat var) value in
  Done (set_assignment a s).

(** *** Set-up *)

(** One turn of the loop over [self.original_clauses] in
    [_init_data_structures]. *)
Definition add_clause (clause_lits : list Z) (s : state) : state :=
  let clause_idx := length (clauses s) in
  let s := set_clauses (clauses s ++ [clause_lits]) s in
  let s := match clause_lits with
           | lit :: _ => watch_append lit clause_idx s
           | [] => s
           end in
  match clause_lits with
  | _ :: lit :: _ => watch_append lit clause_idx s
  | _ => s
  end.

(** [_init_data_structures] *)
Definition _init_data_structures (s : state) : result state :=
  let s := set_clauses [] s in
  let s := fold_left (fun s clause_lits => add_clause clause_lits s)
                     (original_clauses s) s in
  let s := set_var_order [] s in
  let s := set_var_pos ∅ s in
  let* s := for_each (range1 (num_vars s)) _heap_insert s in
  let s := set_trail [] s in
  let s := set_trail_lim [] s in
  let s := set_assignment (replicate (Z.to_nat (num_vars s + 1)) None) s in
  let s := set_decision_level 0 s in
  let s := set_learned_clauses [] s in
  let s := set_propagate_head 0 s in
  let s := set_num_decisions 0 s in
  let s := set_num_propagations 0 s in
  let s := set_num_conflicts 0 s in
  let s := set_num_learned 0 s in
  Done (set_num_restarts 0 s).

(** *** Propagation *)

(** [other_watched and self._lit_value(other_watched) == b]; [None] and
    [0] are falsy, and then [_lit_value] is not called. *)
Definition other_has_value (s : state) (other_watched : option Z) (b : bool)
  : result bool :=
  match other_watched with
  | None => Done false
  | Some lit =>
      if lit =? 0 then Done false
      else let* v := _lit_value s lit in
           Done (match v with Some b' => Bool.eqb b' b | None => false end)
  end.

(** The search [for i in range(2, len(clause))] for a literal that is not
    false; [lits] is [clause[i:]]. *)
Fixpoint find_new_watch (s : state) (i : nat) (lits : list Z) : result (option nat) :=
  match lits with
  | [] => Done None
  | lit :: rest =>
      let* v := _lit_value s lit in
      match v with
      | Some false => find_new_watch s (S i) rest
      | _ => Done (Some i)
      end
  end.

(** The body of [for clause_idx in watch_list_copy]; [Some clause_idx] in
    the first component is [return clause_idx]. *)
Definition visit_clause (neg_lit : Z) (clause_idx : nat) (s : state)
  : result (option nat * state) :=
  let* clause := index (clauses s) clause_idx in
  let* c0 := index clause 0 in
  let* watched :=
    if c0 =? neg_lit then Done (Some (0%nat, 1%nat))
    else let* c1 := index clause 1 in
         if c1 =? neg_lit then Done (Some (1%nat, 0%nat)) else Done None in
  match watched with
  | None => Done (None, s)
  | Some (watched_idx, other_watched_idx) =>
      let other_watched := clause !! other_watched_idx in
      let* satisfied := other_has_value s other_watched true in
      if satisfied then Done (None, s) else
      let* new_watch_idx := find_new_watch s 2 (drop 2 clause) in
      match new_watch_idx with
      | Some new_watch_idx =>
          let* lit_watched := index clause watched_idx in
          let* lit_new := index clause new_watch_idx in
          let* clause := update clause watched_idx lit_new in
          let* clause := update clause new_watch_idx lit_watched in
          let* cls := update (clauses s) clause_idx clause in
          let s := set_clauses cls s in
          let* watchers := list_remove clause_idx (watching s neg_lit) in
          let s := set_watch_list (<[neg_lit := watchers]> (watch_list s)) s in
          let* lit_watched := index clause watched_idx in
          Done (None, watch_append lit_watched clause_idx s)
      | None =>
          let* conflict := other_has_value s other_watched false in
          if conflict then Done (Some clause_idx, s) else
          match other_watched with
          | None => Done (None, s)
          | Some lit =>
              if lit =? 0 then Done (None, s) else
              let var := Z.abs lit in
              let value := lit_sign lit in
              let* s := set_value var (Some value) s in
              let s := set_trail (trail s ++ [(lit, decision_level s, Some clause_idx)]) s in
              Done (None, set_num_propagations (S (num_propagations s)) s)
          end
      end
  end.

Fixpoint visit_watchers (neg_lit : Z) (watch_list_copy : list nat) (s : state)
  : result (option nat * state) :=
  match watch_list_copy with
  | [] => Done (None, s)
  | clause_idx :: rest =>
      let* (conflict, s) := visit_clause neg_lit clause_idx s in
      match conflict with
      | Some c => Done (Some c, s)
      | None => visit_watchers neg_lit rest s
      end
  end.

(** One turn of [while self._propagate_head < len(self.trail)]. *)
Definition propagate_body (s : state) : result (state + (option nat * state)) :=
  if (_propagate_head s <? length (trail s))%nat then
    let* (lit, _, _) := index (trail s) (_propagate_head s) in
    let s := set_propagate_head (S (_propagate_head s)) s in
    let neg_lit := - lit in
    let watch_list_copy := watching s neg_lit in
    let* (conflict, s) := visit_watchers neg_lit watch_list_copy s in
    match conflict with
    | Some c => Done (inr (Some c, s))
    | None => Done (inl s)
    end
  else Done (inr (None, s)).

(** [_propagate]: the conflict clause, if any, and the state reached. *)
Definition _propagate (fuel : nat) (s : state) : result (option nat * state) :=
  loop propagate_body fuel s.

(** The scan [for clause_idx, clause in enumerate(self.clauses)] of
    [_initial_propagate]. *)
Fixpoint initial_units (clause_idx : nat) (cls : list (list Z)) (s : state)
  : result (option nat * state) :=
  match cls with
  | [] => Done (None, s)
  | clause :: rest =>
      match clause with
      | [lit] =>
          let var := Z.abs lit in
          let value := lit_sign lit in
          let* a := index (assignment s) (Z.to_nat var) in
          match a with
          | None =>
              let* s := set_value var (Some value) s in
              let s := set_trail (trail s ++ [(lit, 0, Some clause_idx)]) s in
              let s := set_num_propagations (S (num_propagations s)) s in
              initial_units (S clause_idx) rest s
          | Some b =>
              if Bool.eqb b value then initial_units (S clause_idx) rest s
              else Done (Some clause_idx, s)
          end
      | _ => initial_units (S clause_idx) rest s
      end
  end.

(** [_initial_propagate] *)
Definition _initial_propagate (fuel : nat) (s : state) : result (option nat * state) :=
  let* (conflict, s) := initial_units 0 (clauses s) s in
  match conflict with
  | Some c => Done (Some c, s)
  | None => _propagate fuel s
  end.

(** *** Conflict analysis *)

(** The local variables of [_analyze_conflict].  [a_var] is [None] while the
    Python variable [var] is unbound. *)
Record analysis : Type := mkAnalysis {
  a_clause : list Z;
  a_learned : list Z;
  a_seen : list bool;
  a_counter : Z;
  a_p : option Z;
  a_var : option Z
}.

(** The body of [for lit in clause]. *)
Definition analyze_lit (s : state) (lit : Z) (a : analysis) : result analysis :=
  let var := Z.abs lit in
  let* seen_var := index (a_seen a) (Z.to_nat var) in
  if negb seen_var && (0 <? var) then
    let* seen := update (a_seen a) (Z.to_nat var) true in
    let var_level := _var_level s var in
    if var_level =? decision_level s then
      Done (mkAnalysis (a_clause a) (a_learned a) seen (a_counter a + 1) (a_p a) (Some var))
    else if 0 <? var_level then
      Done (mkAnalysis (a_clause a) (a_learned a ++ [- lit]) seen (a_counter a) (a_p a)
                       (Some var))
    else
      Done (mkAnalysis (a_clause a) (a_learned a) seen (a_counter a) (a_p a) (Some var))
  else
    Done (mkAnalysis (a_clause a) (a_learned a) (a_seen a) (a_counter a) (a_p a) (Some var)).

(** [while len(self.trail) > 0]: look at the last entry, stop when its
    variable is seen, else [self.trail.pop()].  The trail is passed last
    entry first; what is left of it, [p] and [var] are returned. *)
Fixpoint pop_unseen (seen : list bool) (rev_trail : list entry) (p var : option Z)
  : result (list entry * option Z * option Z) :=
  match rev_trail with
  | [] => Done ([], p, var)
  | (lit, _, _) :: rest =>
      let* seen_var := index seen (Z.to_nat (Z.abs lit)) in
      if seen_var then Done (rev_trail, Some lit, Some (Z.abs lit))
      else pop_unseen seen rest (Some lit) (Some (Z.abs lit))
  end.

(** One turn of the [while True] loop; [inr] is [break]. *)
Definition analyze_body (st : analysis * state)
  : result ((analysis * state) + (analysis * state)) :=
  let (a, s) := st in
  let* a := for_each (a_clause a) (analyze_lit s) a in
  let* (rev_trail, p, var) := pop_unseen (a_seen a) (rev (trail s)) (a_p a) (a_var a) in
  let s := set_trail (rev rev_trail) s in
  if a_counter a =? 1 then
    Done (inr (mkAnalysis (a_clause a) (a_learned a) (a_seen a) (a_counter a) p var, s))
  else
    let counter := a_counter a - 1 in
    match var with
    | None => Raise
    | Some v =>
        let* seen := update (a_seen a) (Z.to_nat v) false in
        match _get_antecedent s v with
        | None =>
            Done (inr (mkAnalysis (a_clause a) (a_learned a) seen counter p var, s))
        | Some antecedent_idx =>
            let* clause := index (clauses s) antecedent_idx in
            Done (inl (mkAnalysis clause (a_learned a) seen counter p var, s))
        end
    end.

(** [_analyze_conflict]: the learned clause, the backtrack level and the
    state it leaves. *)
Definition _analyze_conflict (fuel : nat) (conflict_clause_idx : nat) (s : state)
  : result (list Z * Z * state) :=
  if decision_level s =? 0 then Done ([], 0, s) else
  let seen := replicate (Z.to_nat (num_vars s + 1)) false in
  let* clause := index (clauses s) conflict_clause_idx in
  let* (a, s) := loop analyze_body fuel (mkAnalysis clause [] seen 0 None None, s) in
  let uip := match a_p a with
             | Some p => if p =? 0 then 0 else - p
             | None => 0
             end in
  let learned := a_learned a ++ [uip] in
  let backtrack_level :=
    match learned with
    | [_] => 0
    | _ => fold_left (fun max_level lit => Z.max max_level (_var_level s (Z.abs lit)))
                     (removelast learned) 0
    end in
  let* s := for_each learned
              (fun lit s => let var := Z.abs lit in
                            if 0 <? var then _bump_activity var s else Done s) s in
  let s := set_num_learned (S (num_learned s)) s in
  Done (learned, backtrack_level, s).

(** [_add_learned_clause] *)
Definition _add_learned_clause (clause : list Z) (s : state) : state :=
  match clause with
  | [] => s
  | lit0 :: tl =>
      let clause_idx := length (clauses s) in
      let s := set_clauses (clauses s ++ [clause]) s in
      let s := set_learned_clauses (learned_clauses s ++ [clause_idx]) s in
      let s := set_clause_activity (clause_activity s ++ [0%float]) s in
      let s := watch_append lit0 clause_idx s in
      match tl with
      | lit1 :: _ => watch_append lit1 clause_idx s
      | [] => s
      end
  end.

(** *** Backtracking, decisions, restarts *)

(** [_backtrack] *)
Definition _backtrack (level : Z) (s : state) : result state :=
  if decision_level s <=? level then Done s else
  let target :=
    if level <? 0 then Some 0%nat
    else if level <? Z.of_nat (length (trail_lim s)) then trail_lim s !! Z.to_nat level
         else None in
  match target with
  | None => Done s
  | Some target_trail_pos =>
      let* s := for_each (rev (drop target_trail_pos (trail s)))
                  (fun '(lit, _, _) s =>
                     let var := Z.abs lit in
                     let* s := set_value var None s in
                     _heap_insert var s) s in
      let s := set_trail (take target_trail_pos (trail s)) s in
      let s := set_trail_lim (slice_to (trail_lim s) level) s in
      let s := set_decision_level level s in
      Done (set_propagate_head (length (trail s)) s)
  end.

(** [_make_decision] *)
Definition _make_decision (s : state) : result state :=
  let* (chosen, s) := _choose_variable s in
  match chosen with
  | None => Done s
  | Some var =>
      let value := true in
      let lit := lit_of var value in
      let s := set_decision_level (decision_level s + 1) s in
      let s := set_trail_lim (trail_lim s ++ [length (trail s)]) s in
      let* s := set_value var (Some value) s in
      let s := set_trail (trail s ++ [(lit, decision_level s, None)]) s in
      Done (set_num_decisions (S (num_decisions s)) s)
  end.

(** [_restart] *)
Definition _restart (s : state) : result state :=
  let* s := _backtrack 0 s in
  Done (set_num_restarts (S (num_restarts s)) s).

(** *** Reduction of the learned clauses *)

(** [x < y] on the tuples [(activity, idx)]. *)
Definition tuple_lt (x y : float * nat) : bool :=
  if (fst x =? fst y)%float then (snd x <? snd y)%nat else (fst x <? fst y)%float.

(** [sort(reverse=True)]: descending, equal elements keep their order. *)
Fixpoint insert_desc (x : float * nat) (l : list (float * nat)) : list (float * nat) :=
  match l with
  | [] => [x]
  | y :: rest => if tuple_lt y x then x :: y :: rest else y :: insert_desc x rest
  end.

Definition sort_desc (l : list (float * nat)) : list (float * nat) :=
  fold_left (fun sorted x => insert_desc x sorted) l [].

Definition is_reason (s : state) (idx : nat) : bool :=
  existsb (fun '(_, _, antecedent) =>
             match antecedent with
             | Some a => (a =? idx)%nat
             | None => false
             end) (trail s).

(** [if clause_idx in self.watch_list[lit]: self.watch_list[lit].remove(clause_idx)] *)
Definition unwatch (lit : Z) (clause_idx : nat) (s : state) : result state :=
  if existsb (Nat.eqb clause_idx) (watching s lit) then
    let* watchers := list_remove clause_idx (watching s lit) in
    Done (set_watch_list (<[lit := watchers]> (watch_list s)) s)
  else Done s.

(** The body of [for clause_idx in clauses_to_remove]. *)
Definition remove_clause (clause_idx : nat) (s : state) : result state :=
  if (clause_idx <? length (clauses s))%nat then
    let* clause := index (clauses s) clause_idx in
    let* s := match clause with
              | lit :: _ => unwatch lit clause_idx s
              | [] => Done s
              end in
    let* s := match clause with
              | _ :: lit :: _ => unwatch lit clause_idx s
              | _ => Done s
              end in
    let* cls := update (clauses s) clause_idx [] in
    Done (set_clauses cls s)
  else Done s.

(** [_reduce_learned_clauses].  [clauses_to_remove] is a set of distinct
    clause indices; the removals of two different clauses touch different
    entries, so the order in which the set is walked does not show. *)
Definition _reduce_learned_clauses (s : state) : result state :=
  let learned_with_activity :=
    flat_map (fun idx =>
                let activity_idx := Z.of_nat idx - Z.of_nat (length (original_clauses s)) in
                if (0 <=? activity_idx)
                   && (activity_idx <? Z.of_nat (length (clause_activity s)))
                then match clause_activity s !! Z.to_nat activity_idx with
                     | Some a => [(a, idx)]
                     | None => []
                     end
                else [])
             (learned_clauses s) in
  let learned_with_activity := sort_desc learned_with_activity in
  let keep_count := (length learned_with_activity / 2)%nat in
  let clauses_to_remove :=
    remove_dups (flat_map (fun '(_, idx) => if is_reason s idx then [] else [idx])
                          (drop keep_count learned_with_activity)) in
  let* s := for_each clauses_to_remove remove_clause s in
  Done (set_learned_clauses
          (List.filter (fun idx => negb (existsb (Nat.eqb idx) clauses_to_remove))
                       (learned_clauses s)) s).

(** *** The driver *)

(** The dictionary returned by [_get_stats]. *)
Record stats : Type := mkStats {
  decisions : nat;
  propagations : nat;
  conflicts : nat;
  learned : nat;
  restarts : nat;
  time : float
}.

(** [_get_stats]; [now] is the reading of the clock it makes. *)
Definition _get_stats (now start_time : float) (s : state) : stats :=
  mkStats (num_decisions s) (num_propagations s) (num_conflicts s) (num_learned s)
          (num_restarts s) (now - start_time)%float.

(** What [solve] returns.  The dictionary maps each variable to
    [self.assignment[var]], which may be [None]. *)
Definition outcome : Type := verdict * option (gmap Z (option bool)) * stats.

(** Truth value of the argument [time_limit]: [None] and [0.0] are falsy. *)
Definition time_limit_set (time_limit : option float) : bool :=
  match time_limit with
  | Some t => negb (t =? 0)%float
  | None => false
  end.

(** [if time_limit and (time.time() - start_time) > time_limit]: the clock
    is read only when [time_limit] is truthy.  Returns the test and the
    number of readings made so far. *)
Definition deadline_passed (clock : nat -> float) (time_limit : option float)
    (start_time : float) (tick : nat) : bool * nat :=
  match time_limit with
  | Some t =>
      if negb (t =? 0)%float then ((t <? clock tick - start_time)%float, S tick)
      else (false, tick)
  | None => (false, tick)
  end.

(** The dictionary built when every variable is on the trail. *)
Definition final_assignment (s : state) : result (gmap Z (option bool)) :=
  for_each (range1 (num_vars s))
           (fun var A => let* value := index (assignment s) (Z.to_nat var) in
                         Done (<[var := value]> A)) ∅.

(** The part of the loop body run after a conflict at a level above 0. *)
Definition handle_conflict (fuel : nat) (conflict_clause : nat) (s : state)
  : result state :=
  let* (learned_clause, backtrack_level, s) := _analyze_conflict fuel conflict_clause s in
  let* s := _backtrack backtrack_level s in
  let s := _add_learned_clause learned_clause s in
  let s := _decay_activities s in
  let* s := if (max_learned_clauses s <? length (learned_clauses s))%nat
            then _reduce_learned_clauses s else Done s in
  if (num_conflicts s mod 100 =? 0)%nat then _restart s else Done s.

(** One turn of the main [while True] loop.  The loop state is the solver
    and the number of clock readings made; [clock k] is the k-th reading. *)
Definition main_body (clock : nat -> float) (fuel : nat) (time_limit : option float)
    (start_time : float) (st : state * nat) : result ((state * nat) + outcome) :=
  let (s, tick) := st in
  let (expired, tick) := deadline_passed clock time_limit start_time tick in
  if expired then Done (inr (Unknown, None, _get_stats (clock tick) start_time s)) else
  let* (conflict_clause, s) := _propagate fuel s in
  match conflict_clause with
  | Some conflict_clause =>
      let s := set_num_conflicts (S (num_conflicts s)) s in
      if decision_level s =? 0 then
        Done (inr (Unsat, None, _get_stats (clock tick) start_time s))
      else
        let* s := handle_conflict fuel conflict_clause s in
        Done (inl (s, tick))
  | None =>
      if Z.of_nat (length (trail s)) =? num_vars s then
        let* A := final_assignment s in
        Done (inr (Sat, Some A, _get_stats (clock tick) start_time s))
      else
        let* s := _make_decision s in
        Done (inl (s, tick))
  end.

(** [solve] up to the main loop, on the object built by [__init__]: the
    first state of the loop, or what is returned before the loop. *)
Definition startup (clock : nat -> float) (fuel : nat) (s : state)
  : result ((state * nat) + outcome) :=
  let start_time := clock 0%nat in
  let* s := _init_data_structures s in
  if existsb (fun clause => match clause with [] => true | _ => false end) (clauses s)
  then Done (inr (Unsat, None, _get_stats (clock 1%nat) start_time s)) else
  let* (conflict_clause, s) := _initial_propagate fuel s in
  match conflict_clause with
  | Some _ => Done (inr (Unsat, None, _get_stats (clock 1%nat) start_time s))
  | None => Done (inl (s, 1%nat))
  end.

Definition solve_from (clock : nat -> float) (fuel : nat) (time_limit : option float)
    (s : state) : result outcome :=
  let* st := startup clock fuel s in
  match st with
  | inl st => loop (main_body clock fuel time_limit (clock 0%nat)) fuel st
  | inr out => Done out
  end.

(** [CDCLSolver(num_vars, clauses).solve(time_limit)] *)
Definition solve (clock : nat -> float) (fuel : nat) (time_limit : option float)
    (num_vars : Z) (clauses : list (list Z)) : result outcome :=
  solve_from clock fuel time_limit (__init__ num_vars clauses).

(** The solver at the [k]-th iteration boundary of the main loop (with the
    number of clock readings made), or the outcome if [solve] returned
    earlier. *)
Definition at_turn (clock : nat -> float) (fuel : nat) (time_limit : option float)
    (num_vars : Z) (clauses : list (list Z)) (k : nat)
  : result ((state * nat) + outcome) :=
  let* st := startup clock fuel (__init__ num_vars clauses) in
  match st with
  | inl st => turns (main_body clock fuel time_limit (clock 0%nat)) k st
  | inr out => Done (inr out)
  end.

(** The conflict met at the [k]-th turn of the main loop, if there is one:
    the clause [_propagate] returns and the solver as the driver hands it
    to [_analyze_conflict]. *)
Definition conflict_at (clock : nat -> float) (fuel : nat) (time_limit : option float)
    (num_vars : Z) (clauses : list (list Z)) (k : nat)
  : result (option (nat * state)) :=
  let* st := at_turn clock fuel time_limit num_vars clauses k in
  match st with
  | inl (s, _) =>
      let* (conflict_clause, s) := _propagate fuel s in
      match conflict_clause with
      | Some c => Done (Some (c, set_num_conflicts (S (num_conflicts s)) s))
      | None => Done None
      end
  | inr _ => Done None
  end.

(** A literal is satisfied by the dictionary [solve] returns. *)
Definition satisfied_by (A : gmap Z (option bool)) (clause : list Z) : bool :=
  existsb (fun lit => match A !! Z.abs lit with
                      | Some (Some b) => Bool.eqb b (lit_sign lit)
                      | _ => false
                      end) clause.

(** The value the trail gives a variable: the polarity of the first entry
    that names it. *)
Definition trail_value (s : state) (var : Z) : option bool :=
  match find (entry_of_var var) (trail s) with
  | Some (lit, _, _) => Some (lit_sign lit)
  | None => None
  end.

(** Trail consistency: the assignment vector is the projection of the trail
    and no variable is on the trail twice. *)
Definition trail_consistent (s : state) : Prop :=
  (forall var, 1 <= var <= num_vars s ->
               assignment s !! Z.to_nat var = Some (trail_value s var))
  /\ NoDup (map (fun e : entry => Z.abs (fst (fst e))) (trail s)).

End CDCL.

(** ** Relations used to state the results *)

(** Outcomes related by [R], with the same failures. *)
Definition res_rel {A B : Type} (R : A -> B -> Prop) (x : result A) (y : result B)
  : Prop :=
  match x, y with
  | Done a, Done b => R a b
  | Raise, Raise => True
  | OutOfFuel, OutOfFuel => True
  | _, _ => False
  end.

Definition sum_rel {A A' B B' : Type} (RA : A -> A' -> Prop) (RB : B -> B' -> Prop)
    (x : A + B) (y : A' + B') : Prop :=
  match x, y with
  | inl a, inl a' => RA a a'
  | inr b, inr b' => RB b b'
  | _, _ => False
  end.

(** What the working clause list and the assignment say about the input at
    every point of the search: an input clause is already satisfied or still
    has a residue in the working list; a working clause is the residue of an
    input clause; only variables of the input are assigned on top of the
    assignment [A0] the search started from. *)
Record related (orig : list (list Z)) (A0 : gmap Z bool)
    (cl : list (list Z)) (A : gmap Z bool) : Prop := mkRelated {
  rel_sat : forall c, In c orig ->
            clause_satisfied A c = true \/ exists c', In c' cl /\ incl c' c;
  rel_sub : forall c', In c' cl -> exists c, In c orig /\ incl c' c;
  rel_dom : forall v, is_Some (A !! v) -> is_Some (A0 !! v) \/ occurs v orig
}.

(** The same, on a state of the search. *)
Definition rel (orig : list (list Z)) (A0 : gmap Z bool) (s : DPLL.state) : Prop :=
  related orig A0 (DPLL.clauses s) (DPLL.assignment s).

(** Two outcomes that differ at most in the elapsed time. *)
Definition same_but_time (o o' : CDCL.outcome) : Prop :=
  fst (fst o) = fst (fst o') /\ snd (fst o) = snd (fst o')
  /\ CDCL.decisions (snd o) = CDCL.decisions (snd o')
  /\ CDCL.propagations (snd o) = CDCL.propagations (snd o')
  /\ CDCL.conflicts (snd o) = CDCL.conflicts (snd o')
  /\ CDCL.learned (snd o) = CDCL.learned (snd o')
  /\ CDCL.restarts (snd o) = CDCL.restarts (snd o').

(** Two states of the main loop with the same solver. *)
Definition same_solver (st st' : CDCL.state * nat) : Prop := fst st = fst st'.

(** Clocks used in the examples: one that stands still, and one that shows
    five seconds from its second reading on. *)
Definition still_clock (k : nat) : float := 0%float.
Definition slow_clock (k : nat) : float :=
  match k with O => 0%float | S _ => 5%float end.

(** The size of a working clause list: clauses plus literal occurrences.
    It bounds the depth of the DPLL search and the turns of its unit
    propagation. *)
Definition weight (cl : list (list Z)) : nat :=
  list_sum (map (fun c : list Z => S (length c)) cl).

(** ** Valuations *)

(** A total valuation of the variables makes a literal true. *)
Definition holds (sigma : Z -> bool) (lit : Z) : bool :=
  Bool.eqb (sigma (Z.abs lit)) (lit_sign lit).

(** A valuation satisfies a clause list: every clause has a true literal. *)
Definition models (sigma : Z -> bool) (cl : list (list Z)) : Prop :=
  forall c, In c cl -> exists lit, In lit c /\ holds sigma lit = true.

(** In a DPLL state, no assigned variable occurs in the working clauses. *)
Definition fresh (s : DPLL.state) : Prop :=
  forall v, is_Some (DPLL.assignment s !! v) -> ~ occurs v (DPLL.clauses s).

(** The counts kept in [literal_counts] after the literals [seen]: one entry
    per variable met, and a zero count means no literal of that polarity
    was met. *)
Definition counts_ok (counts : list (Z * (nat * nat))) (seen : list Z) : Prop :=
  NoDup (map fst counts)
  /\ (forall l, In l seen -> In (Z.abs l) (map fst counts))
  /\ (forall v p n, In (v, (p, n)) counts ->
        (n = 0%nat -> forall l, In l seen -> Z.abs l = v -> lit_sign l = true)
        /\ (p = 0%nat -> forall l, In l seen -> Z.abs l = v -> lit_sign l = false)).

(** What the loop over the unit literals keeps, from the state [s0] in which
    the literals were collected: every valuation that satisfies the clauses
    of [s0] satisfies the current ones and agrees with the values given
    since. *)
Record unit_inv (s0 s : DPLL.state) : Prop := mkUnitInv {
  ui_fresh : fresh s;
  ui_nonzero : nonzero_lits (DPLL.clauses s);
  ui_models : forall sigma, models sigma (DPLL.clauses s0) ->
              models sigma (DPLL.clauses s)
              /\ forall v b, DPLL.assignment s !! v = Some b ->
                             DPLL.assignment s0 !! v = Some b \/ sigma v = b
}.

(** ** States of the CDCL solver *)

(** Every literal on the trail is nonzero and true in the assignment
    vector. *)
Definition trail_true (s : CDCL.state) : Prop :=
  forall lit level antecedent,
    In (lit, level, antecedent) (CDCL.trail s) ->
    lit <> 0 /\ CDCL._lit_value s lit = Done (Some true).

(** Every literal of the clause is false. *)
Definition falsified (s : CDCL.state) (clause : list Z) : Prop :=
  forall lit, In lit clause -> CDCL._lit_value s lit = Done (Some false).

(** What propagation may do to the solver: append implied literals to the
    trail (nonzero, at the current level, each with an antecedent, one count
    of [num_propagations] each), give values to unassigned variables and
    reorder the literals inside clauses.  Levels, decisions, conflicts, the
    variable heap and the number of variables stay as they are. *)
Record extends (s s' : CDCL.state) : Prop := mkExtends {
  ext_trail : exists added,
      CDCL.trail s' = CDCL.trail s ++ added
      /\ CDCL.num_propagations s' = (CDCL.num_propagations s + length added)%nat
      /\ Forall (fun e : CDCL.entry =>
                   fst (fst e) <> 0 /\ snd (fst e) = CDCL.decision_level s
                   /\ is_Some (snd e)) added;
  ext_level : CDCL.decision_level s' = CDCL.decision_level s;
  ext_lim : CDCL.trail_lim s' = CDCL.trail_lim s;
  ext_values : forall i b, CDCL.assignment s !! i = Some (Some b) ->
                           CDCL.assignment s' !! i = Some (Some b);
  ext_clauses : Forall2 Permutation (CDCL.clauses s) (CDCL.clauses s');
  ext_decisions : CDCL.num_decisions s' = CDCL.num_decisions s;
  ext_conflicts : CDCL.num_conflicts s' = CDCL.num_conflicts s;
  ext_heap : CDCL.var_order s' = CDCL.var_order s /\ CDCL.var_pos s' = CDCL.var_pos s;
  ext_vars : CDCL.num_vars s' = CDCL.num_vars s
}.

(** A valuation agrees with the values the solver has given. *)
Definition agrees (sigma : Z -> bool) (s : CDCL.state) : Prop :=
  forall i b, CDCL.assignment s !! i = Some (Some b) -> sigma (Z.of_nat i) = b.

(** Every value given so far is forced: each valuation that satisfies the
    clause database agrees with it. *)
Definition forced (s : CDCL.state) : Prop :=
  forall sigma, models sigma (CDCL.clauses s) -> agrees sigma s.

(** What holds of the solver as long as no decision was made. *)
Definition implied (s : CDCL.state) : Prop := trail_true s /\ forced s.

(** The clause with this index has only false literals. *)
Definition conflicting (s : CDCL.state) (conflict : option nat) : Prop :=
  forall c, conflict = Some c ->
            exists clause, CDCL.clauses s !! c = Some clause /\ falsified s clause.

(** What the handling of a conflict leaves as it is: the number of
    variables and the counts of decisions and conflicts. *)
Record steady (s s' : CDCL.state) : Prop := mkSteady {
  st_vars : CDCL.num_vars s' = CDCL.num_vars s;
  st_decisions : CDCL.num_decisions s' = CDCL.num_decisions s;
  st_conflicts : CDCL.num_conflicts s' = CDCL.num_conflicts s
}.

(** The second state differs from the first in the variable heap only. *)
Definition heap_only (s s' : CDCL.state) : Prop :=
  exists order pos, s' = CDCL.set_var_pos pos (CDCL.set_var_order order s).

(** The solver before its first decision, on the input clauses [cls]: it is
    at level 0, every value it has given is forced, and its clause database
    holds in every model of the input. *)
Definition undecided (cls : list (list Z)) (s : CDCL.state) : Prop :=
  CDCL.num_decisions s = 0%nat ->
  implied s /\ CDCL.decision_level s = 0
  /\ forall sigma, models sigma cls -> models sigma (CDCL.clauses s).

(** The watch lists agree with the clauses: a clause is on the watch list
    of a literal exactly when the literal is at one of its first two
    places. *)
Definition watched (s : CDCL.state) : Prop :=
  forall lit i,
    In i (CDCL.watching s lit)
    <-> exists c, CDCL.clauses s !! i = Some c
                  /\ (c !! 0%nat = Some lit \/ c !! 1%nat = Some lit).

(** ** The two watched literals *)

(** The literal at the other watched place of a clause is true. *)
Definition other_true (s : CDCL.state) (c : list Z) (p : nat) : bool :=
  match c !! (1 - p)%nat with
  | Some l =>
      match CDCL._lit_value s l with
      | Done (Some true) => true
      | _ => false
      end
  | None => false
  end.

(** The watched place [p] of the clause holds [l] and the other watched
    literal is not true: the clause still has to be looked at for [l]. *)
Definition unsettled_at (s : CDCL.state) (c : list Z) (l : Z) (p : nat) : nat :=
  match c !! p with
  | Some x => if (x =? l) && negb (other_true s c p) then 1%nat else 0%nat
  | None => 0%nat
  end.

Definition unsettled (s : CDCL.state) (c : list Z) (l : Z) : nat :=
  (unsettled_at s c l 0 + unsettled_at s c l 1)%nat.

(** How many of the two watched places of a clause hold [l]. *)
Definition watch_count (c : list Z) (l : Z) : nat :=
  (match c !! 0%nat with
   | Some x => if (x =? l)%Z then 1 else 0
   | None => 0
   end
   + match c !! 1%nat with
     | Some x => if (x =? l)%Z then 1 else 0
     | None => 0
     end)%nat.

(** The complement of [l] is among the first [k] trail entries. *)
Definition processed (s : CDCL.state) (k : nat) (l : Z) : Prop :=
  exists lv an, In (- l, lv, an) (take k (CDCL.trail s)).

(** The invariant of the watched literals: for a literal whose complement
    was propagated, every clause that watches it has its other watched
    literal true. *)
Definition two_watched (s : CDCL.state) (k : nat) : Prop :=
  forall l, processed s k l ->
            forall i c, CDCL.clauses s !! i = Some c -> unsettled s c l = 0%nat.

(** Every clause is on the watch list of the literals at its first two
    places, once for each place. *)
Definition watches_ok (s : CDCL.state) : Prop :=
  forall i c l, CDCL.clauses s !! i = Some c ->
                (watch_count c l <= count_occ Nat.eq_dec (CDCL.watching s l) i)%nat.

(** The literal of every unit clause is true. *)
Definition units_true (s : CDCL.state) : Prop :=
  forall i l, CDCL.clauses s !! i = Some [l] -> CDCL._lit_value s l = Done (Some true).

(** The variables on the trail. *)
Definition trail_vars (s : CDCL.state) : list Z :=
  map (fun e : CDCL.entry => Z.abs (fst (fst e))) (CDCL.trail s).

(** The literals of the clause list are nonzero and their variables are at
    most [n]. *)
Definition in_range (n : Z) (cls : list (list Z)) : Prop :=
  forall c l, In c cls -> In l c -> l <> 0 /\ Z.abs l <= n.

(** What holds of the solver as long as no conflict was met, on the input
    clauses [cls] over [n] variables: the part that holds at every point of
    a propagation. *)
Record calm (n : Z) (cls : list (list Z)) (s : CDCL.state) : Prop := mkCalm {
  c_clauses : Forall2 Permutation cls (CDCL.clauses s);
  c_vars : CDCL.num_vars s = n;
  c_length : length (CDCL.assignment s) = Z.to_nat (n + 1);
  c_trail : trail_true s;
  c_nodup : NoDup (trail_vars s);
  c_units : units_true s;
  c_watches : watches_ok s;
  c_heap : Forall (fun var => 1 <= var) (CDCL.var_order s);
  c_assigned : forall i b, CDCL.assignment s !! i = Some (Some b) ->
                           In (Z.of_nat i) (trail_vars s)
}.

(** The same between two propagations: the watched literals are settled
    for every trail entry before the propagation head. *)
Record quiet (n : Z) (cls : list (list Z)) (s : CDCL.state) : Prop := mkQuiet {
  q_calm : calm n cls s;
  q_head : (CDCL._propagate_head s <= length (CDCL.trail s))%nat;
  q_two : two_watched s (CDCL._propagate_head s)
}.

(** The clause watches [neg] at place [w]; the code looks at place 0
    first. *)
Definition watches_at (c : list Z) (neg : Z) (w : nat) : Prop :=
  c !! w = Some neg /\ (w = 0%nat \/ w = 1%nat /\ c !! 0%nat <> Some neg).

(** The ways one visit of a clause on the watch list of [neg] can go:
    what is returned and the state it leaves. *)
Inductive visited (neg : Z) (idx : nat) (s : CDCL.state) (c : list Z)
  : option nat -> CDCL.state -> Prop :=
| v_skip :
    c !! 0%nat <> Some neg -> c !! 1%nat <> Some neg ->
    visited neg idx s c None s
| v_satisfied (w : nat) (lo : Z) :
    watches_at c neg w ->
    c !! (1 - w)%nat = Some lo -> lo <> 0 ->
    CDCL._lit_value s lo = Done (Some true) ->
    visited neg idx s c None s
| v_move (w nw : nat) (lnew : Z) (v : option bool) (ws : list nat) :
    watches_at c neg w ->
    (2 <= nw)%nat -> c !! nw = Some lnew ->
    CDCL._lit_value s lnew = Done v -> v <> Some false ->
    list_remove idx (CDCL.watching s neg) = Done ws ->
    visited neg idx s c None
      (CDCL.watch_append lnew idx
         (CDCL.set_watch_list (<[neg := ws]> (CDCL.watch_list s))
            (CDCL.set_clauses
               (<[idx := <[nw := neg]> (<[w := lnew]> c)]> (CDCL.clauses s)) s)))
| v_conflict (w : nat) :
    watches_at c neg w ->
    visited neg idx s c (Some idx) s
| v_imply (w : nat) (z : Z) :
    watches_at c neg w ->
    falsified s (drop 2 c) ->
    c !! (1 - w)%nat = Some z -> z <> 0 ->
    CDCL.assignment s !! Z.to_nat (Z.abs z) = Some None ->
    visited neg idx s c None
      (CDCL.set_num_propagations (S (CDCL.num_propagations s))
         (CDCL.set_trail (CDCL.trail s ++ [(z, CDCL.decision_level s, Some idx)])
            (CDCL.set_assignment
               (<[Z.to_nat (Z.abs z) := Some (lit_sign z)]> (CDCL.assignment s)) s)))
| v_nothing (w : nat) :
    watches_at c neg w ->
    c !! (1 - w)%nat = None \/ c !! (1 - w)%nat = Some 0 ->
    visited neg idx s c None s.

(** The values given in the first state are still there in the second. *)
Definition grows (s s' : CDCL.state) : Prop :=
  forall i b, CDCL.assignment s !! i = Some (Some b) ->
              CDCL.assignment s' !! i = Some (Some b).

(** ** Solver states used in examples *)

(** A new CDCL solver after the set-up and the scan of its unit clauses. *)
Definition after_units (num_vars : Z) (cls : list (list Z)) : CDCL.state :=
  match CDCL._init_data_structures (CDCL.__init__ num_vars cls) with
  | Done s =>
      match CDCL.initial_units 0 (CDCL.clauses s) s with
      | Done (_, s') => s'
      | _ => s
      end
  | _ => CDCL.__init__ num_vars cls
  end.

(** The same after a first decision. *)
Definition after_decision (num_vars : Z) (cls : list (list Z)) : CDCL.state :=
  match CDCL._make_decision (after_units num_vars cls) with
  | Done s => s
  | _ => after_units num_vars cls
  end.

(** A solver that holds two learned clauses. *)
Definition with_learned : CDCL.state :=
  CDCL._add_learned_clause [2; 3]
    (CDCL._add_learned_clause [-2; 3] (after_units 3 [[1]])).

(** ** The path of a DPLL search *)

Module DPLLPath.
Import DPLL.

Section WithSetOrder.

Variable set_iter : list Z -> list Z.



End WithSetOrder.

End DPLLPath.

(** ** The CDCL solver object after a run *)

Module CDCLObject.
Import CDCL.

(** [main_body], [startup] and [solve_from] once more, returning with the
    outcome the solver object as the [return] statement leaves it: the
    object on which the caller may call [solve] again. *)
Definition main_body_obj (clock : nat -> float) (fuel : nat)
    (time_limit : option float) (start_time : float) (st : state * nat)
  : result ((state * nat) + (outcome * state)) :=
  let (s, tick) := st in
  let (expired, tick) := deadline_passed clock time_limit start_time tick in
  if expired
  then Done (inr ((Unknown, None, _get_stats (clock tick) start_time s), s)) else
  let* (conflict_clause, s) := _propagate fuel s in
  match conflict_clause with
  | Some conflict_clause =>
      let s := set_num_conflicts (S (num_conflicts s)) s in
      if decision_level s =? 0 then
        Done (inr ((Unsat, None, _get_stats (clock tick) start_time s), s))
      else
        let* s := handle_conflict fuel conflict_clause s in
        Done (inl (s, tick))
  | None =>
      if Z.of_nat (length (trail s)) =? num_vars s then
        let* A := final_assignment s in
        Done (inr ((Sat, Some A, _get_stats (clock tick) start_time s), s))
      else
        let* s := _make_decision s in
        Done (inl (s, tick))
  end.

Definition startup_obj (clock : nat -> float) (fuel : nat) (s : state)
  : result ((state * nat) + (outcome * state)) :=
  let start_time := clock 0%nat in
  let* s := _init_data_structures s in
  if existsb (fun clause => match clause with [] => true | _ => false end) (clauses s)
  then Done (inr ((Unsat, None, _get_stats (clock 1%nat) start_time s), s)) else
  let* (conflict_clause, s) := _initial_propagate fuel s in
  match conflict_clause with
  | Some _ => Done (inr ((Unsat, None, _get_stats (clock 1%nat) start_time s), s))
  | None => Done (inl (s, 1%nat))
  end.

(** [solver.solve(time_limit)] on the object [s]: what it returns, and the
    object afterwards. *)
Definition solve_obj (clock : nat -> float) (fuel : nat) (time_limit : option float)
    (s : state) : result (outcome * state) :=
  let* st := startup_obj clock fuel s in
  match st with
  | inl st => loop (main_body_obj clock fuel time_limit (clock 0%nat)) fuel st
  | inr r => Done r
  end.

(** [solver = CDCLSolver(num_vars, clauses)] followed by two calls of
    [solver.solve(time_limit)]: what the first and the second call
    return. *)
Definition solve_twice (clock : nat -> float) (fuel : nat) (time_limit : option float)
    (num_vars : Z) (clauses : list (list Z)) : result (outcome * outcome) :=
  let* (first, s) := solve_obj clock fuel time_limit (__init__ num_vars clauses) in
  let* (second, _) := solve_obj clock fuel time_limit s in
  Done (first, second).

End CDCLObject.

(** ** Facts about outcomes and loops *)

Lemma bind_Done {A B : Type} (m : result A) (k : A -> result B) (b : B) :
  bind m k = Done b -> exists a, m = Done a /\ k a = Done b.
Proof. destruct m; simpl; try discriminate. intros H. now exists a. Qed.

Lemma loop_S {S R : Type} (body : S -> result (S + R)) (fuel : nat) (s : S) :
  loop body (Datatypes.S fuel) s =
  let* next := body s in
  match next with
  | inl s => loop body fuel s
  | inr r => Done r
  end.
Proof. reflexivity. Qed.

(** A loop whose body maps a state to itself never leaves. *)
Lemma loop_stuck {S R : Type} (body : S -> result (S + R)) (s : S) :
  body s = Done (inl s) -> forall fuel, loop body fuel s = @OutOfFuel R.
Proof.
  intros H fuel. induction fuel as [|fuel IH]; [reflexivity|].
  rewrite loop_S, H. exact IH.
Qed.

(** More fuel, and a body that returns at least as often, do not change
    what a loop returns. *)
Lemma loop_mono {S R : Type} (body body' : S -> result (S + R)) :
  (forall s x, body s = Done x -> body' s = Done x) ->
  forall (fuel fuel' : nat) (s : S) (r : R),
  loop body fuel s = Done r -> (fuel <= fuel')%nat -> loop body' fuel' s = Done r.
Proof.
  intros Hbody fuel. induction fuel as [|fuel IH]; intros fuel' s r H Hle;
    [discriminate|].
  destruct fuel' as [|fuel']; [lia|].
  rewrite loop_S in H. rewrite loop_S.
  apply bind_Done in H as (next & Hnext & H).
  rewrite (Hbody _ _ Hnext). cbn [bind].
  destruct next as [s'|r']; [|assumption].
  apply IH; [assumption | lia].
Qed.

(** Running [k] turns first and the loop from there is running the loop. *)
Lemma loop_turns {S R : Type} (body : S -> result (S + R)) (k : nat) :
  forall (fuel : nat) (s s' : S),
  turns body k s = Done (inl s') -> loop body (k + fuel) s = loop body fuel s'.
Proof.
  induction k as [|k IH]; intros fuel s s' H.
  - injection H as ->. reflexivity.
  - cbn [turns] in H. apply bind_Done in H as (next & Hnext & H).
    change (Datatypes.S k + fuel)%nat with (Datatypes.S (k + fuel)).
    rewrite loop_S, Hnext. cbn [bind].
    destruct next as [s1|r]; [|discriminate]. now apply IH.
Qed.



(** Two loops whose bodies keep states and returned values related. *)
Lemma loop_rel {S S' R R' : Type} (RS : S -> S' -> Prop) (RR : R -> R' -> Prop)
    (body : S -> result (S + R)) (body' : S' -> result (S' + R')) :
  (forall s s', RS s s' -> res_rel (sum_rel RS RR) (body s) (body' s')) ->
  forall (fuel : nat) (s : S) (s' : S'),
  RS s s' -> res_rel RR (loop body fuel s) (loop body' fuel s').
Proof.
  intros Hbody fuel. induction fuel as [|fuel IH]; intros s s' Hs; [exact I|].
  rewrite !loop_S. specialize (Hbody s s' Hs).
  destruct (body s) as [[s1|r1]| |], (body' s') as [[s1'|r1']| |];
    simpl in Hbody |- *; try contradiction; try exact I.
  - now apply IH.
  - exact Hbody.
Qed.
(** ** Facts about literals *)

Lemma lit_of_abs (lit : Z) : lit_of (Z.abs lit) (lit_sign lit) = lit.
Proof.
  unfold lit_of, lit_sign. destruct (0 <? lit) eqn:E.
  - apply Z.ltb_lt in E. lia.
  - apply Z.ltb_ge in E. lia.
Qed.

Lemma lit_in_In (lit : Z) (clause : list Z) : lit_in lit clause = true <-> In lit clause.
Proof.
  unfold lit_in. rewrite existsb_exists. split.
  - intros (x & Hx & E). apply Z.eqb_eq in E. now subst.
  - intros H. exists lit. split; [assumption | apply Z.eqb_refl].
Qed.

Lemma lit_satisfied_insert_same (A : gmap Z bool) (lit : Z) :
  lit_satisfied (<[Z.abs lit := lit_sign lit]> A) lit = true.
Proof.
  unfold lit_satisfied. rewrite lookup_insert_eq. now destruct (lit_sign lit).
Qed.

Lemma lit_satisfied_insert_fresh (A : gmap Z bool) (var : Z) (value : bool) (lit : Z) :
  A !! var = None ->
  lit_satisfied A lit = true -> lit_satisfied (<[var := value]> A) lit = true.
Proof.
  unfold lit_satisfied. intros Hnone H.
  destruct (decide (var = Z.abs lit)) as [->|Hne].
  - now rewrite Hnone in H.
  - now rewrite lookup_insert_ne.
Qed.

Lemma clause_satisfied_insert_fresh (A : gmap Z bool) (var : Z) (value : bool)
    (clause : list Z) :
  A !! var = None ->
  clause_satisfied A clause = true ->
  clause_satisfied (<[var := value]> A) clause = true.
Proof.
  unfold clause_satisfied. rewrite !existsb_exists. intros Hnone (l & Hl & Hs).
  exists l. split; [assumption | now apply lit_satisfied_insert_fresh].
Qed.

Lemma clause_satisfied_spec (A : gmap Z bool) (clause : list Z) :
  clause_satisfied A clause = true <->
  exists lit, In lit clause /\ A !! Z.abs lit = Some (lit_sign lit).
Proof.
  unfold clause_satisfied, lit_satisfied. rewrite existsb_exists.
  split; intros (l & Hl & H); exists l; split; try assumption.
  - destruct (A !! Z.abs l) as [b|]; [|discriminate].
    apply Bool.eqb_prop in H. now subst.
  - rewrite H. apply Bool.eqb_reflx.
Qed.

(** ** The DPLL working state and the input *)

Module DPLLFacts.
Import DPLL.


Lemma related_init (orig : list (list Z)) (A0 : gmap Z bool) :
  related orig A0 orig A0.
Proof.
  split.
  - intros c Hc. right. exists c. split; [assumption | apply incl_refl].
  - intros c Hc. exists c. split; [assumption | apply incl_refl].
  - intros v Hv. now left.
Qed.

Lemma simplify_clause_incl (lit neg_lit : Z) (c c' : list Z) :
  In c' (simplify_clause lit neg_lit c) -> incl c' c.
Proof.
  unfold simplify_clause.
  destruct (lit_in lit c); [intros []|].
  destruct (lit_in neg_lit c); intros [<-|[]].
  - intros x Hx. apply list_elem_of_In in Hx. apply list_elem_of_filter in Hx.
    apply list_elem_of_In. tauto.
  - apply incl_refl.
Qed.

Lemma simplify_clause_cases (lit neg_lit : Z) (c : list Z) :
  In lit c \/ exists c', In c' (simplify_clause lit neg_lit c).
Proof.
  unfold simplify_clause. destruct (lit_in lit c) eqn:E.
  - left. now apply lit_in_In.
  - right. destruct (lit_in neg_lit c); eexists; left; reflexivity.
Qed.

Lemma related_assign (orig : list (list Z)) (A0 : gmap Z bool) (cl : list (list Z))
    (A : gmap Z bool) (lit : Z) :
  related orig A0 cl A ->
  A !! Z.abs lit = None ->
  occurs (Z.abs lit) orig ->
  related orig A0 (flat_map (simplify_clause lit (- lit)) cl)
          (<[Z.abs lit := lit_sign lit]> A).
Proof.
  intros [Hsat Hsub Hdom] Hnone Hocc. split.
  - intros c Hc. destruct (Hsat c Hc) as [H|(c' & Hc' & Hincl)].
    + left. now apply clause_satisfied_insert_fresh.
    + destruct (simplify_clause_cases lit (- lit) c') as [Hin|(c'' & Hc'')].
      * left. apply clause_satisfied_spec. exists lit. split.
        -- now apply Hincl.
        -- apply lookup_insert_eq.
      * right. exists c''. split.
        -- apply in_flat_map. now exists c'.
        -- intros x Hx. apply Hincl. revert x Hx.
           now apply (simplify_clause_incl lit (- lit)).
  - intros c'' Hc''. apply in_flat_map in Hc'' as (c' & Hc' & Hc'').
    destruct (Hsub c' Hc') as (c & Hc & Hincl). exists c. split; [assumption|].
    intros x Hx. apply Hincl. revert x Hx.
    now apply (simplify_clause_incl lit (- lit)).
  - intros v Hv. destruct (decide (Z.abs lit = v)) as [<-|Hne]; [now right|].
    rewrite lookup_insert_ne in Hv by assumption. now apply Hdom.
Qed.


(** Assigning the variable of [lit] its polarity and simplifying. *)
Lemma rel_simplify (orig : list (list Z)) (A0 : gmap Z bool) (s : state) (lit : Z) :
  rel orig A0 s ->
  assignment s !! Z.abs lit = None ->
  occurs (Z.abs lit) orig ->
  rel orig A0 (_simplify_with_assignment (Z.abs lit) (lit_sign lit)
              (assign (Z.abs lit) (lit_sign lit) s)).
Proof.
  intros H Hnone Hocc. unfold rel, _simplify_with_assignment. simpl.
  rewrite lit_of_abs. now apply related_assign.
Qed.

Lemma rel_occurs (orig : list (list Z)) (A0 : gmap Z bool) (s : state) (c : list Z)
    (lit : Z) :
  rel orig A0 s -> In c (clauses s) -> In lit c -> occurs (Z.abs lit) orig.
Proof.
  intros H Hc Hl. destruct (rel_sub _ _ _ _ H c Hc) as (c0 & Hc0 & Hincl).
  exists c0, lit. repeat split; [assumption | now apply Hincl].
Qed.

Lemma find_unit_clauses_In (s : state) (lit : Z) :
  In lit (_find_unit_clauses s) -> In [lit] (clauses s).
Proof.
  unfold _find_unit_clauses. rewrite in_flat_map. intros (c & Hc & Hl).
  destruct c as [|l [|? ?]]; try contradiction.
  destruct Hl as [->|[]]. assumption.
Qed.

Lemma unit_for_rel (orig : list (list Z)) (A0 : gmap Z bool) (units : list Z) :
  forall (changed : bool) (s : state),
  rel orig A0 s ->
  (forall lit, In lit units -> occurs (Z.abs lit) orig) ->
  rel orig A0 (snd (unit_for units changed s)).
Proof.
  induction units as [|lit rest IH]; intros changed s Hrel Hocc; simpl.
  - assumption.
  - destruct (assignment s !! Z.abs lit) as [b|] eqn:E.
    + destruct (Bool.eqb b (lit_sign lit)).
      * apply IH; [assumption | intros; apply Hocc; now right].
      * assumption.
    + apply IH; [| intros; apply Hocc; now right].
      apply (rel_simplify orig A0 (incr_propagations s) lit); try assumption.
      apply Hocc. now left.
Qed.

Lemma unit_propagate_S (fuel : nat) (s : state) :
  _unit_propagate (S fuel) s =
  match _find_unit_clauses s with
  | [] => Done (true, s)
  | unit_clauses =>
      match unit_for unit_clauses false s with
      | (false, _, s) => Done (false, s)
      | (true, true, s) => _unit_propagate fuel s
      | (true, false, s) => Done (true, s)
      end
  end.
Proof. reflexivity. Qed.

Lemma unit_propagate_rel (orig : list (list Z)) (A0 : gmap Z bool) (fuel : nat) :
  forall (s s' : state) (ok : bool),
  rel orig A0 s -> _unit_propagate fuel s = Done (ok, s') -> rel orig A0 s'.
Proof.
  induction fuel as [|fuel IH]; intros s s' ok Hrel H; [discriminate|].
  rewrite unit_propagate_S in H.
  destruct (_find_unit_clauses s) as [|u us] eqn:Eu.
  - injection H as _ <-. assumption.
  - pose proof (unit_for_rel orig A0 (u :: us) false s Hrel) as Hfor.
    destruct (unit_for (u :: us) false s) as [[ok' changed] s1].
    cbn [snd] in Hfor.
    assert (Hrel1 : rel orig A0 s1).
    { apply Hfor. intros lit Hlit. rewrite <- Eu in Hlit.
      apply find_unit_clauses_In in Hlit.
      apply (rel_occurs orig A0 s [lit] lit); [assumption..|now left]. }
    destruct ok'; [destruct changed|].
    + now apply IH in H.
    + injection H as _ <-. assumption.
    + injection H as _ <-. assumption.
Qed.

Lemma count_lit_keys (lit : Z) (counts : list (Z * (nat * nat))) (v : Z) (pn : nat * nat) :
  In (v, pn) (count_lit lit counts) ->
  v = Z.abs lit \/ exists pn', In (v, pn') counts.
Proof.
  induction counts as [|[var [pos neg]] rest IH]; simpl.
  - intros [[= <- _]|[]]. now left.
  - destruct (var =? Z.abs lit) eqn:E.
    + intros [[= <- _]|H]; right.
      * exists (pos, neg). now left.
      * exists pn. now right.
    + intros [[= <- <-]|H].
      * right. exists (pos, neg). now left.
      * destruct (IH H) as [->|(pn' & H')]; [now left|].
        right. exists pn'. now right.
Qed.

Lemma count_clause_keys (c : list Z) :
  forall (counts : list (Z * (nat * nat))) (v : Z) (pn : nat * nat),
  In (v, pn) (fold_left (fun c lit => count_lit lit c) c counts) ->
  (exists lit, In lit c /\ Z.abs lit = v) \/ exists pn', In (v, pn') counts.
Proof.
  induction c as [|l c IH]; intros counts v pn; simpl.
  - intros H. right. now exists pn.
  - intros H. apply IH in H as [(lit & Hlit & E)|(pn' & H)].
    + left. exists lit. split; [now right | assumption].
    + apply count_lit_keys in H as [->|H].
      * left. exists l. split; [now left | reflexivity].
      * now right.
Qed.

Lemma literal_counts_keys (cl : list (list Z)) (v : Z) (pn : nat * nat) :
  In (v, pn) (literal_counts cl) -> occurs v cl.
Proof.
  unfold literal_counts.
  assert (G : forall counts,
             In (v, pn) (fold_left (fun counts clause =>
                           fold_left (fun c lit => count_lit lit c) clause counts)
                           cl counts) ->
             occurs v cl \/ exists pn', In (v, pn') counts).
  { induction cl as [|c cl IH]; intros counts; simpl.
    - intros H. right. now exists pn.
    - intros H. apply IH in H as [(c0 & l & Hc0 & Hl & E)|(pn' & H)].
      + left. exists c0, l. repeat split; [now right | assumption..].
      + apply count_clause_keys in H as [(lit & Hlit & E)|H].
        * left. exists c, lit. repeat split; [now left | assumption..].
        * now right. }
  intros H. apply G in H as [H|(pn' & [])]. assumption.
Qed.

Lemma pure_adds_occurs (s : state) (lit : Z) :
  In lit (pure_adds s) -> occurs (Z.abs lit) (clauses s).
Proof.
  unfold pure_adds. rewrite in_flat_map. intros ([var [pos neg]] & Hin & H).
  apply literal_counts_keys in Hin.
  assert (Hvar : 0 <= var).
  { destruct Hin as (c & l & _ & _ & <-). apply Z.abs_nonneg. }
  destruct (assignment s !! var); [contradiction|].
  destruct pos, neg; simpl in H; try contradiction;
    destruct H as [<-|[]].
  - now rewrite Z.abs_opp, Z.abs_eq.
  - now rewrite Z.abs_eq.
Qed.

Lemma occurs_rel (orig : list (list Z)) (A0 : gmap Z bool) (s : state) (v : Z) :
  rel orig A0 s -> occurs v (clauses s) -> occurs v orig.
Proof.
  intros H (c & l & Hc & Hl & <-). now apply (rel_occurs orig A0 s c l).
Qed.

Lemma appearing_adds_occurs (s : state) (var : Z) :
  In var (appearing_adds s) -> occurs var (clauses s).
Proof.
  unfold appearing_adds. rewrite in_flat_map. intros (c & Hc & H).
  apply in_map_iff in H as (l & <- & Hl). now exists c, l.
Qed.

Lemma occurs_positive (orig : list (list Z)) (v : Z) :
  nonzero_lits orig -> occurs v orig -> 0 < v.
Proof.
  intros Hnz (c & l & Hc & Hl & <-).
  unfold nonzero_lits in Hnz. rewrite Forall_forall in Hnz.
  apply list_elem_of_In in Hc. specialize (Hnz c Hc).
  rewrite Forall_forall in Hnz. apply list_elem_of_In in Hl.
  specialize (Hnz l Hl). lia.
Qed.

(** Deciding a positive variable either way. *)
Lemma rel_decide (orig : list (list Z)) (A0 : gmap Z bool) (s : state) (var : Z)
    (value : bool) :
  rel orig A0 s ->
  assignment s !! var = None ->
  0 < var ->
  occurs var orig ->
  rel orig A0 (_simplify_with_assignment var value (assign var value s)).
Proof.
  intros H Hnone Hpos Hocc.
  assert (Ea : Z.abs (lit_of var value) = var) by (destruct value; simpl; lia).
  assert (Es : lit_sign (lit_of var value) = value).
  { unfold lit_sign. destruct value; simpl; [apply Z.ltb_lt | apply Z.ltb_ge]; lia. }
  pose proof (related_assign orig A0 _ _ (lit_of var value) H) as G.
  rewrite Ea, Es in G. unfold rel, _simplify_with_assignment. simpl.
  now apply G.
Qed.

Section WithSetOrder.

Variable set_iter : list Z -> list Z.
Hypothesis set_iter_spec : set_iter_ok set_iter.

Lemma set_iter_In (adds : list Z) (x : Z) : In x (set_iter adds) -> In x adds.
Proof. intros H. now apply (set_iter_spec adds). Qed.

Lemma pure_for_rel (orig : list (list Z)) (A0 : gmap Z bool) (lits : list Z) :
  forall s : state,
  rel orig A0 s ->
  (forall lit, In lit lits -> occurs (Z.abs lit) orig) ->
  rel orig A0 (pure_for lits s).
Proof.
  induction lits as [|lit rest IH]; intros s Hrel Hocc; simpl; [assumption|].
  destruct (assignment s !! Z.abs lit) eqn:E.
  - apply IH; [assumption | intros; apply Hocc; now right].
  - apply IH; [| intros; apply Hocc; now right].
    apply rel_simplify; [assumption..|]. apply Hocc. now left.
Qed.

Lemma pure_literal_eliminate_rel (orig : list (list Z)) (A0 : gmap Z bool)
    (s : state) :
  rel orig A0 s -> rel orig A0 (_pure_literal_eliminate set_iter s).
Proof.
  intros H. apply pure_for_rel; [assumption|].
  intros lit Hlit. apply set_iter_In in Hlit.
  apply (occurs_rel orig A0 s); [assumption | now apply pure_adds_occurs].
Qed.

Lemma choose_variable_Some (orig : list (list Z)) (A0 : gmap Z bool) (s : state)
    (var : Z) :
  rel orig A0 s ->
  _choose_variable set_iter s = Some var ->
  assignment s !! var = None /\ occurs var orig.
Proof.
  unfold _choose_variable. intros Hrel H. apply find_some in H as [Hin Hf].
  split.
  - now destruct (assignment s !! var).
  - apply set_iter_In in Hin. apply (occurs_rel orig A0 s); [assumption|].
    now apply appearing_adds_occurs.
Qed.

Lemma try_assignment_Done (rec : state -> result (bool * state))
    (var : Z) (value : bool) (s s' : state) (r : bool) :
  _try_assignment rec var value s = Done (r, s') ->
  (r = true /\
   rec (_simplify_with_assignment var value (assign var value s)) = Done (true, s'))
  \/ (r = false /\ clauses s' = clauses s /\ assignment s' = assignment s).
Proof.
  unfold _try_assignment.
  destruct (rec _) as [[[] s1]| |]; simpl; try discriminate.
  - intros [= <- <-]. now left.
  - intros [= <- <-]. right. now simpl.
Qed.

Lemma dpll_S (fuel depth : nat) (s : state) :
  _dpll set_iter (S fuel) depth s =
  let s := note_depth s depth in
  let* (ok, s) := _unit_propagate (S fuel) s in
  if negb ok then Done (false, s) else
  if _all_clauses_satisfied s then Done (true, s) else
  if _has_empty_clause s then Done (false, s) else
  let s := _pure_literal_eliminate set_iter s in
  if _all_clauses_satisfied s then Done (true, s) else
  if _has_empty_clause s then Done (false, s) else
  match _choose_variable set_iter s with
  | None => Done (false, s)
  | Some var =>
      let s := incr_decisions s in
      let* (r, s) := _try_assignment (_dpll set_iter fuel (S depth)) var true s in
      if r then Done (true, s) else
      let s := incr_decisions s in
      let* (r, s) := _try_assignment (_dpll set_iter fuel (S depth)) var false s in
      if r then Done (true, s) else Done (false, s)
  end.
Proof. reflexivity. Qed.

Lemma all_clauses_satisfied_nil (s : state) :
  _all_clauses_satisfied s = true -> clauses s = [].
Proof. unfold _all_clauses_satisfied. now destruct (clauses s). Qed.

(** A successful search ends with an empty working list that is still
    related to the input. *)
Lemma dpll_true_rel (orig : list (list Z)) (A0 : gmap Z bool)
    (Hnz : nonzero_lits orig) (fuel : nat) :
  forall (depth : nat) (s s' : state),
  rel orig A0 s ->
  _dpll set_iter fuel depth s = Done (true, s') ->
  rel orig A0 s' /\ clauses s' = [].
Proof.
  induction fuel as [|fuel IH]; intros depth s s' Hrel H; [discriminate|].
  rewrite dpll_S in H. cbv zeta in H.
  assert (Hrel0 : rel orig A0 (note_depth s depth)) by exact Hrel.
  destruct (_unit_propagate (S fuel) (note_depth s depth)) as [[ok s1]| |] eqn:Eup;
    try discriminate.
  apply unit_propagate_rel with (orig := orig) (A0 := A0) in Eup; [|assumption].
  cbn [bind] in H. destruct ok; cbn [negb] in H; [|discriminate].
  destruct (_all_clauses_satisfied s1) eqn:E1.
  { injection H as <-. split; [assumption | now apply all_clauses_satisfied_nil]. }
  destruct (_has_empty_clause s1); [discriminate|].
  pose proof (pure_literal_eliminate_rel orig A0 s1 Eup) as Hp.
  set (s2 := _pure_literal_eliminate set_iter s1) in *.
  destruct (_all_clauses_satisfied s2) eqn:E2.
  { injection H as <-. split; [assumption | now apply all_clauses_satisfied_nil]. }
  destruct (_has_empty_clause s2); [discriminate|].
  destruct (_choose_variable set_iter s2) as [var|] eqn:Ech; [|discriminate].
  destruct (choose_variable_Some orig A0 s2 var Hp Ech) as [Hnone Hocc].
  pose proof (occurs_positive orig var Hnz Hocc) as Hpos.
  destruct (_try_assignment _ var true (incr_decisions s2)) as [[r s3]| |] eqn:Et1;
    try discriminate.
  cbn [bind] in H.
  apply try_assignment_Done in Et1 as [[-> Hrec]|(-> & Hc3 & Ha3)].
  { injection H as <-. apply IH in Hrec; [assumption|].
    now apply (rel_decide orig A0 (incr_decisions s2)). }
  destruct (_try_assignment _ var false (incr_decisions s3)) as [[r s4]| |] eqn:Et2;
    try discriminate.
  cbn [bind] in H.
  apply try_assignment_Done in Et2 as [[-> Hrec]|(-> & _)]; [|discriminate].
  injection H as <-. apply IH in Hrec; [assumption|].
  apply (rel_decide orig A0 (incr_decisions s3)); try assumption.
  - unfold rel. simpl. rewrite Hc3, Ha3. exact Hp.
  - simpl. now rewrite Ha3.
Qed.

End WithSetOrder.

End DPLLFacts.

(** ** Results on the DPLL solver *)

Module DPLLResults.
Import DPLL DPLLFacts.

Lemma first_seen_In (adds : list Z) (x : Z) : In x (first_seen adds) <-> In x adds.
Proof.
  induction adds as [|y rest IH]; simpl; [tauto|].
  rewrite <- IH. split.
  - intros [->|H]; [now left|]. right.
    apply list_elem_of_In in H. apply list_elem_of_filter in H as [_ H].
    now apply list_elem_of_In.
  - intros [->|H]; [now left|].
    destruct (decide (x = y)) as [->|Hne]; [now left|]. right.
    apply list_elem_of_In. apply list_elem_of_filter. split; [assumption|].
    now apply list_elem_of_In.
Qed.

Lemma first_seen_NoDup (adds : list Z) : NoDup (first_seen adds).
Proof.
  induction adds as [|y rest IH]; simpl; constructor.
  - intros H. apply list_elem_of_filter in H as [H _]. now apply H.
  - now apply NoDup_filter.
Qed.

Lemma first_seen_ok : set_iter_ok first_seen.
Proof.
  intros adds. split; [apply first_seen_NoDup | apply first_seen_In].
Qed.

Section WithSetOrder.

Variable set_iter : list Z -> list Z.
Hypothesis set_iter_spec : set_iter_ok set_iter.

(** A sat answer of [DPLLSolver.solve] comes with a final state whose
    working list is empty and still related to the input. *)
Lemma solve_sat_rel (start_time end_time : float) (fuel : nat) (num_vars : Z)
    (cls : list (list Z)) (A : gmap Z bool) (st : stats) :
  nonzero_lits cls ->
  solve set_iter start_time end_time fuel num_vars cls = Done (Sat, Some A, st) ->
  related cls ∅ [] A.
Proof.
  intros Hnz H. unfold solve in H.
  destruct (_dpll set_iter fuel 0 (_init_data_structures cls)) as [[r s]| |] eqn:E;
    try discriminate.
  cbn [bind] in H. destruct r; [|discriminate].
  injection H as <- _.
  apply (dpll_true_rel set_iter set_iter_spec cls ∅ Hnz) in E as [Hrel Hnil].
  - unfold rel in Hrel. now rewrite Hnil in Hrel.
  - apply related_init.
Qed.

(** Soundness of the sat verdict of the DPLL solver. *)
Theorem solve_sound (start_time end_time : float) (fuel : nat) (num_vars : Z)
    (cls : list (list Z)) (A : gmap Z bool) (st : stats) :
  nonzero_lits cls ->
  solve set_iter start_time end_time fuel num_vars cls = Done (Sat, Some A, st) ->
  forall c, In c cls -> clause_satisfied A c = true.
Proof.
  intros Hnz H c Hc.
  destruct (rel_sat _ _ _ _ (solve_sat_rel _ _ _ _ _ _ _ Hnz H) c Hc)
    as [Hs|(c' & [] & _)].
  exact Hs.
Qed.


(** At any point of a successful search: a variable that is unassigned and
    occurs in no remaining clause is still unassigned at the end. *)
Theorem dpll_keeps_absent (fuel depth : nat) (s s' : state) (var : Z) :
  nonzero_lits (clauses s) ->
  _dpll set_iter fuel depth s = Done (true, s') ->
  assignment s !! var = None ->
  ~ occurs var (clauses s) ->
  assignment s' !! var = None.
Proof.
  intros Hnz H Hnone Hocc.
  apply (dpll_true_rel set_iter set_iter_spec (clauses s) (assignment s) Hnz)
    in H as [Hrel _]; [|apply related_init].
  destruct (assignment s' !! var) as [b|] eqn:E; [|reflexivity].
  destruct (rel_dom _ _ _ _ Hrel var) as [[b' Hb']|Ho].
  - rewrite E. now exists b.
  - congruence.
  - contradiction.
Qed.

(** *** Fuel and clock do not matter *)

Lemma unit_propagate_mono (fuel : nat) :
  forall (fuel' : nat) (s : state) (r : bool * state),
  _unit_propagate fuel s = Done r -> (fuel <= fuel')%nat ->
  _unit_propagate fuel' s = Done r.
Proof.
  induction fuel as [|fuel IH]; intros fuel' s r H Hle; [discriminate|].
  destruct fuel' as [|fuel']; [lia|].
  rewrite unit_propagate_S in *.
  destruct (_find_unit_clauses s) as [|u us]; [assumption|].
  destruct (unit_for (u :: us) false s) as [[[] []] s1]; try assumption.
  apply IH; [assumption | lia].
Qed.

Lemma try_assignment_mono (rec rec' : state -> result (bool * state))
    (var : Z) (value : bool) (s : state) (r : bool * state) :
  (forall s y, rec s = Done y -> rec' s = Done y) ->
  _try_assignment rec var value s = Done r ->
  _try_assignment rec' var value s = Done r.
Proof.
  unfold _try_assignment. intros Hrec H.
  apply bind_Done in H as (y & Hy & H). now rewrite (Hrec _ _ Hy).
Qed.

Lemma dpll_mono (fuel : nat) :
  forall (fuel' depth : nat) (s : state) (r : bool * state),
  _dpll set_iter fuel depth s = Done r -> (fuel <= fuel')%nat ->
  _dpll set_iter fuel' depth s = Done r.
Proof.
  induction fuel as [|fuel IH]; intros fuel' depth s r H Hle; [discriminate|].
  destruct fuel' as [|fuel']; [lia|].
  rewrite dpll_S in *. cbv zeta in *.
  apply bind_Done in H as ([ok s1] & Hup & H).
  rewrite (unit_propagate_mono _ _ _ _ Hup) by lia. cbn [bind].
  destruct (negb ok); [assumption|].
  destruct (_all_clauses_satisfied s1); [assumption|].
  destruct (_has_empty_clause s1); [assumption|].
  destruct (_all_clauses_satisfied _); [assumption|].
  destruct (_has_empty_clause _); [assumption|].
  destruct (_choose_variable set_iter _) as [var|]; [|assumption].
  assert (Hrec : forall s y, _dpll set_iter fuel (S depth) s = Done y ->
                             _dpll set_iter fuel' (S depth) s = Done y).
  { intros s0 y Hy. apply IH; [assumption | lia]. }
  apply bind_Done in H as ([r1 s2] & Ht1 & H).
  rewrite (try_assignment_mono _ _ _ _ _ _ Hrec Ht1). cbn [bind].
  destruct r1; [assumption|].
  apply bind_Done in H as ([r2 s3] & Ht2 & H).
  rewrite (try_assignment_mono _ _ _ _ _ _ Hrec Ht2). cbn [bind].
  assumption.
Qed.

(** Two runs of [DPLLSolver.solve] on the same input that both return agree
    on everything but the elapsed time. *)
Theorem dpll_solve_deterministic (start_time end_time start_time' end_time' : float)
    (fuel fuel' : nat) (num_vars : Z) (cls : list (list Z))
    (v v' : verdict) (A A' : option (gmap Z bool)) (st st' : stats) :
  solve set_iter start_time end_time fuel num_vars cls = Done (v, A, st) ->
  solve set_iter start_time' end_time' fuel' num_vars cls = Done (v', A', st') ->
  v = v' /\ A = A' /\ decisions st = decisions st'
  /\ propagations st = propagations st' /\ depth_reached st = depth_reached st'.
Proof.
  unfold solve. intros H H'.
  apply bind_Done in H as ([r s] & Hd & H).
  apply bind_Done in H' as ([r' s'] & Hd' & H').
  apply dpll_mono with (fuel' := Nat.max fuel fuel') in Hd; [|lia].
  apply dpll_mono with (fuel' := Nat.max fuel fuel') in Hd'; [|lia].
  rewrite Hd in Hd'. injection Hd' as <- <-.
  destruct r; injection H as <- <- <-; injection H' as <- <- <-; now simpl.
Qed.

End WithSetOrder.

End DPLLResults.

(** ** The DPLL solver always returns *)

Module DPLLTotal.
Import DPLL DPLLFacts.

Lemma weight_app (cl cl' : list (list Z)) : weight (cl ++ cl') = (weight cl + weight cl')%nat.
Proof. unfold weight. now rewrite map_app, list_sum_app. Qed.

Lemma length_le_weight (cl : list (list Z)) : (length cl <= weight cl)%nat.
Proof.
  induction cl as [|c cl IH]; [apply le_n|].
  change (weight (c :: cl)) with (S (length c) + weight cl)%nat. simpl. lia.
Qed.

Lemma simplify_clause_size (lit neg_lit : Z) (c : list Z) :
  (weight (simplify_clause lit neg_lit c) <= S (length c))%nat
  /\ (length (simplify_clause lit neg_lit c) <= 1)%nat.
Proof.
  unfold simplify_clause, weight. destruct (lit_in lit c); [simpl; lia|].
  destruct (lit_in neg_lit c); simpl; [|lia].
  pose proof (length_filter (fun l => l <> neg_lit) c). lia.
Qed.

Lemma simplify_clause_sat (lit neg_lit : Z) (c : list Z) :
  In lit c -> simplify_clause lit neg_lit c = [].
Proof.
  intros H. unfold simplify_clause. apply lit_in_In in H. now rewrite H.
Qed.

Lemma simplify_clause_shrinks (lit neg_lit : Z) (c : list Z) :
  In lit c \/ In neg_lit c ->
  (weight (simplify_clause lit neg_lit c) < S (length c))%nat.
Proof.
  intros H. unfold simplify_clause. destruct (lit_in lit c) eqn:E1;
    [unfold weight; simpl; lia|].
  destruct (lit_in neg_lit c) eqn:E2.
  - unfold weight. simpl.
    apply lit_in_In in E2. apply list_elem_of_In in E2.
    pose proof (length_filter_lt (fun l => l <> neg_lit) c neg_lit E2) as Hlt.
    assert (~ neg_lit <> neg_lit) by tauto. specialize (Hlt H0). lia.
  - destruct H as [H|H]; apply lit_in_In in H; congruence.
Qed.

Lemma simplify_size (lit neg_lit : Z) (cl : list (list Z)) :
  (weight (flat_map (simplify_clause lit neg_lit) cl) <= weight cl)%nat
  /\ (length (flat_map (simplify_clause lit neg_lit) cl) <= length cl)%nat.
Proof.
  induction cl as [|c cl [IHw IHl]]; [split; apply le_n|].
  destruct (simplify_clause_size lit neg_lit c) as [Hw Hl].
  cbn [flat_map]. rewrite weight_app, length_app.
  change (weight (c :: cl)) with (S (length c) + weight cl)%nat.
  simpl length. lia.
Qed.

Lemma simplify_weight_lt (lit neg_lit : Z) (cl : list (list Z)) (c : list Z) :
  In c cl -> In lit c \/ In neg_lit c ->
  (weight (flat_map (simplify_clause lit neg_lit) cl) < weight cl)%nat.
Proof.
  induction cl as [|c0 cl IH]; [intros []|]. intros Hc Hlit.
  cbn [flat_map]. rewrite weight_app.
  change (weight (c0 :: cl)) with (S (length c0) + weight cl)%nat.
  destruct (simplify_clause_size lit neg_lit c0) as [Hw _].
  destruct (simplify_size lit neg_lit cl) as [Hws _].
  destruct Hc as [->|Hc].
  - pose proof (simplify_clause_shrinks lit neg_lit c Hlit). lia.
  - specialize (IH Hc Hlit). lia.
Qed.

Lemma simplify_length_lt (lit neg_lit : Z) (cl : list (list Z)) (c : list Z) :
  In c cl -> In lit c ->
  (length (flat_map (simplify_clause lit neg_lit) cl) < length cl)%nat.
Proof.
  induction cl as [|c0 cl IH]; [intros []|]. intros Hc Hlit.
  cbn [flat_map]. rewrite length_app. simpl length.
  destruct (simplify_clause_size lit neg_lit c0) as [_ Hl].
  destruct (simplify_size lit neg_lit cl) as [_ Hls].
  destruct Hc as [->|Hc].
  - rewrite (simplify_clause_sat lit neg_lit c Hlit). simpl. lia.
  - specialize (IH Hc Hlit). lia.
Qed.

(** The clause list after [var] is given the polarity of [lit]. *)
Lemma clauses_simplify_abs (lit : Z) (s : state) :
  clauses (_simplify_with_assignment (Z.abs lit) (lit_sign lit) s)
  = flat_map (simplify_clause lit (- lit)) (clauses s).
Proof. unfold _simplify_with_assignment. simpl. now rewrite lit_of_abs. Qed.

(** A unit clause on another variable survives a simplification. *)
Lemma unit_clause_kept (lit l : Z) (cl : list (list Z)) :
  Z.abs l <> Z.abs lit -> In [l] cl ->
  In [l] (flat_map (simplify_clause lit (- lit)) cl).
Proof.
  intros Hne Hin. apply in_flat_map. exists [l]. split; [assumption|].
  unfold simplify_clause, lit_in. simpl.
  destruct (lit =? l) eqn:E1; [apply Z.eqb_eq in E1; subst; contradiction|].
  destruct (- lit =? l) eqn:E2.
  - apply Z.eqb_eq in E2. subst. rewrite Z.abs_opp in Hne. contradiction.
  - now left.
Qed.

(** What the loop over the unit literals does to the size of the clause
    list: it never grows, and it shrinks when the loop changes anything. *)
Lemma unit_for_size (units : list Z) :
  forall (changed : bool) (s : state),
  (forall l, In l units -> assignment s !! Z.abs l = None -> In [l] (clauses s)) ->
  let '(_, changed', s') := unit_for units changed s in
  (weight (clauses s') <= weight (clauses s))%nat
  /\ (length (clauses s') <= length (clauses s))%nat
  /\ (changed' = true -> changed = true \/
                         (length (clauses s') < length (clauses s))%nat).
Proof.
  induction units as [|lit rest IH]; intros changed s Hunits; cbn [unit_for].
  - repeat split; auto.
  - cbv zeta. destruct (assignment s !! Z.abs lit) as [b|] eqn:E.
    + destruct (Bool.eqb b (lit_sign lit)).
      * apply IH. intros l Hl. apply Hunits. now right.
      * repeat split; auto.
    + set (s1 := _simplify_with_assignment (Z.abs lit) (lit_sign lit)
                   (incr_propagations (assign (Z.abs lit) (lit_sign lit) s))).
      assert (Hcl : clauses s1 = flat_map (simplify_clause lit (- lit)) (clauses s))
        by (unfold s1; rewrite clauses_simplify_abs; reflexivity).
      assert (Hlit : In [lit] (clauses s)) by (apply Hunits; [now left | assumption]).
      assert (Hlt : (length (clauses s1) < length (clauses s))%nat).
      { rewrite Hcl. apply (simplify_length_lt _ _ _ [lit]); [assumption | now left]. }
      assert (Hw : (weight (clauses s1) <= weight (clauses s))%nat).
      { rewrite Hcl. apply simplify_size. }
      specialize (IH true s1).
      destruct (unit_for rest true s1) as [[ok changed'] s'].
      destruct IH as (IHw & IHl & _).
      * intros l Hl Hnone. rewrite Hcl.
        assert (Hne : Z.abs l <> Z.abs lit).
        { intros Heq. simpl in Hnone. rewrite Heq, lookup_insert_eq in Hnone.
          discriminate. }
        apply unit_clause_kept; [assumption|]. apply Hunits; [now right|].
        simpl in Hnone. now rewrite lookup_insert_ne in Hnone by congruence.
      * repeat split; [lia | lia |]. intros _. right. lia.
Qed.

Lemma unit_propagate_total (fuel : nat) :
  forall s : state,
  (length (clauses s) < fuel)%nat ->
  exists (ok : bool) (s' : state),
    _unit_propagate fuel s = Done (ok, s')
    /\ (weight (clauses s') <= weight (clauses s))%nat.
Proof.
  induction fuel as [|fuel IH]; intros s Hlt; [lia|].
  rewrite unit_propagate_S.
  destruct (_find_unit_clauses s) as [|u us] eqn:Eu.
  - exists true, s. split; [reflexivity | apply le_n].
  - pose proof (unit_for_size (u :: us) false s) as Hsize.
    destruct (unit_for (u :: us) false s) as [[ok changed] s1].
    destruct Hsize as (Hw & Hl & Hch).
    { intros l Hl _. rewrite <- Eu in Hl. now apply find_unit_clauses_In. }
    destruct ok; [destruct changed|].
    + destruct (Hch eq_refl) as [Habs|Hlt1]; [discriminate|].
      destruct (IH s1) as (ok & s' & -> & Hw'); [lia|].
      exists ok, s'. split; [reflexivity | lia].
    + exists true, s1. split; [reflexivity | assumption].
    + exists false, s1. split; [reflexivity | assumption].
Qed.

Lemma pure_for_weight (lits : list Z) :
  forall s : state, (weight (clauses (pure_for lits s)) <= weight (clauses s))%nat.
Proof.
  induction lits as [|lit rest IH]; intros s; cbn [pure_for]; [apply le_n|].
  cbv zeta. destruct (assignment s !! Z.abs lit); [apply IH|].
  etransitivity; [apply IH|]. rewrite clauses_simplify_abs. apply simplify_size.
Qed.

Section WithSetOrder.

Variable set_iter : list Z -> list Z.
Hypothesis set_iter_spec : set_iter_ok set_iter.

Lemma choose_variable_occurs (s : state) (var : Z) :
  _choose_variable set_iter s = Some var -> occurs var (clauses s).
Proof.
  unfold _choose_variable. intros H. apply find_some in H as [Hin _].
  apply (set_iter_In set_iter set_iter_spec) in Hin.
  now apply appearing_adds_occurs.
Qed.

(** Deciding a variable that occurs makes the clause list lighter. *)
Lemma decide_weight (var : Z) (value : bool) (s : state) :
  occurs var (clauses s) ->
  (weight (clauses (_simplify_with_assignment var value (assign var value s)))
   < weight (clauses s))%nat.
Proof.
  intros (c & l & Hc & Hl & Habs). unfold _simplify_with_assignment. simpl.
  apply (simplify_weight_lt _ _ _ c Hc).
  destruct value; simpl.
  - destruct (Z.abs_spec l) as [[_ E]|[_ E]].
    + left. congruence.
    + right. replace (- var) with l by lia. assumption.
  - destruct (Z.abs_spec l) as [[_ E]|[_ E]].
    + right. replace (- - var) with l by lia. assumption.
    + left. replace (- var) with l by lia. assumption.
Qed.

Lemma try_assignment_total (rec : state -> result (bool * state))
    (var : Z) (value : bool) (s : state) :
  (exists r s', rec (_simplify_with_assignment var value (assign var value s))
                = Done (r, s')) ->
  exists (r : bool) (s' : state),
    _try_assignment rec var value s = Done (r, s')
    /\ (r = false -> clauses s' = clauses s).
Proof.
  intros (r & s' & H). unfold _try_assignment. rewrite H. cbn [bind].
  destruct r.
  - exists true, s'. split; [reflexivity | discriminate].
  - eexists false, _. split; [reflexivity|]. reflexivity.
Qed.

(** With a budget above the weight of the clause list, [_dpll] returns. *)
Lemma dpll_total (fuel : nat) :
  forall (depth : nat) (s : state),
  (weight (clauses s) < fuel)%nat ->
  exists (r : bool) (s' : state), _dpll set_iter fuel depth s = Done (r, s').
Proof.
  induction fuel as [|fuel IH]; intros depth s Hlt; [lia|].
  rewrite dpll_S. cbv zeta.
  destruct (unit_propagate_total (S fuel) (note_depth s depth))
    as (ok & s1 & -> & Hw1).
  { pose proof (length_le_weight (clauses s)). simpl. lia. }
  cbn [bind]. simpl in Hw1.
  destruct ok; cbn [negb]; [|eauto].
  destruct (_all_clauses_satisfied s1); [eauto|].
  destruct (_has_empty_clause s1); [eauto|].
  pose proof (pure_for_weight (_find_pure_literals set_iter s1) s1) as Hw2.
  fold (_pure_literal_eliminate set_iter s1) in Hw2.
  set (s2 := _pure_literal_eliminate set_iter s1) in *.
  destruct (_all_clauses_satisfied s2); [eauto|].
  destruct (_has_empty_clause s2); [eauto|].
  destruct (_choose_variable set_iter s2) as [var|] eqn:Ech; [|eauto].
  apply choose_variable_occurs in Ech.
  destruct (try_assignment_total (_dpll set_iter fuel (S depth)) var true
              (incr_decisions s2)) as (r1 & s3 & -> & Hc3).
  { apply IH. pose proof (decide_weight var true (incr_decisions s2) Ech).
    simpl in *. lia. }
  cbn [bind]. destruct r1; [eauto|]. specialize (Hc3 eq_refl).
  destruct (try_assignment_total (_dpll set_iter fuel (S depth)) var false
              (incr_decisions s3)) as (r2 & s4 & -> & _).
  { apply IH.
    assert (Ech3 : occurs var (clauses (incr_decisions s3))).
    { simpl. rewrite Hc3. exact Ech. }
    pose proof (decide_weight var false (incr_decisions s3) Ech3) as Hd.
    simpl in Hd |- *. rewrite Hc3 in Hd |- *. simpl in *. lia. }
  cbn [bind]. destruct r2; eauto.
Qed.

(** [DPLLSolver.solve] returns on every input. *)
Theorem solve_total (start_time end_time : float) (fuel : nat) (num_vars : Z)
    (cls : list (list Z)) :
  (weight cls < fuel)%nat ->
  exists out, solve set_iter start_time end_time fuel num_vars cls = Done out.
Proof.
  intros Hlt. unfold solve.
  destruct (dpll_total fuel 0 (_init_data_structures cls) Hlt) as (r & s & ->).
  cbn [bind]. destruct r; eauto.
Qed.

(** *** An empty clause stays *)

Lemma simplify_keeps_empty (lit neg_lit : Z) (cl : list (list Z)) :
  In [] cl -> In [] (flat_map (simplify_clause lit neg_lit) cl).
Proof. intros H. apply in_flat_map. exists []. split; [assumption | now left]. Qed.

Lemma unit_for_keeps_empty (units : list Z) :
  forall (changed : bool) (s : state),
  In [] (clauses s) -> In [] (clauses (snd (unit_for units changed s))).
Proof.
  induction units as [|lit rest IH]; intros changed s H; cbn [unit_for]; [assumption|].
  cbv zeta. destruct (assignment s !! Z.abs lit) as [b|].
  - destruct (Bool.eqb b (lit_sign lit)); [now apply IH | assumption].
  - apply IH. now apply simplify_keeps_empty.
Qed.

Lemma unit_propagate_keeps_empty (fuel : nat) :
  forall (s s' : state) (ok : bool),
  In [] (clauses s) -> _unit_propagate fuel s = Done (ok, s') -> In [] (clauses s').
Proof.
  induction fuel as [|fuel IH]; intros s s' ok Hin H; [discriminate|].
  rewrite unit_propagate_S in H.
  destruct (_find_unit_clauses s) as [|u us]; [injection H as _ <-; assumption|].
  pose proof (unit_for_keeps_empty (u :: us) false s Hin) as Hfor.
  destruct (unit_for (u :: us) false s) as [[[] []] s1]; cbn [snd] in Hfor.
  - now apply IH in H.
  - injection H as _ <-. assumption.
  - injection H as _ <-. assumption.
  - injection H as _ <-. assumption.
Qed.

Lemma pure_for_keeps_empty (lits : list Z) :
  forall s : state, In [] (clauses s) -> In [] (clauses (pure_for lits s)).
Proof.
  induction lits as [|lit rest IH]; intros s H; cbn [pure_for]; [assumption|].
  cbv zeta. destruct (assignment s !! Z.abs lit); apply IH; [assumption|].
  now apply simplify_keeps_empty.
Qed.

(** A search over a clause list with an empty clause does not succeed. *)
Lemma dpll_empty_clause_false (fuel : nat) :
  forall (depth : nat) (s s' : state) (r : bool),
  In [] (clauses s) -> _dpll set_iter fuel depth s = Done (r, s') -> r = false.
Proof.
  induction fuel as [|fuel IH]; intros depth s s' r Hin H; [discriminate|].
  rewrite dpll_S in H. cbv zeta in H.
  destruct (_unit_propagate (S fuel) (note_depth s depth)) as [[ok s1]| |] eqn:Eup;
    try discriminate.
  apply unit_propagate_keeps_empty in Eup; [|exact Hin].
  cbn [bind] in H. destruct ok; cbn [negb] in H; [|now injection H as <-].
  destruct (_all_clauses_satisfied s1) eqn:E1.
  { apply all_clauses_satisfied_nil in E1. rewrite E1 in Eup. destruct Eup. }
  destruct (_has_empty_clause s1); [now injection H as <-|].
  pose proof (pure_for_keeps_empty (_find_pure_literals set_iter s1) s1 Eup) as Hp.
  fold (_pure_literal_eliminate set_iter s1) in Hp.
  set (s2 := _pure_literal_eliminate set_iter s1) in *.
  destruct (_all_clauses_satisfied s2) eqn:E2.
  { apply all_clauses_satisfied_nil in E2. rewrite E2 in Hp. destruct Hp. }
  destruct (_has_empty_clause s2); [now injection H as <-|].
  destruct (_choose_variable set_iter s2) as [var|]; [|now injection H as <-].
  destruct (_try_assignment _ var true (incr_decisions s2)) as [[r1 s3]| |] eqn:Et1;
    try discriminate.
  cbn [bind] in H.
  apply try_assignment_Done in Et1 as [[-> Hrec]|(-> & Hc3 & _)].
  { apply IH in Hrec; [discriminate|]. now apply simplify_keeps_empty. }
  destruct (_try_assignment _ var false (incr_decisions s3)) as [[r2 s4]| |] eqn:Et2;
    try discriminate.
  cbn [bind] in H.
  apply try_assignment_Done in Et2 as [[-> Hrec]|(-> & _)];
    [|now injection H as <-].
  apply IH in Hrec; [discriminate|]. apply simplify_keeps_empty.
  simpl. now rewrite Hc3.
Qed.

(** On an input with a zero-length clause the DPLL solver answers unsat. *)
Theorem solve_empty_clause_unsat (start_time end_time : float) (fuel : nat)
    (num_vars : Z) (cls : list (list Z)) :
  In [] cls ->
  (weight cls < fuel)%nat ->
  exists st, solve set_iter start_time end_time fuel num_vars cls
             = Done (Unsat, None, st).
Proof.
  intros Hin Hlt. unfold solve.
  destruct (dpll_total fuel 0 (_init_data_structures cls) Hlt) as (r & s & E).
  rewrite E. cbn [bind].
  apply dpll_empty_clause_false in E; [|exact Hin]. subst r. eauto.
Qed.

End WithSetOrder.

End DPLLTotal.

(** ** The path of a successful DPLL search *)

Module DPLLPathFacts.
Import DPLL DPLLFacts DPLLPath.


(** *** The search never changes a value it has given *)

Lemma assign_subseteq (var : Z) (value : bool) (s : state) :
  assignment s !! var = None ->
  assignment s ⊆ assignment (_simplify_with_assignment var value (assign var value s)).
Proof. intros H. simpl. now apply insert_subseteq. Qed.




Section WithSetOrder.

Variable set_iter : list Z -> list Z.
Hypothesis set_iter_spec : set_iter_ok set_iter.



(** *** The path is a by-product: the answer and the final state are those
    of [_dpll] *)





(** *** What a state on the path says about the final state *)




End WithSetOrder.

End DPLLPathFacts.

(** ** Facts about the CDCL solver *)

Module CDCLFacts.
Import CDCL.

(** *** More fuel does not change what is returned *)

Lemma propagate_mono (fuel fuel' : nat) (s : state) (r : option nat * state) :
  _propagate fuel s = Done r -> (fuel <= fuel')%nat -> _propagate fuel' s = Done r.
Proof. apply loop_mono. auto. Qed.

Lemma initial_propagate_mono (fuel fuel' : nat) (s : state) (r : option nat * state) :
  _initial_propagate fuel s = Done r -> (fuel <= fuel')%nat ->
  _initial_propagate fuel' s = Done r.
Proof.
  unfold _initial_propagate. intros H Hle.
  apply bind_Done in H as ([c s1] & -> & H). cbn [bind].
  destruct c; [assumption|]. now apply (propagate_mono fuel).
Qed.

Lemma analyze_conflict_mono (fuel fuel' : nat) (c : nat) (s : state)
    (r : list Z * Z * state) :
  _analyze_conflict fuel c s = Done r -> (fuel <= fuel')%nat ->
  _analyze_conflict fuel' c s = Done r.
Proof.
  unfold _analyze_conflict. intros H Hle.
  destruct (decision_level s =? 0); [assumption|].
  apply bind_Done in H as (clause & -> & H). cbn [bind].
  apply bind_Done in H as (x & Hloop & H).
  rewrite (loop_mono analyze_body analyze_body (fun _ _ E => E) _ _ _ _ Hloop Hle).
  exact H.
Qed.

Lemma handle_conflict_mono (fuel fuel' : nat) (c : nat) (s s' : state) :
  handle_conflict fuel c s = Done s' -> (fuel <= fuel')%nat ->
  handle_conflict fuel' c s = Done s'.
Proof.
  unfold handle_conflict. intros H Hle.
  apply bind_Done in H as (x & Ha & H).
  now rewrite (analyze_conflict_mono _ _ _ _ _ Ha Hle).
Qed.

Lemma main_body_mono (clock : nat -> float) (fuel fuel' : nat)
    (time_limit : option float) (start_time : float) (st : state * nat)
    (x : (state * nat) + outcome) :
  main_body clock fuel time_limit start_time st = Done x -> (fuel <= fuel')%nat ->
  main_body clock fuel' time_limit start_time st = Done x.
Proof.
  unfold main_body. intros H Hle. destruct st as [s tick].
  destruct (deadline_passed clock time_limit start_time tick) as [[] tick'];
    [assumption|].
  apply bind_Done in H as ([c s1] & Hp & H).
  rewrite (propagate_mono _ _ _ _ Hp Hle). cbn [bind].
  destruct c as [c|]; [|assumption].
  destruct (decision_level _ =? 0); [assumption|].
  apply bind_Done in H as (s2 & Hh & H).
  now rewrite (handle_conflict_mono _ _ _ _ _ Hh Hle).
Qed.

Lemma startup_mono (clock : nat -> float) (fuel fuel' : nat) (s : state)
    (x : (state * nat) + outcome) :
  startup clock fuel s = Done x -> (fuel <= fuel')%nat ->
  startup clock fuel' s = Done x.
Proof.
  unfold startup. intros H Hle.
  apply bind_Done in H as (s1 & -> & H). cbn [bind].
  destruct (existsb _ (clauses s1)); [assumption|].
  apply bind_Done in H as ([c s2] & Hp & H).
  now rewrite (initial_propagate_mono _ _ _ _ Hp Hle).
Qed.

Lemma solve_mono (clock : nat -> float) (fuel fuel' : nat) (time_limit : option float)
    (num_vars : Z) (cls : list (list Z)) (out : outcome) :
  solve clock fuel time_limit num_vars cls = Done out -> (fuel <= fuel')%nat ->
  solve clock fuel' time_limit num_vars cls = Done out.
Proof.
  unfold solve, solve_from. intros H Hle.
  apply bind_Done in H as (st & Hs & H).
  rewrite (startup_mono _ _ _ _ _ Hs Hle). cbn [bind].
  destruct st as [st|o]; [|assumption].
  apply (loop_mono (main_body clock fuel time_limit (clock 0%nat))
                   (main_body clock fuel' time_limit (clock 0%nat)))
    with (fuel := fuel); [|assumption..].
  intros s x Hx. now apply (main_body_mono _ fuel).
Qed.

(** *** Without a deadline the clock does not matter *)


Lemma same_but_time_stats (v : verdict) (A : option (gmap Z (option bool)))
    (now now' start start' : float) (s : state) :
  same_but_time (v, A, _get_stats now start s) (v, A, _get_stats now' start' s).
Proof. repeat split. Qed.


Lemma deadline_passed_unset (clock : nat -> float) (time_limit : option float)
    (start_time : float) (tick : nat) :
  time_limit_set time_limit = false ->
  deadline_passed clock time_limit start_time tick = (false, tick).
Proof.
  unfold time_limit_set, deadline_passed. destruct time_limit as [t|]; [|reflexivity].
  now intros ->.
Qed.

Lemma main_body_clock (clock clock' : nat -> float) (fuel : nat)
    (time_limit : option float) (start start' : float) (st st' : state * nat) :
  time_limit_set time_limit = false ->
  same_solver st st' ->
  res_rel (sum_rel same_solver same_but_time)
          (main_body clock fuel time_limit start st)
          (main_body clock' fuel time_limit start' st').
Proof.
  intros Hunset Hsame. destruct st as [s tick], st' as [s' tick'].
  unfold same_solver in Hsame. simpl in Hsame. subst s'.
  unfold main_body. rewrite !deadline_passed_unset by assumption.
  destruct (_propagate fuel s) as [[[c|] s1]| |]; simpl; try exact I.
  - destruct (decision_level _ =? 0); simpl.
    + apply same_but_time_stats.
    + destruct (handle_conflict fuel c _); simpl; try exact I. reflexivity.
  - destruct (Z.of_nat (length (trail s1)) =? num_vars s1).
    + destruct (final_assignment s1); simpl; try exact I.
      apply same_but_time_stats.
    + destruct (_make_decision s1); simpl; try exact I. reflexivity.
Qed.

Lemma startup_clock (clock clock' : nat -> float) (fuel : nat) (s : state) :
  res_rel (sum_rel same_solver same_but_time)
          (startup clock fuel s) (startup clock' fuel s).
Proof.
  unfold startup.
  destruct (_init_data_structures s) as [s1| |]; simpl; try exact I.
  destruct (existsb _ (clauses s1)); simpl; [apply same_but_time_stats|].
  destruct (_initial_propagate fuel s1) as [[[c|] s2]| |]; simpl; try exact I.
  - apply same_but_time_stats.
  - reflexivity.
Qed.

Lemma solve_clock (clock clock' : nat -> float) (fuel : nat)
    (time_limit : option float) (num_vars : Z) (cls : list (list Z)) :
  time_limit_set time_limit = false ->
  res_rel same_but_time (solve clock fuel time_limit num_vars cls)
          (solve clock' fuel time_limit num_vars cls).
Proof.
  intros Hunset. unfold solve, solve_from.
  pose proof (startup_clock clock clock' fuel (__init__ num_vars cls)) as Hs.
  destruct (startup clock fuel _) as [[st|o]| |],
           (startup clock' fuel _) as [[st'|o']| |];
    simpl in Hs |- *; try contradiction; try exact I; [|exact Hs].
  apply (loop_rel same_solver same_but_time); [|exact Hs].
  intros s s' Hsame. now apply main_body_clock.
Qed.

(** Two runs of [CDCLSolver.solve] without a deadline, on the same input,
    that both return agree on everything but the elapsed time. *)
Theorem cdcl_solve_deterministic (clock clock' : nat -> float) (fuel fuel' : nat)
    (time_limit : option float) (num_vars : Z) (cls : list (list Z))
    (out out' : outcome) :
  time_limit_set time_limit = false ->
  solve clock fuel time_limit num_vars cls = Done out ->
  solve clock' fuel' time_limit num_vars cls = Done out' ->
  same_but_time out out'.
Proof.
  intros Hunset H H'.
  apply solve_mono with (fuel' := Nat.max fuel fuel') in H; [|lia].
  apply solve_mono with (fuel' := Nat.max fuel fuel') in H'; [|lia].
  pose proof (solve_clock clock clock' (Nat.max fuel fuel') time_limit num_vars cls
                Hunset) as Hrel.
  rewrite H, H' in Hrel. exact Hrel.
Qed.

(** *** Propagation after a backjump *)

(** With nothing new on the trail [_propagate] returns at once. *)
Lemma propagate_idle (fuel : nat) (s : state) :
  _propagate_head s = length (trail s) ->
  _propagate (S fuel) s = Done (None, s).
Proof.
  intros H. unfold _propagate. rewrite loop_S. unfold propagate_body.
  rewrite H, Nat.ltb_irrefl. reflexivity.
Qed.

(** A backtrack that does anything leaves the propagation head at the end
    of the trail. *)
Lemma backtrack_head (level : Z) (s s' : state) :
  _backtrack level s = Done s' ->
  s' = s \/ _propagate_head s' = length (trail s').
Proof.
  unfold _backtrack. intros H.
  destruct (decision_level s <=? level); [injection H as <-; now left|].
  destruct (if level <? 0 then _ else _) as [target|];
    [|injection H as <-; now left].
  apply bind_Done in H as (s1 & _ & H). injection H as <-. now right.
Qed.

Lemma add_learned_clause_trail (clause : list Z) (s : state) :
  trail (_add_learned_clause clause s) = trail s
  /\ _propagate_head (_add_learned_clause clause s) = _propagate_head s.
Proof. destruct clause as [|lit0 [|lit1 tl]]; split; reflexivity. Qed.

(** After a backjump and the addition of the learned clause, the next
    [_propagate] finds no conflict and changes nothing: the learned clause
    is not looked at. *)
Lemma propagate_after_backjump (fuel : nat) (level : Z) (clause : list Z)
    (s s' : state) :
  _backtrack level s = Done s' ->
  s' <> s ->
  _propagate (S fuel) (_add_learned_clause clause s')
  = Done (None, _add_learned_clause clause s').
Proof.
  intros H Hne. apply propagate_idle.
  destruct (add_learned_clause_trail clause s') as [-> ->].
  destruct (backtrack_head _ _ _ H); [contradiction | assumption].
Qed.

(** *** The deadline *)

(** At an iteration boundary where a truthy time limit is found exceeded,
    the loop body returns the unknown verdict with the counters as they
    stand. *)
Lemma main_body_deadline (clock : nat -> float) (fuel : nat) (t start : float)
    (s : state) (tick : nat) :
  (t =? 0)%float = false ->
  (t <? clock tick - start)%float = true ->
  main_body clock fuel (Some t) start (s, tick)
  = Done (inr (Unknown, None, _get_stats (clock (S tick)) start s)).
Proof.
  intros Hset Hexc. unfold main_body, deadline_passed. now rewrite Hset, Hexc.
Qed.

(** *** How a run fails to return *)

Lemma analyze_conflict_OutOfFuel (fuel : nat) (c : nat) (s : state) (clause : list Z) :
  (decision_level s =? 0) = false ->
  index (clauses s) c = Done clause ->
  loop analyze_body fuel
       (mkAnalysis clause [] (replicate (Z.to_nat (num_vars s + 1)) false) 0 None None, s)
  = OutOfFuel ->
  _analyze_conflict fuel c s = OutOfFuel.
Proof.
  intros Hlevel Hclause Hloop. unfold _analyze_conflict.
  now rewrite Hlevel, Hclause; cbn [bind]; rewrite Hloop.
Qed.

Lemma handle_conflict_OutOfFuel (fuel : nat) (c : nat) (s : state) :
  _analyze_conflict fuel c s = OutOfFuel -> handle_conflict fuel c s = OutOfFuel.
Proof. intros H. unfold handle_conflict. now rewrite H. Qed.

Lemma main_body_OutOfFuel (clock : nat -> float) (fuel : nat)
    (time_limit : option float) (start : float) (s : state) (tick : nat)
    (c : nat) (s1 : state) :
  time_limit_set time_limit = false ->
  _propagate fuel s = Done (Some c, s1) ->
  (decision_level s1 =? 0) = false ->
  handle_conflict fuel c (set_num_conflicts (S (num_conflicts s1)) s1) = OutOfFuel ->
  main_body clock fuel time_limit start (s, tick) = OutOfFuel.
Proof.
  intros Hunset Hp Hlevel Hh. unfold main_body.
  rewrite deadline_passed_unset by assumption. rewrite Hp. cbn [bind].
  change (decision_level (set_num_conflicts (S (num_conflicts s1)) s1))
    with (decision_level s1).
  now rewrite Hlevel, Hh.
Qed.

End CDCLFacts.

(** ** The unsat verdict of the DPLL solver *)

Module DPLLComplete.
Import DPLL DPLLFacts.

Lemma holds_opp (sigma : Z -> bool) (lit : Z) :
  lit <> 0 -> holds sigma (- lit) = negb (holds sigma lit).
Proof.
  intros Hnz. unfold holds, lit_sign. rewrite Z.abs_opp.
  destruct (sigma (Z.abs lit)), (0 <? - lit) eqn:E1, (0 <? lit) eqn:E2;
    try reflexivity; exfalso;
    rewrite ?Z.ltb_lt, ?Z.ltb_ge in E1, E2; lia.
Qed.

Lemma holds_lit_of (sigma : Z -> bool) (var : Z) :
  0 < var -> holds sigma (lit_of var (sigma var)) = true.
Proof.
  intros Hpos. unfold holds, lit_of, lit_sign.
  destruct (sigma var) eqn:E.
  - rewrite Z.abs_eq by lia. rewrite E.
    assert (H : (0 <? var) = true) by (apply Z.ltb_lt; lia). now rewrite H.
  - rewrite Z.abs_opp, Z.abs_eq by lia. rewrite E.
    assert (H : (0 <? - var) = false) by (apply Z.ltb_ge; lia). now rewrite H.
Qed.

Lemma models_unit (sigma : Z -> bool) (cl : list (list Z)) (lit : Z) :
  In [lit] cl -> models sigma cl -> holds sigma lit = true.
Proof. intros Hin Hm. destruct (Hm _ Hin) as (l & [<-|[]] & H). exact H. Qed.

(** A valuation that makes [lit] true and satisfies the clause list also
    satisfies the simplified list. *)
Lemma models_simplify (sigma : Z -> bool) (lit : Z) (cl : list (list Z)) :
  lit <> 0 -> holds sigma lit = true -> models sigma cl ->
  models sigma (flat_map (simplify_clause lit (- lit)) cl).
Proof.
  intros Hnz Hlit Hm c' Hc'. apply in_flat_map in Hc' as (c & Hc & Hc').
  destruct (Hm c Hc) as (l & Hl & Hh).
  unfold simplify_clause in Hc'.
  destruct (lit_in lit c); [destruct Hc'|].
  destruct (lit_in (- lit) c); destruct Hc' as [<-|[]].
  - exists l. split; [|assumption].
    apply list_elem_of_In, list_elem_of_filter. split; [|now apply list_elem_of_In].
    intros ->. rewrite holds_opp, Hlit in Hh by assumption. discriminate.
  - now exists l.
Qed.

(** *** Two invariants of the search *)

Lemma nonzero_simplify (lit neg_lit : Z) (cl : list (list Z)) :
  nonzero_lits cl -> nonzero_lits (flat_map (simplify_clause lit neg_lit) cl).
Proof.
  unfold nonzero_lits. rewrite !Forall_forall. intros H c' Hc'.
  apply list_elem_of_In, in_flat_map in Hc' as (c & Hc & Hc').
  apply simplify_clause_incl in Hc'.
  specialize (H c (proj2 (list_elem_of_In _ _) Hc)).
  rewrite Forall_forall in *. intros x Hx. apply H.
  apply list_elem_of_In, Hc'. now apply list_elem_of_In.
Qed.

Lemma occurs_simplify (lit neg_lit : Z) (cl : list (list Z)) (v : Z) :
  occurs v (flat_map (simplify_clause lit neg_lit) cl) -> occurs v cl.
Proof.
  intros (c' & l & Hc' & Hl & Habs). apply in_flat_map in Hc' as (c & Hc & Hc').
  apply simplify_clause_incl in Hc'. exists c, l. repeat split; auto.
Qed.

(** After the simplification the variable of [lit] is gone. *)
Lemma simplify_removes (lit : Z) (cl : list (list Z)) :
  ~ occurs (Z.abs lit) (flat_map (simplify_clause lit (- lit)) cl).
Proof.
  intros (c' & l & Hc' & Hl & Habs). apply in_flat_map in Hc' as (c & Hc & Hc').
  assert (Hcases : l = lit \/ l = - lit) by lia.
  unfold simplify_clause in Hc'.
  destruct (lit_in lit c) eqn:E1; [destruct Hc'|].
  destruct (lit_in (- lit) c) eqn:E2; destruct Hc' as [<-|[]].
  - apply list_elem_of_In, list_elem_of_filter in Hl as [Hne Hl].
    destruct Hcases as [-> | ->]; [|contradiction].
    apply list_elem_of_In, lit_in_In in Hl. congruence.
  - destruct Hcases as [-> | ->]; apply lit_in_In in Hl; congruence.
Qed.

Lemma fresh_simplify (lit : Z) (s : state) :
  fresh s ->
  fresh (_simplify_with_assignment (Z.abs lit) (lit_sign lit)
           (assign (Z.abs lit) (lit_sign lit) s)).
Proof.
  intros Hf v Hv Hocc. unfold _simplify_with_assignment in Hocc. simpl in Hocc, Hv.
  rewrite lit_of_abs in Hocc.
  destruct (decide (Z.abs lit = v)) as [<-|Hne].
  - now apply simplify_removes in Hocc.
  - rewrite lookup_insert_ne in Hv by assumption.
    apply occurs_simplify in Hocc. now apply (Hf v).
Qed.

Lemma lit_of_abs_sign (var : Z) (value : bool) :
  0 < var ->
  Z.abs (lit_of var value) = var /\ lit_sign (lit_of var value) = value.
Proof.
  intros Hpos. unfold lit_sign.
  destruct value; simpl; split; try lia; rewrite ?Z.ltb_lt, ?Z.ltb_ge; lia.
Qed.

Lemma fresh_decide (var : Z) (value : bool) (s : state) :
  0 < var -> fresh s ->
  fresh (_simplify_with_assignment var value (assign var value s)).
Proof.
  intros Hpos Hf. destruct (lit_of_abs_sign var value Hpos) as [Ea Es].
  pose proof (fresh_simplify (lit_of var value) s Hf) as H.
  now rewrite Ea, Es in H.
Qed.

(** *** Unit propagation *)

Lemma unit_for_changed (units : list Z) (s : state) :
  snd (fst (unit_for units true s)) = true.
Proof.
  revert s. induction units as [|lit rest IH]; intros s; cbn [unit_for]; [reflexivity|].
  cbv zeta. destruct (assignment s !! Z.abs lit) as [b|].
  - destruct (Bool.eqb b (lit_sign lit)); [apply IH | reflexivity].
  - apply IH.
Qed.

Lemma unit_inv_refl (s : state) :
  fresh s -> nonzero_lits (clauses s) -> unit_inv s s.
Proof. intros Hf Hnz. split; auto. Qed.

Lemma unit_inv_step (s0 s : state) (lit : Z) :
  unit_inv s0 s ->
  In [lit] (clauses s) ->
  assignment s !! Z.abs lit = None ->
  unit_inv s0 (_simplify_with_assignment (Z.abs lit) (lit_sign lit)
                 (incr_propagations (assign (Z.abs lit) (lit_sign lit) s))).
Proof.
  intros [Hf Hnz Hm] Hin Hnone.
  assert (Hlit : lit <> 0).
  { unfold nonzero_lits in Hnz. rewrite Forall_forall in Hnz.
    specialize (Hnz [lit] (proj2 (list_elem_of_In _ _) Hin)).
    now inversion Hnz. }
  split.
  - exact (fresh_simplify lit (incr_propagations s) Hf).
  - unfold _simplify_with_assignment. simpl. now apply nonzero_simplify.
  - intros sigma Hs. destruct (Hm sigma Hs) as [Hcur Hagree].
    pose proof (models_unit sigma _ lit Hin Hcur) as Hh.
    split.
    + unfold _simplify_with_assignment. simpl. rewrite lit_of_abs.
      now apply models_simplify.
    + intros v b Hv. simpl in Hv.
      destruct (decide (Z.abs lit = v)) as [<-|Hne].
      * rewrite lookup_insert_eq in Hv. injection Hv as <-. right.
        unfold holds in Hh. now apply Bool.eqb_prop in Hh.
      * rewrite lookup_insert_ne in Hv by assumption. now apply Hagree.
Qed.

Lemma unit_for_complete (s0 : state) (units : list Z) :
  fresh s0 ->
  forall (changed : bool) (s : state),
  unit_inv s0 s ->
  (forall l, In l units -> In [l] (clauses s0)) ->
  (forall l, In l units -> assignment s !! Z.abs l = None -> In [l] (clauses s)) ->
  let '(ok, _, s') := unit_for units changed s in
  if ok then unit_inv s0 s' else forall sigma, ~ models sigma (clauses s0).
Proof.
  intros Hf0. induction units as [|lit rest IH]; intros changed s Hinv H0 Hcur;
    cbn [unit_for]; [assumption|].
  cbv zeta. destruct (assignment s !! Z.abs lit) as [b|] eqn:E.
  - destruct (Bool.eqb b (lit_sign lit)) eqn:Eb.
    + apply IH; [assumption| |]; intros l Hl; [apply H0 | apply Hcur]; now right.
    + intros sigma Hs.
      destruct (ui_models _ _ Hinv sigma Hs) as [_ Hagree].
      assert (Hin0 : In [lit] (clauses s0)) by (apply H0; now left).
      pose proof (models_unit sigma _ lit Hin0 Hs) as Hh.
      destruct (Hagree _ _ E) as [Hold|Hsig].
      * apply (Hf0 (Z.abs lit)); [now exists b|].
        exists [lit], lit. repeat split; [assumption | now left].
      * unfold holds in Hh. rewrite Hsig in Hh. congruence.
  - assert (Hin : In [lit] (clauses s)) by (apply Hcur; [now left | assumption]).
    apply IH.
    + now apply unit_inv_step.
    + intros l Hl. apply H0. now right.
    + intros l Hl Hnone. simpl in Hnone.
      assert (Hne : Z.abs l <> Z.abs lit).
      { intros Heq. rewrite Heq, lookup_insert_eq in Hnone. discriminate. }
      rewrite lookup_insert_ne in Hnone by congruence.
      unfold _simplify_with_assignment. simpl. rewrite lit_of_abs.
      apply DPLLTotal.unit_clause_kept; [assumption|].
      apply Hcur; [now right | assumption].
Qed.

Lemma unit_inv_trans (s0 s1 s2 : state) :
  fresh s0 -> unit_inv s0 s1 -> unit_inv s1 s2 -> unit_inv s0 s2.
Proof.
  intros Hf0 [Hf1 Hnz1 Hm1] [Hf2 Hnz2 Hm2]. split; [assumption..|].
  intros sigma Hs. destruct (Hm1 sigma Hs) as [Hc1 Ha1].
  destruct (Hm2 sigma Hc1) as [Hc2 Ha2]. split; [assumption|].
  intros v b Hv. destruct (Ha2 v b Hv) as [H|H]; [|now right]. now apply Ha1.
Qed.

(** [_unit_propagate]: a conflict means the clauses had no model; otherwise
    the invariants hold, models are kept, and no unit clause is left. *)
Lemma unit_propagate_complete (fuel : nat) :
  forall (s s' : state) (ok : bool),
  fresh s -> nonzero_lits (clauses s) ->
  _unit_propagate fuel s = Done (ok, s') ->
  if ok then unit_inv s s' /\ _find_unit_clauses s' = []
  else forall sigma, ~ models sigma (clauses s).
Proof.
  induction fuel as [|fuel IH]; intros s s' ok Hf Hnz H; [discriminate|].
  rewrite unit_propagate_S in H.
  destruct (_find_unit_clauses s) as [|u us] eqn:Eu.
  { injection H as <- <-. split; [now apply unit_inv_refl | assumption]. }
  assert (Hunits : forall l, In l (u :: us) -> In [l] (clauses s)).
  { intros l Hl. rewrite <- Eu in Hl. now apply find_unit_clauses_In. }
  pose proof (unit_for_complete s (u :: us) Hf false s (unit_inv_refl s Hf Hnz)
                Hunits (fun l Hl _ => Hunits l Hl)) as Hfor.
  assert (Hch : snd (fst (unit_for (u :: us) false s)) = false ->
                fst (fst (unit_for (u :: us) false s)) = true -> False).
  { cbn [unit_for]. cbv zeta.
    destruct (assignment s !! Z.abs u) as [b|] eqn:E.
    - exfalso. apply (Hf (Z.abs u)); [now exists b|].
      exists [u], u. repeat split; [apply Hunits | ]; now left.
    - rewrite unit_for_changed. discriminate. }
  destruct (unit_for (u :: us) false s) as [[ok1 changed] s1].
  cbn [fst snd] in Hch.
  destruct ok1; [destruct changed|].
  - specialize (IH s1 s' ok (ui_fresh _ _ Hfor) (ui_nonzero _ _ Hfor) H).
    destruct ok.
    + destruct IH as [Hinv Hno]. split; [|assumption].
      now apply (unit_inv_trans s s1 s').
    + intros sigma Hs. apply (IH sigma). now apply (ui_models _ _ Hfor).
  - exfalso. now apply Hch.
  - injection H as <- <-. exact Hfor.
Qed.

(** *** Pure literals *)

Lemma count_lit_key (lit : Z) (counts : list (Z * (nat * nat))) (k : Z) :
  In k (map fst (count_lit lit counts)) <-> k = Z.abs lit \/ In k (map fst counts).
Proof.
  induction counts as [|[var [pos neg]] rest IH]; simpl.
  - intuition.
  - destruct (var =? Z.abs lit) eqn:E; simpl.
    + apply Z.eqb_eq in E. intuition congruence.
    + rewrite IH. intuition.
Qed.

Lemma count_lit_NoDup (lit : Z) (counts : list (Z * (nat * nat))) :
  NoDup (map fst counts) -> NoDup (map fst (count_lit lit counts)).
Proof.
  induction counts as [|[var [pos neg]] rest IH]; simpl; intros Hnd.
  - constructor; [intros H; inversion H | constructor].
  - apply NoDup_cons in Hnd as [Hnotin Hnd].
    destruct (var =? Z.abs lit) eqn:E; simpl.
    + apply NoDup_cons. split; assumption.
    + apply NoDup_cons. split; [|now apply IH].
      intros Hin. apply list_elem_of_In, count_lit_key in Hin as [->|Hin].
      * rewrite Z.eqb_refl in E. discriminate.
      * apply Hnotin. now apply list_elem_of_In.
Qed.

Lemma count_lit_In (lit : Z) (counts : list (Z * (nat * nat))) (v : Z) (pn : nat * nat) :
  NoDup (map fst counts) ->
  In (v, pn) (count_lit lit counts) ->
  (v <> Z.abs lit /\ In (v, pn) counts)
  \/ (v = Z.abs lit /\ exists p0 n0,
        pn = (if lit_sign lit then (S p0, n0) else (p0, S n0))
        /\ (In (v, (p0, n0)) counts
            \/ ((p0, n0) = (0%nat, 0%nat) /\ ~ In v (map fst counts)))).
Proof.
  induction counts as [|[var [pos neg]] rest IH]; simpl; intros Hnd.
  - intros [[= <- <-]|[]]. right. split; [reflexivity|].
    exists 0%nat, 0%nat. split; [now destruct (lit_sign lit)|]. right. tauto.
  - apply NoDup_cons in Hnd as [Hnotin Hnd].
    destruct (var =? Z.abs lit) eqn:E.
    + apply Z.eqb_eq in E. intros [[= <- <-]|Hin].
      * right. split; [assumption|]. exists pos, neg. split; [reflexivity|].
        left. now left.
      * left. split; [|now right]. intros ->. apply Hnotin.
        apply list_elem_of_In. rewrite E. apply in_map_iff. now exists (Z.abs lit, pn).
    + apply Z.eqb_neq in E. intros [[= <- <-]|Hin].
      * left. split; [assumption | now left].
      * destruct (IH Hnd Hin) as [[Hne H]|(-> & p0 & n0 & Hpn & H)].
        -- left. split; [assumption | now right].
        -- right. split; [reflexivity|]. exists p0, n0. split; [assumption|].
           destruct H as [H|[H1 H2]]; [left; now right | right].
           split; [assumption|]. intros [H|H]; [now apply E | now apply H2].
Qed.

Lemma counts_ok_step (lit : Z) (counts : list (Z * (nat * nat))) (seen : list Z) :
  counts_ok counts seen -> counts_ok (count_lit lit counts) (lit :: seen).
Proof.
  intros (Hnd & Hcov & Hq). split; [now apply count_lit_NoDup|]. split.
  - intros l [<-|Hl]; apply count_lit_key; [now left | right; now apply Hcov].
  - intros v p n Hin.
    destruct (count_lit_In lit counts v (p, n) Hnd Hin)
      as [[Hne Hold]|(-> & p0 & n0 & Hpn & Horig)].
    + destruct (Hq v p n Hold) as [Hn Hp].
      split; intros H0 l [<-|Hl] Habs; try congruence; eauto.
    + assert (Hseen : forall l, In l seen -> Z.abs l = Z.abs lit ->
                        (n0 = 0%nat -> lit_sign l = true)
                        /\ (p0 = 0%nat -> lit_sign l = false)).
      { intros l Hl Habs. destruct Horig as [Hin0|[_ Hnot]].
        - destruct (Hq _ _ _ Hin0) as [Hn Hp]. split; intros; eauto.
        - exfalso. apply Hnot. rewrite <- Habs. now apply Hcov. }
      destruct (lit_sign lit) eqn:Es; injection Hpn as -> ->.
      * split; [|discriminate]. intros -> l [<-|Hl] Habs; [assumption|].
        now apply (Hseen l Hl Habs).
      * split; [discriminate|]. intros -> l [<-|Hl] Habs; [assumption|].
        now apply (Hseen l Hl Habs).
Qed.

Lemma counts_ok_ext (counts : list (Z * (nat * nat))) (seen seen' : list Z) :
  (forall x, In x seen' -> In x seen) -> counts_ok counts seen -> counts_ok counts seen'.
Proof.
  intros Hsub (Hnd & Hcov & Hq). split; [assumption|]. split.
  - intros l Hl. apply Hcov. now apply Hsub.
  - intros v p n Hin. destruct (Hq v p n Hin) as [Hn Hp].
    split; intros H0 l Hl; [apply Hn | apply Hp]; auto.
Qed.

Lemma counts_ok_clause (c : list Z) :
  forall (counts : list (Z * (nat * nat))) (seen : list Z),
  counts_ok counts seen ->
  counts_ok (fold_left (fun c lit => count_lit lit c) c counts) (c ++ seen).
Proof.
  induction c as [|l c IH]; intros counts seen H; simpl; [assumption|].
  apply (counts_ok_ext _ (c ++ l :: seen)).
  - intros x [<-|Hx]; apply in_or_app; [right; now left|].
    apply in_app_or in Hx as [Hx|Hx]; [now left | right; now right].
  - apply IH. now apply counts_ok_step.
Qed.

Lemma literal_counts_ok (cl : list (list Z)) :
  counts_ok (literal_counts cl) (concat cl).
Proof.
  unfold literal_counts.
  assert (G : forall counts seen, counts_ok counts seen ->
              counts_ok (fold_left (fun counts clause =>
                           fold_left (fun c lit => count_lit lit c) clause counts)
                           cl counts) (concat cl ++ seen)).
  { induction cl as [|c cl IH]; intros counts seen H; simpl; [assumption|].
    apply (counts_ok_ext _ (concat cl ++ c ++ seen)).
    - intros x Hx. rewrite <- app_assoc in Hx.
      apply in_app_or in Hx as [Hx|Hx]; apply in_or_app.
      + right. apply in_or_app. now left.
      + apply in_app_or in Hx as [Hx|Hx]; [now left | right].
        apply in_or_app. now right.
    - apply IH. now apply counts_ok_clause. }
  specialize (G [] []). rewrite app_nil_r in G. apply G.
  split; [constructor|]. split; [intros l []|intros v p n []].
Qed.

(** The complement of a literal found pure is in no clause. *)
Lemma pure_adds_pure (s : state) (lit : Z) :
  nonzero_lits (clauses s) ->
  In lit (pure_adds s) ->
  forall c, In c (clauses s) -> ~ In (- lit) c.
Proof.
  intros Hnz Hin c Hc Hneg.
  unfold pure_adds in Hin. apply in_flat_map in Hin as ([var [pos neg]] & Hcount & H).
  pose proof (literal_counts_keys _ _ _ Hcount) as Hocc.
  pose proof (occurs_positive _ _ Hnz Hocc) as Hpos.
  destruct (literal_counts_ok (clauses s)) as (_ & _ & Hq).
  destruct (Hq _ _ _ Hcount) as [Hn Hp].
  assert (Hconcat : In (- lit) (concat (clauses s))).
  { apply in_concat. now exists c. }
  destruct (assignment s !! var); [destruct H|].
  destruct pos as [|pos], neg as [|neg]; simpl in H; try contradiction;
    destruct H as [<-|[]].
  - rewrite Z.opp_involutive in *.
    specialize (Hp eq_refl var Hconcat (Z.abs_eq var (Z.lt_le_incl _ _ Hpos))).
    unfold lit_sign in Hp. apply Z.ltb_ge in Hp. lia.
  - assert (Habs : Z.abs (- var) = var) by (rewrite Z.abs_opp; apply Z.abs_eq; lia).
    specialize (Hn eq_refl (- var) Hconcat Habs).
    unfold lit_sign in Hn. apply Z.ltb_lt in Hn. lia.
Qed.

Lemma simplify_pure_incl (lit : Z) (cl : list (list Z)) :
  (forall c, In c cl -> ~ In (- lit) c) ->
  incl (flat_map (simplify_clause lit (- lit)) cl) cl.
Proof.
  intros Hpure c' Hc'. apply in_flat_map in Hc' as (c & Hc & Hc').
  unfold simplify_clause in Hc'. destruct (lit_in lit c); [destruct Hc'|].
  destruct (lit_in (- lit) c) eqn:E.
  - apply lit_in_In in E. now apply Hpure in E.
  - destruct Hc' as [<-|[]]. assumption.
Qed.

Lemma pure_for_incl (lits : list Z) :
  forall s : state,
  (forall l, In l lits -> forall c, In c (clauses s) -> ~ In (- l) c) ->
  fresh s ->
  incl (clauses (pure_for lits s)) (clauses s) /\ fresh (pure_for lits s).
Proof.
  induction lits as [|lit rest IH]; intros s Hpure Hf; cbn [pure_for].
  - split; [apply incl_refl | assumption].
  - cbv zeta. destruct (assignment s !! Z.abs lit).
    + apply IH; [|assumption]. intros l Hl. apply Hpure. now right.
    + set (s1 := _simplify_with_assignment (Z.abs lit) (lit_sign lit)
                   (assign (Z.abs lit) (lit_sign lit) s)).
      assert (Hincl : incl (clauses s1) (clauses s)).
      { unfold s1, _simplify_with_assignment. simpl. rewrite lit_of_abs.
        apply simplify_pure_incl. apply Hpure. now left. }
      destruct (IH s1) as [Hi Hf1].
      * intros l Hl c Hc. apply Hpure; [now right | now apply Hincl].
      * apply fresh_simplify. exact Hf.
      * split; [|assumption]. intros c Hc. now apply Hincl, Hi.
Qed.

Lemma nonzero_incl (cl cl' : list (list Z)) :
  incl cl' cl -> nonzero_lits cl -> nonzero_lits cl'.
Proof.
  unfold nonzero_lits. rewrite !Forall_forall. intros Hincl H c Hc.
  apply H. apply list_elem_of_In, Hincl. now apply list_elem_of_In.
Qed.

Lemma models_incl (sigma : Z -> bool) (cl cl' : list (list Z)) :
  incl cl' cl -> models sigma cl -> models sigma cl'.
Proof. intros Hincl Hm c Hc. apply Hm. now apply Hincl. Qed.

Section WithSetOrder.

Variable set_iter : list Z -> list Z.
Hypothesis set_iter_spec : set_iter_ok set_iter.

(** Pure literal elimination removes whole clauses and nothing else. *)
Lemma pure_literal_eliminate_incl (s : state) :
  nonzero_lits (clauses s) -> fresh s ->
  incl (clauses (_pure_literal_eliminate set_iter s)) (clauses s)
  /\ fresh (_pure_literal_eliminate set_iter s).
Proof.
  intros Hnz Hf. apply pure_for_incl; [|assumption].
  intros l Hl. apply (set_iter_In set_iter set_iter_spec) in Hl.
  now apply pure_adds_pure.
Qed.

(** While clauses are left and none is empty, a variable is found to branch
    on. *)
Lemma choose_variable_finds (s : state) :
  fresh s ->
  _all_clauses_satisfied s = false ->
  _has_empty_clause s = false ->
  exists var, _choose_variable set_iter s = Some var.
Proof.
  intros Hf Hall Hempty. unfold _all_clauses_satisfied in Hall.
  unfold _has_empty_clause in Hempty.
  destruct (clauses s) as [|c cl] eqn:Ecl; [discriminate|].
  simpl in Hempty. destruct c as [|l c]; [discriminate|].
  destruct (_choose_variable set_iter s) as [var|] eqn:E; [now exists var|].
  exfalso. unfold _choose_variable in E.
  assert (Hin : In (Z.abs l) (set_iter (appearing_adds s))).
  { apply (set_iter_spec (appearing_adds s)). unfold appearing_adds.
    rewrite Ecl. simpl. now left. }
  pose proof (find_none _ _ E _ Hin) as Hnone. simpl in Hnone.
  destruct (assignment s !! Z.abs l) as [b|] eqn:Ea; [|discriminate].
  apply (Hf (Z.abs l)); [now exists b|].
  exists (l :: c), l. rewrite Ecl. repeat split; now left.
Qed.

Lemma try_assignment_false (rec : state -> result (bool * state))
    (var : Z) (value : bool) (s s' : state) :
  _try_assignment rec var value s = Done (false, s') ->
  clauses s' = clauses s /\ assignment s' = assignment s
  /\ exists s0, rec (_simplify_with_assignment var value (assign var value s))
                = Done (false, s0).
Proof.
  unfold _try_assignment.
  destruct (rec _) as [[[] s1]| |]; simpl; try discriminate.
  intros [= <-]. repeat split. now exists s1.
Qed.

(** A search that fails started from clauses without a model. *)
Lemma dpll_complete (fuel : nat) :
  forall (depth : nat) (s s' : state),
  fresh s -> nonzero_lits (clauses s) ->
  _dpll set_iter fuel depth s = Done (false, s') ->
  forall sigma, ~ models sigma (clauses s).
Proof.
  induction fuel as [|fuel IH]; intros depth s s' Hf Hnz H sigma Hs; [discriminate|].
  rewrite dpll_S in H. cbv zeta in H.
  destruct (_unit_propagate (S fuel) (note_depth s depth)) as [[ok s1]| |] eqn:Eup;
    try discriminate.
  apply unit_propagate_complete in Eup; [|assumption..].
  cbn [bind] in H. destruct ok; cbn [negb] in H; [|now apply (Eup sigma)].
  destruct Eup as [[Hf1 Hnz1 Hm1] _].
  destruct (Hm1 sigma Hs) as [Hs1 _].
  destruct (_all_clauses_satisfied s1) eqn:E1; [discriminate|].
  destruct (_has_empty_clause s1) eqn:Ee1.
  { unfold _has_empty_clause in Ee1. apply existsb_exists in Ee1 as (c & Hc & Hnil).
    destruct c; [|discriminate]. destruct (Hs1 [] Hc) as (l & [] & _). }
  destruct (pure_literal_eliminate_incl s1 Hnz1 Hf1) as [Hincl Hf2].
  set (s2 := _pure_literal_eliminate set_iter s1) in *.
  pose proof (models_incl sigma _ _ Hincl Hs1) as Hs2.
  pose proof (nonzero_incl _ _ Hincl Hnz1) as Hnz2.
  destruct (_all_clauses_satisfied s2) eqn:E2; [discriminate|].
  destruct (_has_empty_clause s2) eqn:Ee2.
  { unfold _has_empty_clause in Ee2. apply existsb_exists in Ee2 as (c & Hc & Hnil).
    destruct c; [|discriminate]. destruct (Hs2 [] Hc) as (l & [] & _). }
  destruct (choose_variable_finds s2 Hf2 E2 Ee2) as (var & Ech).
  rewrite Ech in H.
  assert (Hocc : occurs var (clauses s2)).
  { now apply (DPLLTotal.choose_variable_occurs set_iter set_iter_spec). }
  pose proof (occurs_positive _ _ Hnz2 Hocc) as Hpos.
  assert (Hbranch : forall (value : bool) (s3 s4 : state),
             clauses s3 = clauses s2 -> assignment s3 = assignment s2 ->
             sigma var = value ->
             _dpll set_iter fuel (S depth)
               (_simplify_with_assignment var value (assign var value s3))
             = Done (false, s4) -> False).
  { intros value s3 s4 Hc3 Ha3 Hval Hrec.
    assert (Hf3 : fresh s3).
    { intros v Hv. rewrite Hc3. apply Hf2. now rewrite <- Ha3. }
    refine (IH _ _ _ (fresh_decide var value s3 Hpos Hf3) _ Hrec sigma _).
    - unfold _simplify_with_assignment. simpl. rewrite Hc3. now apply nonzero_simplify.
    - unfold _simplify_with_assignment. simpl. rewrite Hc3.
      apply models_simplify; [destruct value; simpl; lia | | assumption].
      rewrite <- Hval. now apply holds_lit_of. }
  destruct (_try_assignment _ var true (incr_decisions s2)) as [[r1 s3]| |] eqn:Et1;
    try discriminate.
  cbn [bind] in H. destruct r1; [discriminate|].
  apply try_assignment_false in Et1 as (Hc3 & Ha3 & s3' & Hrec1).
  destruct (_try_assignment _ var false (incr_decisions s3)) as [[r2 s4]| |] eqn:Et2;
    try discriminate.
  cbn [bind] in H. destruct r2; [discriminate|].
  apply try_assignment_false in Et2 as (_ & _ & s4' & Hrec2).
  destruct (sigma var) eqn:Eval.
  - now apply (Hbranch true (incr_decisions s2) s3').
  - apply (Hbranch false (incr_decisions s3) s4'); auto.
Qed.

(** The unsat verdict of [DPLLSolver.solve] is right: no valuation of the
    variables satisfies every input clause. *)
Theorem solve_unsat_correct (start_time end_time : float) (fuel : nat)
    (num_vars : Z) (cls : list (list Z)) (st : stats) :
  nonzero_lits cls ->
  solve set_iter start_time end_time fuel num_vars cls = Done (Unsat, None, st) ->
  forall sigma, ~ models sigma cls.
Proof.
  intros Hnz H. unfold solve in H.
  apply bind_Done in H as ([r s] & Hd & H). destruct r; [discriminate|].
  apply (dpll_complete _ _ _ _) with (3 := Hd); [|exact Hnz].
  intros v [b Hb]. simpl in Hb. now rewrite lookup_empty in Hb.
Qed.

End WithSetOrder.

End DPLLComplete.

(** ** The counters of the DPLL solver *)

Module DPLLStats.
Import DPLL DPLLFacts.

Lemma unit_for_counters (units : list Z) :
  forall (changed : bool) (s : state),
  num_decisions (snd (unit_for units changed s)) = num_decisions s
  /\ max_depth (snd (unit_for units changed s)) = max_depth s.
Proof.
  induction units as [|lit rest IH]; intros changed s; cbn [unit_for]; [now split|].
  cbv zeta. destruct (assignment s !! Z.abs lit) as [b|].
  - destruct (Bool.eqb b (lit_sign lit)); [apply IH | now split].
  - destruct (IH true (_simplify_with_assignment (Z.abs lit) (lit_sign lit)
                         (incr_propagations (assign (Z.abs lit) (lit_sign lit) s))))
      as [-> ->]. now split.
Qed.

Lemma unit_propagate_counters (fuel : nat) :
  forall (s s' : state) (ok : bool),
  _unit_propagate fuel s = Done (ok, s') ->
  num_decisions s' = num_decisions s /\ max_depth s' = max_depth s.
Proof.
  induction fuel as [|fuel IH]; intros s s' ok H; [discriminate|].
  rewrite unit_propagate_S in H.
  destruct (_find_unit_clauses s) as [|u us]; [injection H as _ <-; now split|].
  pose proof (unit_for_counters (u :: us) false s) as [Hd Hm].
  destruct (unit_for (u :: us) false s) as [[[] []] s1]; cbn [snd] in Hd, Hm;
    try (injection H as _ <-; now split).
  apply IH in H as [-> ->]. now split.
Qed.

Lemma pure_for_counters (lits : list Z) :
  forall s : state,
  num_decisions (pure_for lits s) = num_decisions s
  /\ max_depth (pure_for lits s) = max_depth s.
Proof.
  induction lits as [|lit rest IH]; intros s; cbn [pure_for]; [now split|].
  cbv zeta. destruct (assignment s !! Z.abs lit); [apply IH|].
  destruct (IH (_simplify_with_assignment (Z.abs lit) (lit_sign lit)
                  (assign (Z.abs lit) (lit_sign lit) s))) as [-> ->]. now split.
Qed.

Lemma try_assignment_counters (rec : state -> result (bool * state))
    (var : Z) (value : bool) (s s' : state) (r : bool) :
  _try_assignment rec var value s = Done (r, s') ->
  exists s1, rec (_simplify_with_assignment var value (assign var value s))
             = Done (r, s1)
             /\ num_decisions s' = num_decisions s1 /\ max_depth s' = max_depth s1.
Proof.
  unfold _try_assignment.
  destruct (rec _) as [[[] s1]| |]; simpl; try discriminate;
    intros [= <- <-]; exists s1; now repeat split.
Qed.

Section WithSetOrder.

Variable set_iter : list Z -> list Z.

(** A call of [_dpll] at a depth that does not exceed the decisions made so
    far keeps the maximum depth below the number of decisions. *)
Lemma dpll_depth (fuel : nat) :
  forall (depth : nat) (s s' : state) (r : bool),
  _dpll set_iter fuel depth s = Done (r, s') ->
  (depth <= num_decisions s)%nat ->
  (max_depth s <= num_decisions s)%nat ->
  (max_depth s' <= num_decisions s')%nat /\ (num_decisions s <= num_decisions s')%nat.
Proof.
  induction fuel as [|fuel IH]; intros depth s s' r H Hd Hm; [discriminate|].
  rewrite dpll_S in H. cbv zeta in H.
  apply bind_Done in H as ([ok s1] & Hup & H).
  apply unit_propagate_counters in Hup as [Hd1 Hm1]. simpl in Hd1, Hm1.
  assert (Hbase : (max_depth s1 <= num_decisions s1)%nat
                  /\ (num_decisions s <= num_decisions s1)%nat) by lia.
  destruct (negb ok); [now injection H as _ <-|].
  destruct (_all_clauses_satisfied s1); [now injection H as _ <-|].
  destruct (_has_empty_clause s1); [now injection H as _ <-|].
  pose proof (pure_for_counters (_find_pure_literals set_iter s1) s1) as [Hd2 Hm2].
  fold (_pure_literal_eliminate set_iter s1) in Hd2, Hm2.
  set (s2 := _pure_literal_eliminate set_iter s1) in *.
  assert (Hbase2 : (max_depth s2 <= num_decisions s2)%nat
                   /\ (num_decisions s <= num_decisions s2)%nat) by lia.
  destruct (_all_clauses_satisfied s2); [now injection H as _ <-|].
  destruct (_has_empty_clause s2); [now injection H as _ <-|].
  destruct (_choose_variable set_iter s2) as [var|]; [|now injection H as _ <-].
  apply bind_Done in H as ([r1 s3] & Ht1 & H).
  apply try_assignment_counters in Ht1 as (s3' & Hrec1 & Hd3 & Hm3).
  apply IH in Hrec1 as [Hm3' Hd3']; simpl in *; [|lia..].
  destruct r1; [injection H as _ <-; lia|].
  apply bind_Done in H as ([r2 s4] & Ht2 & H).
  apply try_assignment_counters in Ht2 as (s4' & Hrec2 & Hd4 & Hm4).
  apply IH in Hrec2 as [Hm4' Hd4']; simpl in *; [|lia..].
  destruct r2; injection H as _ <-; lia.
Qed.

End WithSetOrder.

End DPLLStats.

(** ** More facts about the CDCL solver *)

Module CDCLMore.
Import CDCL.

(** Take a run that returned apart, call by call. *)
Ltac run_inv H :=
  repeat (cbn [bind] in H;
          match type of H with
          | bind ?m _ = Done _ =>
              let E := fresh "E" in destruct m eqn:E; cbn [bind] in H; try discriminate H
          | match ?x with _ => _ end = Done _ =>
              let E := fresh "E" in destruct x eqn:E; try discriminate H
          end).

(** *** The value of a literal *)

(** The complement of a literal has the complementary value. *)
Lemma lit_value_opp (s : state) (lit : Z) :
  lit <> 0 ->
  _lit_value s (- lit)
  = match _lit_value s lit with
    | Done v => Done (option_map negb v)
    | Raise => Raise
    | OutOfFuel => OutOfFuel
    end.
Proof.
  intros Hnz. unfold _lit_value. rewrite Z.abs_opp.
  destruct (index (assignment s) (Z.to_nat (Z.abs lit))) as [[val|]| |]; simpl;
    try reflexivity.
  destruct (0 <? - lit) eqn:E1, (0 <? lit) eqn:E2; simpl;
    rewrite ?Z.ltb_lt, ?Z.ltb_ge in E1, E2; try lia;
    now rewrite ?Bool.negb_involutive.
Qed.

(** *** The number of variables is fixed *)

Lemma for_each_inv {A S : Type} (P : S -> Prop) (body : A -> S -> result S) :
  (forall x s s', P s -> body x s = Done s' -> P s') ->
  forall (l : list A) (s s' : S), P s -> for_each l body s = Done s' -> P s'.
Proof.
  intros Hbody l. induction l as [|x l IH]; intros s s' Hs H; simpl in H.
  - now injection H as <-.
  - apply bind_Done in H as (s1 & H1 & H). eauto.
Qed.

Lemma loop_inv {S R : Type} (P : S -> Prop) (Q : R -> Prop)
    (body : S -> result (S + R)) :
  (forall s x, P s -> body s = Done x ->
               match x with inl s' => P s' | inr r => Q r end) ->
  forall (fuel : nat) (s : S) (r : R), P s -> loop body fuel s = Done r -> Q r.
Proof.
  intros Hbody fuel. induction fuel as [|fuel IH]; intros s r Hs H; [discriminate|].
  rewrite loop_S in H. apply bind_Done in H as (x & Hx & H).
  specialize (Hbody s x Hs Hx). destruct x as [s1|r1].
  - eauto.
  - now injection H as <-.
Qed.

(** *** What propagation does *)

Lemma insert_head_perm {A : Type} (l : list A) :
  forall (j : nat) (x b : A),
  l !! j = Some b -> Permutation (b :: <[j := x]> l) (x :: l).
Proof.
  induction l as [|y l IH]; intros j x b H; [discriminate|].
  destruct j as [|j]; simpl in *.
  - injection H as ->. apply perm_swap.
  - etransitivity; [apply perm_swap|]. etransitivity; [|apply perm_swap].
    apply perm_skip. now apply IH.
Qed.

(** Exchanging two positions of a list gives a permutation of it. *)
Lemma swap_perm {A : Type} (l : list A) :
  forall (i j : nat) (a b : A),
  l !! i = Some a -> l !! j = Some b ->
  Permutation (<[j := a]> (<[i := b]> l)) l.
Proof.
  induction l as [|x l IH]; intros i j a b Hi Hj; [discriminate|].
  destruct i as [|i], j as [|j]; simpl in *.
  - injection Hi as ->. reflexivity.
  - injection Hi as ->. now apply insert_head_perm.
  - injection Hj as ->. now apply insert_head_perm.
  - apply perm_skip. now apply IH.
Qed.

Lemma Forall2_perm_refl (cls : list (list Z)) : Forall2 Permutation cls cls.
Proof. induction cls; constructor; auto. Qed.

Lemma Forall2_perm_update (cls : list (list Z)) (idx : nat) (c c' : list Z) :
  cls !! idx = Some c -> Permutation c c' ->
  Forall2 Permutation cls (<[idx := c']> cls).
Proof.
  revert idx. induction cls as [|x cls IH]; intros idx H Hp; [discriminate|].
  destruct idx as [|idx]; simpl in *.
  - injection H as ->. constructor; [assumption | apply Forall2_perm_refl].
  - constructor; [reflexivity | now apply IH].
Qed.

Lemma extends_refl (s : state) : extends s s.
Proof.
  split; auto.
  - exists []. rewrite app_nil_r, Nat.add_0_r. repeat split. constructor.
  - apply Forall2_perm_refl.
Qed.

Lemma extends_trans (s1 s2 s3 : state) : extends s1 s2 -> extends s2 s3 -> extends s1 s3.
Proof.
  intros [(a1 & Ht1 & Hn1 & Hf1) Hl1 Hm1 Hv1 Hc1 Hd1 Hk1 [Ho1 Hp1]]
         [(a2 & Ht2 & Hn2 & Hf2) Hl2 Hm2 Hv2 Hc2 Hd2 Hk2 [Ho2 Hp2]].
  split; try congruence; auto.
  - exists (a1 ++ a2). rewrite Ht2, Ht1, Hn2, Hn1, length_app, app_assoc.
    repeat split; [lia|]. apply Forall_app. split; [assumption|].
    rewrite Hl1 in Hf2. exact Hf2.
  - clear -Hc1 Hc2. revert Hc2. generalize (clauses s3).
    induction Hc1; intros l3 H3; inversion H3; subst; constructor.
    + etransitivity; eassumption.
    + auto.
  - split; congruence.
Qed.

Lemma index_Some {A : Type} (l : list A) (i : nat) (a : A) :
  index l i = Done a <-> l !! i = Some a.
Proof. unfold index. destruct (l !! i); split; congruence. Qed.

Lemma update_Done {A : Type} (l l' : list A) (i : nat) (x : A) :
  update l i x = Done l' -> l' = <[i := x]> l /\ (i < length l)%nat.
Proof.
  unfold update. destruct (i <? length l)%nat eqn:E; [|discriminate].
  apply Nat.ltb_lt in E. intros [= <-]. now split.
Qed.

Lemma set_value_Done (var : Z) (value : option bool) (s s' : state) :
  set_value var value s = Done s' ->
  s' = set_assignment (<[Z.to_nat var := value]> (assignment s)) s
  /\ (Z.to_nat var < length (assignment s))%nat.
Proof.
  unfold set_value. intros H. apply bind_Done in H as (a & Ha & H).
  apply update_Done in Ha as [-> Hlt]. injection H as <-. now split.
Qed.

(** [other_watched and _lit_value(other_watched) == b] is true only for a
    nonzero literal with that value. *)
Lemma other_has_value_true (s : state) (o : option Z) (b : bool) :
  other_has_value s o b = Done true ->
  exists lit, o = Some lit /\ lit <> 0 /\ _lit_value s lit = Done (Some b).
Proof.
  unfold other_has_value. destruct o as [lit|]; [|discriminate].
  destruct (lit =? 0) eqn:E; [discriminate|]. apply Z.eqb_neq in E.
  destruct (_lit_value s lit) as [[b'|]| |] eqn:Ev; simpl; try discriminate.
  intros [= H]. apply Bool.eqb_prop in H. subst. now exists lit.
Qed.

(** When it is false for both values, a nonzero literal is unassigned. *)
Lemma other_unassigned (s : state) (lit : Z) :
  lit <> 0 ->
  other_has_value s (Some lit) true = Done false ->
  other_has_value s (Some lit) false = Done false ->
  assignment s !! Z.to_nat (Z.abs lit) = Some None.
Proof.
  unfold other_has_value, _lit_value. intros Hnz.
  apply Z.eqb_neq in Hnz. rewrite Hnz.
  destruct (index (assignment s) (Z.to_nat (Z.abs lit))) as [[val|]| |] eqn:E;
    simpl; try discriminate.
  - destruct (if 0 <? lit then val else negb val); discriminate.
  - intros _ _. now apply index_Some.
Qed.

Lemma find_new_watch_None (s : state) (lits : list Z) :
  forall i, find_new_watch s i lits = Done None -> falsified s lits.
Proof.
  induction lits as [|l lits IH]; intros i H lit Hin; [destruct Hin|].
  simpl in H. destruct (_lit_value s l) as [[[]|]| |] eqn:E; simpl in H;
    try discriminate.
  destruct Hin as [<-|Hin]; [assumption | exact (IH _ H lit Hin)].
Qed.

Lemma find_new_watch_Some (s : state) (lits : list Z) :
  forall i j, find_new_watch s i lits = Done (Some j) -> (i <= j)%nat.
Proof.
  induction lits as [|l lits IH]; intros i j H; [discriminate|].
  simpl in H. destruct (_lit_value s l) as [[[]|]| |]; simpl in H;
    try discriminate; try (injection H as <-; lia).
  apply IH in H. lia.
Qed.

(** The value of a literal does not change when an unassigned variable is
    given a value. *)
Lemma lit_value_kept (s s' : state) (lit : Z) (b : bool) :
  (forall i b, assignment s !! i = Some (Some b) -> assignment s' !! i = Some (Some b)) ->
  _lit_value s lit = Done (Some b) -> _lit_value s' lit = Done (Some b).
Proof.
  unfold _lit_value. intros Hv H.
  destruct (index (assignment s) (Z.to_nat (Z.abs lit))) as [[val|]| |] eqn:E;
    simpl in H; try discriminate.
  apply index_Some in E. apply Hv in E. apply index_Some in E. now rewrite E.
Qed.

(** One visit of a watching clause. *)
Lemma visit_clause_extends (neg_lit : Z) (clause_idx : nat) (s s' : state)
    (conflict : option nat) :
  visit_clause neg_lit clause_idx s = Done (conflict, s') -> extends s s'.
Proof.
  unfold visit_clause. intros H. run_inv H;
    try (injection H as <- <-; apply extends_refl);
    repeat match goal with
           | E : index _ _ = Done _ |- _ => apply index_Some in E
           | E : update _ _ _ = Done _ |- _ => apply update_Done in E as [-> _]
           end;
    injection H as <- <-.
  - (* a new literal is watched *)
    split; try reflexivity; auto.
    + exists []. rewrite app_nil_r, Nat.add_0_r. repeat split. constructor.
    + simpl.
      match goal with
      | Hc : clauses s !! clause_idx = Some ?c |- _ =>
          apply (Forall2_perm_update _ _ c _ Hc)
      end.
      symmetry. now apply swap_perm.
  - (* an implied literal *)
    match goal with
    | Hset : set_value _ _ _ = Done _ |- _ => apply set_value_Done in Hset as [-> Hlt]
    end.
    match goal with
    | Hz : (_ =? 0) = false |- _ => apply Z.eqb_neq in Hz
    end.
    split; try reflexivity; auto.
    + eexists [_]. simpl. repeat split; [lia|].
      constructor; [|constructor]. simpl. eauto.
    + simpl. intros i b Hi.
      match goal with
      | |- <[?k := _]> _ !! _ = _ => destruct (decide (i = k)) as [->|Hne]
      end.
      * match goal with
        | H1 : other_has_value s (Some ?z) true = Done false,
          H2 : other_has_value s (Some ?z) false = Done false |- _ =>
            rewrite (other_unassigned s z) in Hi by assumption
        end.
        discriminate.
      * now rewrite list_lookup_insert_ne by congruence.
Qed.

Lemma visit_watchers_extends (neg_lit : Z) (l : list nat) :
  forall (s s' : state) (conflict : option nat),
  visit_watchers neg_lit l s = Done (conflict, s') -> extends s s'.
Proof.
  induction l as [|idx l IH]; intros s s' conflict H; simpl in H.
  - injection H as <- <-. apply extends_refl.
  - apply bind_Done in H as ([c s1] & H1 & H). apply visit_clause_extends in H1.
    destruct c.
    + injection H as <- <-. exact H1.
    + eapply extends_trans; eauto.
Qed.

Lemma extends_head (s : state) (n : nat) : extends s (set_propagate_head n s).
Proof.
  split; auto.
  - exists []. rewrite app_nil_r, Nat.add_0_r. repeat split. constructor.
  - apply Forall2_perm_refl.
Qed.

Lemma propagate_body_extends (s : state) (x : state + (option nat * state)) :
  propagate_body s = Done x ->
  extends s match x with inl s' => s' | inr (_, s') => s' end.
Proof.
  unfold propagate_body. intros H.
  destruct (_propagate_head s <? length (trail s))%nat.
  - apply bind_Done in H as ([[lit lv] an] & _ & H).
    apply bind_Done in H as ([c s1] & H1 & H).
    apply visit_watchers_extends in H1.
    assert (extends s s1) by (eapply extends_trans; [apply extends_head | exact H1]).
    destruct c; now injection H as <-.
  - injection H as <-. apply extends_refl.
Qed.

(** Propagation only extends the solver. *)
Lemma propagate_extends (fuel : nat) :
  forall (s s' : state) (conflict : option nat),
  _propagate fuel s = Done (conflict, s') -> extends s s'.
Proof.
  unfold _propagate. induction fuel as [|fuel IH]; intros s s' conflict H;
    [discriminate|].
  rewrite loop_S in H. apply bind_Done in H as (x & Hx & H).
  apply propagate_body_extends in Hx. destruct x as [s1|[c s1]].
  - eapply extends_trans; eauto.
  - now injection H as <- <-.
Qed.

(** *** Conflicts and forced values *)

Lemma agrees_value (sigma : Z -> bool) (s : state) (lit : Z) (b : bool) :
  agrees sigma s -> _lit_value s lit = Done (Some b) -> holds sigma lit = b.
Proof.
  unfold _lit_value, holds, lit_sign. intros Ha H.
  destruct (index (assignment s) (Z.to_nat (Z.abs lit))) as [[val|]| |] eqn:E;
    simpl in H; try discriminate.
  apply index_Some in E. apply Ha in E. rewrite Z2Nat.id in E by lia.
  injection H as <-. rewrite E. now destruct (0 <? lit), val.
Qed.

Lemma models_perm (sigma : Z -> bool) (cls cls' : list (list Z)) :
  Forall2 Permutation cls cls' -> models sigma cls' -> models sigma cls.
Proof.
  intros HF Hm c Hc. induction HF as [|x y l l' Hxy HF IH]; [destruct Hc|].
  destruct Hc as [<-|Hc].
  - destruct (Hm y (or_introl eq_refl)) as (lit & Hin & Hl). exists lit.
    split; [|assumption]. eapply Permutation_in; [symmetry|]; eassumption.
  - apply IH; [|assumption]. intros c' Hc'. apply Hm. now right.
Qed.

(** The literals of a clause: the two watched places and the rest. *)
Lemma clause_places (clause : list Z) (lit : Z) :
  In lit clause ->
  clause !! 0%nat = Some lit \/ clause !! 1%nat = Some lit \/ In lit (drop 2 clause).
Proof.
  destruct clause as [|a [|b rest]]; simpl; intros H.
  - destruct H.
  - destruct H as [<-|[]]. now left.
  - destruct H as [<-|[<-|H]]; auto.
Qed.

Lemma watched_places (clause : list Z) (w o : nat) (neg_lit lit : Z) :
  clause !! w = Some neg_lit ->
  w = 0%nat /\ o = 1%nat \/ w = 1%nat /\ o = 0%nat ->
  In lit clause ->
  lit = neg_lit \/ clause !! o = Some lit \/ In lit (drop 2 clause).
Proof.
  intros Hw Hwo Hin. apply clause_places in Hin.
  destruct Hwo as [[-> ->]|[-> ->]], Hin as [H|[H|H]]; auto; left; congruence.
Qed.

Lemma lit_value_same (s s' : state) (lit : Z) :
  assignment s' = assignment s -> _lit_value s' lit = _lit_value s lit.
Proof. unfold _lit_value. now intros ->. Qed.

Lemma trail_true_same (s s' : state) :
  assignment s' = assignment s -> trail s' = trail s -> trail_true s -> trail_true s'.
Proof.
  intros Ha Ht H lit lv an Hin. rewrite Ht in Hin. rewrite (lit_value_same s s') by exact Ha.
  eauto.
Qed.

Lemma forced_same (s s' : state) :
  assignment s' = assignment s -> Forall2 Permutation (clauses s) (clauses s') ->
  forced s -> forced s'.
Proof.
  intros Ha Hp H sigma Hm i b Hi. rewrite Ha in Hi.
  apply (H sigma); [|assumption]. eapply models_perm; eassumption.
Qed.

Lemma visit_clause_sound (neg_lit : Z) (clause_idx : nat) (s s' : state)
    (conflict : option nat) :
  _lit_value s neg_lit = Done (Some false) ->
  visit_clause neg_lit clause_idx s = Done (conflict, s') ->
  (trail_true s -> trail_true s') /\ (forced s -> forced s') /\ conflicting s' conflict.
Proof.
  intros Hneg H. pose proof (visit_clause_extends _ _ _ _ _ H) as Hext.
  unfold visit_clause in H.
  apply bind_Done in H as (clause & Hc & H). apply index_Some in Hc.
  apply bind_Done in H as (c0 & Hc0 & H). apply index_Some in Hc0.
  apply bind_Done in H as (watched & Hw & H).
  assert (Hplaces : match watched with
                    | Some (w, o) => clause !! w = Some neg_lit
                                     /\ (w = 0%nat /\ o = 1%nat \/ w = 1%nat /\ o = 0%nat)
                    | None => True
                    end).
  { destruct (c0 =? neg_lit) eqn:E0.
    - injection Hw as <-. apply Z.eqb_eq in E0. subst. auto.
    - apply bind_Done in Hw as (c1 & Hc1 & Hw). apply index_Some in Hc1.
      destruct (c1 =? neg_lit) eqn:E1; injection Hw as <-; [|exact I].
      apply Z.eqb_eq in E1. subst. auto. }
  clear Hw. destruct watched as [[w o]|].
  2:{ injection H as <- <-. (split; [auto | split; [auto | intros c [=]]]). }
  destruct Hplaces as [Hwl Hwo]. cbn zeta in H.
  apply bind_Done in H as (sat & Hsat & H). destruct sat.
  { injection H as <- <-. (split; [auto | split; [auto | intros c [=]]]). }
  apply bind_Done in H as (nw & Hnw & H). destruct nw as [nw|].
  - (* a new literal is watched *)
    assert (assignment s' = assignment s /\ trail s' = trail s /\ conflict = None)
      as (Ha & Ht & ->).
    { run_inv H. now injection H as <- <-. }
    split; [now apply trail_true_same|].
    split; [apply forced_same; [assumption | apply Hext] | intros c [=]].
  - apply find_new_watch_None in Hnw.
    apply bind_Done in H as (cf & Hcf & H). destruct cf.
    + (* a conflict *)
      injection H as <- <-. split; [auto | split; [auto | intros c [= <-]]].
      exists clause. split; [assumption|]. 
      apply other_has_value_true in Hcf as (lo & Hlo & Hnz & Hvo).
      intros lit Hin.
      destruct (watched_places _ _ _ _ _ Hwl Hwo Hin) as [->|[Ho|Hd]]; auto.
      congruence.
    + (* an implied literal *)
      destruct (clause !! o) as [z|] eqn:Ho.
      2:{ injection H as <- <-. (split; [auto | split; [auto | intros c [=]]]). }
      destruct (z =? 0) eqn:Ez.
      { injection H as <- <-. (split; [auto | split; [auto | intros c [=]]]). }
      apply Z.eqb_neq in Ez.
      pose proof (other_unassigned s z Ez Hsat Hcf) as Hun.
      apply bind_Done in H as (s1 & Hs1 & H). apply set_value_Done in Hs1 as [-> Hlt].
      injection H as <- <-.
      split; [|split; [|intros c [=]]].
      * intros Htt lit lv an Hin. simpl in Hin. apply in_app_or in Hin as [Hin|Hin].
        -- destruct (Htt _ _ _ Hin) as [Hnz Hv]. split; [assumption|].
           eapply lit_value_kept; [|exact Hv]. apply Hext.
        -- destruct Hin as [[= <- <- <-]|[]]. split; [assumption|].
           unfold _lit_value. simpl. unfold index.
           rewrite list_lookup_insert_eq by assumption. simpl.
           unfold lit_sign. now destruct (0 <? z).
      * intros Hf sigma Hm i b Hi. simpl in Hm, Hi.
        pose proof (Hf sigma Hm) as Hag.
        destruct (decide (i = Z.to_nat (Z.abs z))) as [->|Hne].
        -- rewrite list_lookup_insert_eq in Hi by assumption. injection Hi as <-.
           rewrite Z2Nat.id by lia.
           destruct (Hm clause) as (lit & Hin & Hl).
           { apply list_elem_of_In. eapply list_elem_of_lookup_2. exact Hc. }
           destruct (watched_places _ _ _ _ _ Hwl Hwo Hin) as [->|[Hz|Hd]].
           ++ rewrite (agrees_value _ _ _ _ Hag Hneg) in Hl. discriminate.
           ++ assert (lit = z) as -> by congruence.
              unfold holds in Hl. now apply Bool.eqb_prop in Hl.
           ++ rewrite (agrees_value _ _ _ _ Hag (Hnw _ Hd)) in Hl. discriminate.
        -- rewrite list_lookup_insert_ne in Hi by congruence. now apply Hag.
Qed.

Lemma visit_watchers_sound (neg_lit : Z) (l : list nat) :
  forall (s s' : state) (conflict : option nat),
  _lit_value s neg_lit = Done (Some false) ->
  visit_watchers neg_lit l s = Done (conflict, s') ->
  (trail_true s -> trail_true s') /\ (forced s -> forced s') /\ conflicting s' conflict.
Proof.
  induction l as [|idx l IH]; intros s s' conflict Hneg H; simpl in H.
  - injection H as <- <-. split; [auto | split; [auto | intros c [=]]].
  - apply bind_Done in H as ([c s1] & H1 & H).
    pose proof (visit_clause_extends _ _ _ _ _ H1) as Hext.
    apply visit_clause_sound in H1 as (Ht & Hf & Hc); [|assumption].
    destruct c.
    + injection H as <- <-. auto.
    + apply IH in H as (Ht' & Hf' & Hc').
      * split; [auto | split; [auto | assumption]].
      * eapply lit_value_kept; [|exact Hneg]. apply Hext.
Qed.

Lemma propagate_body_sound (s : state) (x : state + (option nat * state)) :
  trail_true s -> propagate_body s = Done x ->
  match x with
  | inl s' => trail_true s' /\ (forced s -> forced s')
  | inr (conflict, s') =>
      trail_true s' /\ (forced s -> forced s') /\ conflicting s' conflict
  end.
Proof.
  unfold propagate_body. intros Ht H.
  destruct (_propagate_head s <? length (trail s))%nat.
  - apply bind_Done in H as ([[lit lv] an] & Hi & H). apply index_Some in Hi.
    apply bind_Done in H as ([c s1] & H1 & H).
    destruct (Ht lit lv an) as [Hnz Hv].
    { apply list_elem_of_In. eapply list_elem_of_lookup_2. exact Hi. }
    apply visit_watchers_sound in H1 as (Ht' & Hf' & Hc').
    + destruct c; injection H as <-; [split; [|split]|split]; auto.
    + rewrite (lit_value_same s) by reflexivity.
      rewrite lit_value_opp by assumption. now rewrite Hv.
  - injection H as <-. split; [assumption | split; [auto | intros c [=]]].
Qed.

(** Propagation keeps the trail literals true, and the clause it reports
    as conflicting has only false literals; values that were forced stay
    forced. *)
Lemma propagate_conflict (fuel : nat) (s s' : state) (conflict : option nat) :
  trail_true s -> _propagate fuel s = Done (conflict, s') ->
  trail_true s' /\ (forced s -> forced s') /\ conflicting s' conflict.
Proof.
  unfold _propagate. intros Hs H.
  apply (loop_inv (fun s1 => trail_true s1 /\ (forced s -> forced s1))
                  (fun r => trail_true (snd r) /\ (forced s -> forced (snd r))
                            /\ conflicting (snd r) (fst r))
                  propagate_body) with (r := (conflict, s')) (s := s) (fuel := fuel);
    [|now split|assumption].
  intros s0 x [H0 Hf0] Hx. pose proof (propagate_body_sound _ _ H0 Hx) as Hb.
  destruct x as [s1|[c s1]].
  - destruct Hb as [Ht1 Hf1]. auto.
  - destruct Hb as (Ht1 & Hf1 & Hc1). auto.
Qed.

Lemma propagate_sound (fuel : nat) (s s' : state) (conflict : option nat) :
  implied s -> _propagate fuel s = Done (conflict, s') ->
  implied s' /\ conflicting s' conflict.
Proof.
  intros [Ht Hf] H. apply propagate_conflict in H as (Ht' & Hf' & Hc); [|assumption].
  split; [split; auto | assumption].
Qed.

(** A clause whose literals are all false in a state that is forced has
    no model. *)
Lemma conflicting_no_model (s : state) (c : nat) :
  forced s -> conflicting s (Some c) -> forall sigma, ~ models sigma (clauses s).
Proof.
  intros Hf Hc sigma Hm. destruct (Hc c eq_refl) as (clause & Hl & Hfa).
  destruct (Hm clause) as (lit & Hin & Hh).
  { apply list_elem_of_In. eapply list_elem_of_lookup_2. exact Hl. }
  rewrite (agrees_value _ _ _ _ (Hf sigma Hm) (Hfa _ Hin)) in Hh. discriminate.
Qed.

(** *** What conflict handling leaves alone *)

Ltac steady_solve :=
  repeat match goal with
         | H : steady _ _ |- _ => destruct H as [? ? ?]
         end;
  simpl in *; split; simpl; congruence.

Lemma steady_refl (s : state) : steady s s.
Proof. now split. Qed.

Lemma steady_trans (s1 s2 s3 : state) : steady s1 s2 -> steady s2 s3 -> steady s1 s3.
Proof. intros. steady_solve. Qed.

Lemma for_each_steady {A : Type} (body : A -> state -> result state) :
  (forall x s s', body x s = Done s' -> steady s s') ->
  forall (l : list A) (s s' : state), for_each l body s = Done s' -> steady s s'.
Proof.
  intros Hbody l s s' H.
  apply (for_each_inv (steady s) body) with (l := l) (s := s); auto using steady_refl.
  intros x s1 s2 H1 H2. eapply steady_trans; eauto.
Qed.

Lemma heap_decrease_loop_steady (n : nat) (var : Z) :
  forall (pos : nat) (s s' : state),
  heap_decrease_loop n var pos s = Done s' -> steady s s'.
Proof.
  induction n as [|n IH]; intros pos s s' H; destruct pos; simpl in H;
    try discriminate; try (injection H as <-; apply steady_refl).
  run_inv H; try (injection H as <-; apply steady_refl).
  apply IH in H. steady_solve.
Qed.

Lemma heap_decrease_steady (var : Z) (s s' : state) :
  _heap_decrease var s = Done s' -> steady s s'.
Proof.
  unfold _heap_decrease. destruct (var_pos s !! var).
  - apply heap_decrease_loop_steady.
  - intros [= <-]. apply steady_refl.
Qed.

Lemma heap_insert_steady (var : Z) (s s' : state) :
  _heap_insert var s = Done s' -> steady s s'.
Proof.
  unfold _heap_insert. destruct (var_pos s !! var).
  - intros [= <-]. apply steady_refl.
  - intros H. apply heap_decrease_steady in H. steady_solve.
Qed.

Lemma bump_activity_steady (var : Z) (s s' : state) :
  _bump_activity var s = Done s' -> steady s s'.
Proof.
  unfold _bump_activity. intros H.
  apply bind_Done in H as (a & _ & H). apply bind_Done in H as (act & _ & H).
  cbn zeta in H. apply bind_Done in H as (a' & _ & H).
  apply bind_Done in H as (s1 & H1 & H).
  assert (steady s s1) as Hs1.
  { destruct (1e100 <? a')%float.
    - apply bind_Done in H1 as (s2 & H2 & H1). injection H1 as <-.
      apply for_each_steady in H2; [steady_solve|].
      intros v s3 s4 H3. run_inv H3. injection H3 as <-. steady_solve.
    - injection H1 as <-. steady_solve. }
  destruct (var_pos s1 !! var).
  - apply heap_decrease_steady in H. steady_solve.
  - injection H as <-. assumption.
Qed.

Lemma analyze_conflict_steady (fuel : nat) (c : nat) (s s' : state)
    (learned : list Z) (level : Z) :
  _analyze_conflict fuel c s = Done (learned, level, s') -> steady s s'.
Proof.
  unfold _analyze_conflict. intros H.
  destruct (decision_level s =? 0); [injection H as <- <- <-; apply steady_refl|].
  apply bind_Done in H as (clause & _ & H).
  apply bind_Done in H as ([a s1] & H1 & H). cbn zeta in H.
  apply bind_Done in H as (s2 & H2 & H). injection H as <- <- <-.
  assert (steady s s1) as Hs1.
  { refine (loop_inv (fun st => steady s (snd st)) (fun st => steady s (snd st))
                     analyze_body _ fuel _ (a, s1) _ H1); [|apply steady_refl].
    intros [a0 s0] x H0 Hx. simpl in H0. unfold analyze_body in Hx.
    run_inv Hx; injection Hx as <-; simpl; steady_solve. }
  apply for_each_steady in H2.
  - steady_solve.
  - intros lit s3 s4 H3. destruct (0 <? Z.abs lit).
    + now apply bump_activity_steady in H3.
    + injection H3 as <-. apply steady_refl.
Qed.

Lemma set_value_steady (var : Z) (value : option bool) (s s' : state) :
  set_value var value s = Done s' -> steady s s'.
Proof. intros H. apply set_value_Done in H as [-> _]. now split. Qed.

Lemma backtrack_steady (level : Z) (s s' : state) :
  _backtrack level s = Done s' -> steady s s'.
Proof.
  unfold _backtrack. intros H.
  destruct (decision_level s <=? level); [injection H as <-; apply steady_refl|].
  match type of H with
  | match ?t with _ => _ end = _ => destruct t as [pos|]
  end; [|injection H as <-; apply steady_refl].
  apply bind_Done in H as (s1 & H1 & H). injection H as <-.
  apply for_each_steady in H1; [steady_solve|].
  intros [[lit lv] an] s2 s3 H2. apply bind_Done in H2 as (s4 & H4 & H2).
  apply set_value_steady in H4. apply heap_insert_steady in H2. steady_solve.
Qed.

Lemma add_learned_clause_steady (clause : list Z) (s : state) :
  steady s (_add_learned_clause clause s).
Proof. destruct clause as [|l0 [|l1 tl]]; now split. Qed.

Lemma unwatch_steady (lit : Z) (idx : nat) (s s' : state) :
  unwatch lit idx s = Done s' -> steady s s'.
Proof.
  unfold unwatch. intros H. run_inv H; injection H as <-; now split.
Qed.

Lemma remove_clause_steady (idx : nat) (s s' : state) :
  remove_clause idx s = Done s' -> steady s s'.
Proof.
  unfold remove_clause. intros H.
  destruct (idx <? length (clauses s))%nat; [|injection H as <-; apply steady_refl].
  apply bind_Done in H as (clause & _ & H).
  apply bind_Done in H as (s1 & H1 & H). apply bind_Done in H as (s2 & H2 & H).
  apply bind_Done in H as (cls & _ & H). injection H as <-.
  assert (steady s s1).
  { destruct clause; [injection H1 as <-; apply steady_refl|].
    now apply unwatch_steady in H1. }
  assert (steady s1 s2).
  { destruct clause as [|l0 [|l1 tl]]; try (injection H2 as <-; apply steady_refl).
    now apply unwatch_steady in H2. }
  steady_solve.
Qed.

Lemma reduce_learned_clauses_steady (s s' : state) :
  _reduce_learned_clauses s = Done s' -> steady s s'.
Proof.
  unfold _reduce_learned_clauses. intros H.
  apply bind_Done in H as (s1 & H1 & H). injection H as <-.
  apply for_each_steady in H1; [steady_solve|].
  intros idx s2 s3. apply remove_clause_steady.
Qed.

Lemma restart_steady (s s' : state) : _restart s = Done s' -> steady s s'.
Proof.
  unfold _restart. intros H. apply bind_Done in H as (s1 & H1 & H).
  injection H as <-. apply backtrack_steady in H1. steady_solve.
Qed.

Lemma handle_conflict_steady (fuel : nat) (c : nat) (s s' : state) :
  handle_conflict fuel c s = Done s' -> steady s s'.
Proof.
  unfold handle_conflict. intros H.
  apply bind_Done in H as ([[learned level] s1] & H1 & H).
  apply bind_Done in H as (s2 & H2 & H). cbn zeta in H.
  apply bind_Done in H as (s3 & H3 & H).
  apply analyze_conflict_steady in H1. apply backtrack_steady in H2.
  pose proof (add_learned_clause_steady learned s2) as H4.
  assert (steady s s3) as Hs3.
  { match type of H3 with
    | (if ?t then _ else _) = _ => destruct t
    end.
    - apply reduce_learned_clauses_steady in H3. steady_solve.
    - injection H3 as <-. steady_solve. }
  match type of H with
  | (if ?t then _ else _) = _ => destruct t
  end.
  - apply restart_steady in H. steady_solve.
  - now injection H as <-.
Qed.

(** *** The variable heap is the only thing the heap methods touch *)

Ltac heap_solve :=
  repeat match goal with
         | H : heap_only _ _ |- _ => destruct H as (? & ? & ->)
         end;
  match goal with
  | |- heap_only ?s _ => destruct s; simpl; eexists _, _; reflexivity
  end.

Lemma heap_only_refl (s : state) : heap_only s s.
Proof. destruct s. now eexists _, _. Qed.

Lemma heap_only_trans (s1 s2 s3 : state) :
  heap_only s1 s2 -> heap_only s2 s3 -> heap_only s1 s3.
Proof. intros. heap_solve. Qed.

Lemma heap_decrease_loop_heap (n : nat) (var : Z) :
  forall (pos : nat) (s s' : state),
  heap_decrease_loop n var pos s = Done s' -> heap_only s s'.
Proof.
  induction n as [|n IH]; intros pos s s' H; destruct pos; simpl in H;
    try discriminate; try (injection H as <-; apply heap_only_refl).
  run_inv H; try (injection H as <-; apply heap_only_refl).
  apply IH in H. heap_solve.
Qed.

Lemma heap_decrease_heap (var : Z) (s s' : state) :
  _heap_decrease var s = Done s' -> heap_only s s'.
Proof.
  unfold _heap_decrease. destruct (var_pos s !! var).
  - apply heap_decrease_loop_heap.
  - intros [= <-]. apply heap_only_refl.
Qed.

Lemma heap_insert_heap (var : Z) (s s' : state) :
  _heap_insert var s = Done s' -> heap_only s s'.
Proof.
  unfold _heap_insert. destruct (var_pos s !! var).
  - intros [= <-]. apply heap_only_refl.
  - intros H. apply heap_decrease_heap in H. heap_solve.
Qed.

Lemma percolate_loop_heap (n : nat) :
  forall (pos : nat) (s s' : state), percolate_loop n pos s = Done s' -> heap_only s s'.
Proof.
  induction n as [|n IH]; intros pos s s' H; simpl in H; [discriminate|].
  run_inv H; try (injection H as <-; apply heap_only_refl).
  apply IH in H. heap_solve.
Qed.

Lemma heap_pop_heap (s s' : state) (popped : option Z) :
  _heap_pop s = Done (popped, s') -> heap_only s s'.
Proof.
  unfold _heap_pop. intros H. destruct (var_order s) as [|var rest] eqn:Eo.
  - injection H as <- <-. apply heap_only_refl.
  - cbn zeta in H. run_inv H; try (injection H as <- <-; heap_solve).
    match goal with
    | E : _heap_percolate_down _ _ = Done _ |- _ =>
        unfold _heap_percolate_down in E; apply bind_Done in E as (? & _ & E);
        apply percolate_loop_heap in E
    end.
    injection H as <- <-. heap_solve.
Qed.

Lemma choose_loop_heap (n : nat) :
  forall (s s' : state) (chosen : option Z),
  choose_loop n s = Done (chosen, s') ->
  heap_only s s'
  /\ forall var, chosen = Some var -> assignment s !! Z.to_nat var = Some None.
Proof.
  induction n as [|n IH]; intros s s' chosen H; simpl in H.
  - destruct (var_order s); [|discriminate]. injection H as <- <-.
    split; [apply heap_only_refl | discriminate].
  - destruct (var_order s) eqn:Eo.
    { injection H as <- <-. split; [apply heap_only_refl | discriminate]. }
    apply bind_Done in H as ([popped s1] & H1 & H). apply heap_pop_heap in H1.
    destruct popped as [var|]; [|discriminate].
    apply bind_Done in H as (value & Hv & H). apply index_Some in Hv.
    destruct value.
    + apply IH in H as [H Hc]. split; [heap_solve|].
      intros v Hch. specialize (Hc v Hch). destruct H1 as (? & ? & ->). exact Hc.
    + injection H as <- <-. split; [assumption|]. intros v [= <-].
      destruct H1 as (? & ? & ->). exact Hv.
Qed.

Lemma In_insert {A : Type} (l : list A) :
  forall (i : nat) (x y : A), In x (<[i := y]> l) -> x = y \/ In x l.
Proof.
  induction l as [|a l IH]; intros i x y H; [destruct H|].
  destruct i as [|i]; simpl in H.
  - destruct H as [<-|H]; auto. right. now right.
  - destruct H as [<-|H]; [right; now left|].
    apply IH in H as [->|H]; auto. right. now right.
Qed.

Lemma In_removelast {A : Type} (l : list A) (x : A) : In x (removelast l) -> In x l.
Proof.
  induction l as [|a l IH]; [auto|]. destruct l as [|b l]; [intros []|].
  intros [<-|H]; [now left | right; now apply IH].
Qed.

Lemma In_last {A : Type} (l : list A) :
  forall a d : A, In (List.last (a :: l) d) (a :: l).
Proof.
  induction l as [|b l IH]; intros a d; [now left|].
  right. exact (IH b d).
Qed.

(** The heap methods that take variables out never put a new one in. *)
Lemma percolate_loop_incl (n : nat) :
  forall (pos : nat) (s s' : state),
  percolate_loop n pos s = Done s' -> incl (var_order s') (var_order s).
Proof.
  induction n as [|n IH]; intros pos s s' H; simpl in H; [discriminate|].
  apply bind_Done in H as (l1 & _ & H). apply bind_Done in H as (l2 & _ & H).
  destruct (l2 =? pos)%nat; [injection H as <-; apply incl_refl|].
  apply bind_Done in H as (vpos & Hvpos & H). apply index_Some in Hvpos.
  apply bind_Done in H as (vl & Hvl & H). apply index_Some in Hvl.
  apply bind_Done in H as (o1 & Ho1 & H). apply update_Done in Ho1 as [-> _].
  apply bind_Done in H as (o2 & Ho2 & H). apply update_Done in Ho2 as [-> _].
  cbn zeta in H. apply bind_Done in H as (v1 & _ & H).
  apply bind_Done in H as (v2 & _ & H). apply IH in H. simpl in H.
  intros x Hx. apply H in Hx. apply In_insert in Hx as [->|Hx].
  - apply list_elem_of_In. eapply list_elem_of_lookup_2. exact Hvpos.
  - apply In_insert in Hx as [->|Hx]; [|assumption].
    apply list_elem_of_In. eapply list_elem_of_lookup_2. exact Hvl.
Qed.

Lemma heap_pop_incl (s s' : state) (popped : option Z) :
  _heap_pop s = Done (popped, s') ->
  incl (var_order s') (var_order s)
  /\ forall var, popped = Some var -> In var (var_order s).
Proof.
  unfold _heap_pop. intros H. destruct (var_order s) as [|var rest] eqn:Eo.
  - injection H as <- <-. rewrite Eo. split; [apply incl_refl | discriminate].
  - cbn zeta in H.
    pose proof (In_last rest var var) as Hlast.
    destruct (var_pos _ !! var); [|discriminate].
    remember (removelast (var :: rest)) as o eqn:Ero.
    assert (Hrl : incl o (var :: rest)) by (subst o; intros x; apply In_removelast).
    simpl in H. destruct o as [|a o].
    + injection H as <- <-. simpl. split; [apply incl_nil_l|].
      intros v [= <-]. now left.
    + apply bind_Done in H as (o1 & Ho1 & H). apply update_Done in Ho1 as [-> _].
      apply bind_Done in H as (s1 & H1 & H). injection H as <- <-.
      unfold _heap_percolate_down in H1. apply bind_Done in H1 as (? & _ & H1).
      apply percolate_loop_incl in H1. simpl in H1. split.
      * intros y Hy. apply H1 in Hy. destruct Hy as [<-|Hy]; [assumption|].
        apply Hrl. now right.
      * intros v [= <-]. now left.
Qed.

Lemma choose_loop_member (n : nat) :
  forall (s s' : state) (var : Z),
  choose_loop n s = Done (Some var, s') -> In var (var_order s).
Proof.
  induction n as [|n IH]; intros s s' var H; simpl in H.
  - destruct (var_order s); discriminate.
  - destruct (var_order s) eqn:Eo; [discriminate|]. rewrite <- Eo.
    apply bind_Done in H as ([popped s1] & H1 & H).
    apply heap_pop_incl in H1 as [Hincl Hpop].
    destruct popped as [v|]; [|discriminate].
    apply bind_Done in H as (value & _ & H). destruct value.
    + apply Hincl. eapply IH. exact H.
    + injection H as <- <-. now apply Hpop.
Qed.

(** [_make_decision] either leaves everything but the heap as it is, or
    makes one decision: an unassigned variable is made true on a new level. *)
Lemma make_decision_cases (s s' : state) :
  _make_decision s = Done s' ->
  heap_only s s'
  \/ exists var s1,
       heap_only s s1
       /\ In var (var_order s)
       /\ assignment s !! Z.to_nat var = Some None
       /\ s' = set_num_decisions (S (num_decisions s))
                 (set_trail (trail s ++ [(var, decision_level s + 1, None)])
                    (set_assignment (<[Z.to_nat var := Some true]> (assignment s))
                       (set_trail_lim (trail_lim s ++ [length (trail s)])
                          (set_decision_level (decision_level s + 1) s1)))).
Proof.
  unfold _make_decision, _choose_variable. intros H.
  apply bind_Done in H as ([chosen s1] & H1 & H).
  pose proof H1 as Hmem.
  apply choose_loop_heap in H1 as [H1 Hc]. destruct chosen as [var|].
  - right. exists var, s1. specialize (Hc var eq_refl).
    apply choose_loop_member in Hmem.
    cbn zeta in H. apply bind_Done in H as (s2 & H2 & H).
    apply set_value_Done in H2 as [-> _]. injection H as <-.
    split; [assumption|]. split; [assumption|]. split; [assumption|].
    destruct H1 as (? & ? & ->). reflexivity.
  - left. now injection H as <-.
Qed.

(** *** The set-up *)

Lemma add_clauses_state (l : list (list Z)) :
  forall s, exists w,
    fold_left (fun s clause_lits => add_clause clause_lits s) l s
    = set_watch_list w (set_clauses (clauses s ++ l) s).
Proof.
  induction l as [|c l IH]; intros s; simpl.
  - exists (watch_list s). rewrite app_nil_r. now destruct s.
  - destruct (IH (add_clause c s)) as (w & ->). exists w.
    unfold add_clause. destruct c as [|l0 [|l1 tl]]; simpl;
      now rewrite <- app_assoc.
Qed.

Lemma for_each_heap {A : Type} (body : A -> state -> result state) :
  (forall x s s', body x s = Done s' -> heap_only s s') ->
  forall (l : list A) (s s' : state), for_each l body s = Done s' -> heap_only s s'.
Proof.
  intros Hbody l s s' H.
  apply (for_each_inv (heap_only s) body) with (l := l) (s := s);
    auto using heap_only_refl.
  intros x s1 s2 H1 H2. eapply heap_only_trans; eauto.
Qed.

(** The solver after [_init_data_structures]. *)
Lemma init_data_structures_state (s s' : state) :
  _init_data_structures s = Done s' ->
  clauses s' = original_clauses s
  /\ trail s' = [] /\ trail_lim s' = []
  /\ assignment s' = replicate (Z.to_nat (num_vars s + 1)) None
  /\ decision_level s' = 0 /\ num_decisions s' = 0%nat
  /\ num_vars s' = num_vars s /\ _propagate_head s' = 0%nat
  /\ num_conflicts s' = 0%nat.
Proof.
  unfold _init_data_structures. intros H. cbn zeta in H.
  destruct (add_clauses_state (original_clauses (set_clauses [] s)) (set_clauses [] s))
    as (w & Hw).
  rewrite Hw in H. apply bind_Done in H as (s1 & H1 & H).
  apply for_each_heap in H1; [|intros; eapply heap_insert_heap; eassumption].
  destruct H1 as (? & ? & ->). injection H as <-. simpl. repeat split.
Qed.

Lemma lit_value_set (s : state) (lit : Z) :
  lit <> 0 -> (Z.to_nat (Z.abs lit) < length (assignment s))%nat ->
  _lit_value (set_assignment (<[Z.to_nat (Z.abs lit) := Some (lit_sign lit)]> (assignment s)) s)
             lit = Done (Some true).
Proof.
  intros Hnz Hlt. unfold _lit_value, index. simpl.
  rewrite list_lookup_insert_eq by assumption. simpl.
  unfold lit_sign. now destruct (0 <? lit).
Qed.

(** The scan of the unit clauses keeps every value forced, and stops with
    a conflict only if the clauses have no model. *)
Lemma initial_units_sound (cls : list (list Z)) :
  forall (idx : nat) (s s' : state) (conflict : option nat),
  incl cls (clauses s) -> nonzero_lits cls -> implied s ->
  initial_units idx cls s = Done (conflict, s') ->
  implied s' /\ clauses s' = clauses s /\ decision_level s' = decision_level s
  /\ num_decisions s' = num_decisions s /\ num_vars s' = num_vars s
  /\ (conflict <> None -> forall sigma, ~ models sigma (clauses s)).
Proof.
  induction cls as [|clause cls IH]; intros idx s s' conflict Hincl Hnz Hs H;
    simpl in H.
  - injection H as <- <-. split; [assumption|]. repeat (split; [reflexivity|]). congruence.
  - assert (Hincl' : incl cls (clauses s)) by (intros c Hc; apply Hincl; now right).
    inversion Hnz as [|? ? Hnzc Hnz']; subst.
    destruct clause as [|lit [|l1 tl]]; try (eapply IH; eassumption).
    inversion Hnzc as [|? ? Hlit _]; subst.
    assert (Hunit : forall sigma, models sigma (clauses s) ->
                                  sigma (Z.abs lit) = lit_sign lit).
    { intros sigma Hm. destruct (Hm [lit]) as (l & [<-|[]] & Hh).
      - apply Hincl. now left.
      - now apply Bool.eqb_prop in Hh. }
    apply bind_Done in H as (a & Ha & H). apply index_Some in Ha.
    destruct a as [b|].
    + destruct (Bool.eqb b (lit_sign lit)) eqn:Eb; [eapply IH; eassumption|].
      injection H as <- <-. split; [assumption|]. repeat (split; [reflexivity|]).
      intros _ sigma Hm. destruct Hs as [_ Hf].
      pose proof (Hf sigma Hm _ _ Ha) as Hb. rewrite Z2Nat.id in Hb by lia.
      rewrite (Hunit sigma Hm) in Hb. subst b.
      now rewrite Bool.eqb_reflx in Eb.
    + apply bind_Done in H as (s1 & H1 & H). apply set_value_Done in H1 as [-> Hlt].
      apply IH in H; try assumption.
      destruct Hs as [Ht Hf]. split.
      * intros l lv an Hin. simpl in Hin. apply in_app_or in Hin as [Hin|Hin].
        -- destruct (Ht _ _ _ Hin) as [Hl Hv]. split; [assumption|].
           eapply lit_value_kept; [|exact Hv]. simpl. intros i b Hi.
           rewrite list_lookup_insert_ne; [assumption|]. intros <-. congruence.
        -- destruct Hin as [[= <- <- <-]|[]]. split; [assumption|].
           now apply lit_value_set.
      * intros sigma Hm i b Hi. simpl in Hm, Hi.
        destruct (decide (i = Z.to_nat (Z.abs lit))) as [->|Hne].
        -- rewrite list_lookup_insert_eq in Hi by assumption. injection Hi as <-.
           rewrite Z2Nat.id by lia. now apply Hunit.
        -- rewrite list_lookup_insert_ne in Hi by congruence. now apply (Hf sigma).
Qed.

(** *** Answers given before the first decision *)

Lemma Forall2_perm_sym (cls cls' : list (list Z)) :
  Forall2 Permutation cls cls' -> Forall2 Permutation cls' cls.
Proof. induction 1; constructor; [now symmetry | assumption]. Qed.

Lemma startup_sound (clock : nat -> float) (fuel : nat) (num_vars : Z)
    (cls : list (list Z)) (x : (state * nat) + outcome) :
  nonzero_lits cls ->
  startup clock fuel (__init__ num_vars cls) = Done x ->
  match x with
  | inl (s, _) => undecided cls s
  | inr _ => forall sigma, ~ models sigma cls
  end.
Proof.
  unfold startup. intros Hnz H. cbn zeta in H.
  apply bind_Done in H as (s0 & H0 & H).
  apply init_data_structures_state in H0
    as (Hcl & Htr & _ & Has & Hlv & Hdec & _ & _).
  simpl in Hcl, Has.
  assert (Hm0 : forall sigma, models sigma cls -> models sigma (clauses s0)).
  { intros sigma Hm c Hc. rewrite Hcl in Hc. apply filter_In in Hc as [Hc _]. auto. }
  assert (Hnz0 : nonzero_lits (clauses s0)).
  { rewrite Hcl. unfold nonzero_lits in *. rewrite Forall_forall in *.
    intros c Hc. apply list_elem_of_In, filter_In in Hc as [Hc _].
    apply Hnz. now apply list_elem_of_In. }
  assert (Himp0 : implied s0).
  { split.
    - intros lit lv an Hin. rewrite Htr in Hin. destruct Hin.
    - intros sigma _ i b Hi. rewrite Has in Hi.
      apply lookup_replicate in Hi as [Hi _]. discriminate. }
  destruct (existsb _ (clauses s0)) eqn:Ee.
  { injection H as <-. intros sigma Hm. apply Hm0 in Hm.
    apply existsb_exists in Ee as (c & Hc & Hempty). destruct c; [|discriminate].
    destruct (Hm [] Hc) as (lit & [] & _). }
  apply bind_Done in H as ([conflict s1] & H1 & H).
  unfold _initial_propagate in H1.
  apply bind_Done in H1 as ([c s2] & H2 & H1).
  apply initial_units_sound in H2 as (Himp2 & Hcl2 & Hlv2 & Hdec2 & _ & Hno);
    [|apply incl_refl | assumption | assumption].
  destruct c as [c|].
  - injection H1 as <- <-. injection H as <-. intros sigma Hm.
    apply (Hno ltac:(discriminate) sigma). auto.
  - pose proof (propagate_extends _ _ _ _ H1) as Hext.
    apply propagate_sound in H1 as [Himp1 Hconf]; [|assumption].
    destruct conflict as [c|]; injection H as <-.
    + intros sigma Hm.
      apply (conflicting_no_model s1 c (proj2 Himp1) Hconf sigma).
      eapply models_perm; [apply Forall2_perm_sym, Hext|]. rewrite Hcl2. auto.
    + intros _. split; [assumption|]. split.
      * rewrite (ext_level _ _ Hext). congruence.
      * intros sigma Hm.
        eapply models_perm; [apply Forall2_perm_sym, Hext|]. rewrite Hcl2. auto.
Qed.

Lemma main_body_sound (clock : nat -> float) (fuel : nat) (time_limit : option float)
    (start_time : float) (cls : list (list Z)) (st : state * nat)
    (x : (state * nat) + outcome) :
  undecided cls (fst st) ->
  main_body clock fuel time_limit start_time st = Done x ->
  match x with
  | inl st' => undecided cls (fst st')
  | inr (v, _, stats) =>
      v = Unsat -> decisions stats = 0%nat -> forall sigma, ~ models sigma cls
  end.
Proof.
  destruct st as [s tick]. unfold main_body. simpl fst. intros Hs H.
  destruct (deadline_passed clock time_limit start_time tick) as [[|] tick'].
  { injection H as <-. discriminate. }
  apply bind_Done in H as ([conflict s1] & H1 & H).
  pose proof (propagate_extends _ _ _ _ H1) as Hext.
  assert (Hs1 : num_decisions s1 = 0%nat ->
                (implied s1 /\ conflicting s1 conflict) /\ decision_level s1 = 0
                /\ forall sigma, models sigma cls -> models sigma (clauses s1)).
  { intros Hd. rewrite (ext_decisions _ _ Hext) in Hd.
    destruct (Hs Hd) as (Himp & Hlv & Hm). split; [|split].
    - eapply propagate_sound; eassumption.
    - rewrite (ext_level _ _ Hext). exact Hlv.
    - intros sigma Hsig.
      eapply models_perm; [apply Forall2_perm_sym, Hext|]. auto. }
  destruct conflict as [c|].
  - cbn zeta in H.
    destruct (decision_level (set_num_conflicts _ s1) =? 0) eqn:El.
    + injection H as <-. intros _ Hd sigma Hm. simpl in Hd.
      destruct (Hs1 Hd) as ([Himp Hconf] & _ & Hm1).
      apply (conflicting_no_model s1 c (proj2 Himp) Hconf sigma). auto.
    + apply bind_Done in H as (s2 & H2 & H). injection H as <-. simpl fst.
      apply handle_conflict_steady in H2. intros Hd.
      rewrite (st_decisions _ _ H2) in Hd. simpl in Hd.
      destruct (Hs1 Hd) as (_ & Hlv & _). simpl in El. rewrite Hlv in El.
      discriminate.
  - destruct (Z.of_nat (length (trail s1)) =? num_vars s1).
    + apply bind_Done in H as (A & _ & H). injection H as <-. discriminate.
    + apply bind_Done in H as (s2 & H2 & H). injection H as <-. simpl fst.
      apply make_decision_cases in H2 as [Hh|(var & s3 & _ & _ & _ & ->)].
      * destruct Hh as (? & ? & ->). intros Hd. simpl in Hd.
        destruct (Hs1 Hd) as ([Himp _] & Hlv & Hm). split; [|split]; assumption.
      * intros Hd. discriminate.
Qed.

(** An UNSAT answer given before any decision is right: the input clauses
    have no model. *)
Lemma solve_unsat_undecided (clock : nat -> float) (fuel : nat)
    (time_limit : option float) (num_vars : Z) (cls : list (list Z))
    (A : option (gmap Z (option bool))) (st : stats) :
  nonzero_lits cls ->
  solve clock fuel time_limit num_vars cls = Done (Unsat, A, st) ->
  decisions st = 0%nat ->
  forall sigma, ~ models sigma cls.
Proof.
  unfold solve, solve_from. intros Hnz H Hd.
  apply bind_Done in H as (x & Hx & H).
  pose proof (startup_sound _ _ _ _ _ Hnz Hx) as Hs.
  destruct x as [[s tick]|out]; [|assumption].
  refine (loop_inv (fun st => undecided cls (fst st))
            (fun out : outcome =>
               fst (fst out) = Unsat -> decisions (snd out) = 0%nat ->
               forall sigma, ~ models sigma cls)
            _ _ fuel (s, tick) (Unsat, A, st) Hs H eq_refl Hd).
  intros st0 y H0 Hy. pose proof (main_body_sound _ _ _ _ _ _ _ H0 Hy) as Hb.
  destruct y as [st'|[[v A'] stats']]; assumption.
Qed.

(** *** Backtracking *)

(** The loop that undoes assignments: the variables of the entries it is
    given become unassigned, the other values stay, and nothing else but
    the variable heap changes. *)
Lemma unassign_entries (l : list entry) :
  forall s s',
  for_each l (fun '(lit, _, _) s =>
                let var := Z.abs lit in
                let* s := set_value var None s in
                _heap_insert var s) s = Done s' ->
  exists a, heap_only (set_assignment a s) s'
    /\ length a = length (assignment s)
    /\ (forall lit lv an, In (lit, lv, an) l -> a !! Z.to_nat (Z.abs lit) = Some None)
    /\ (forall i, (forall lit lv an, In (lit, lv, an) l -> Z.to_nat (Z.abs lit) <> i) ->
                  a !! i = assignment s !! i).
Proof.
  induction l as [|[[lit lv] an] l IH]; intros s s' H; simpl in H.
  - injection H as <-. exists (assignment s). split; [|split; [|split]]; auto.
    + destruct s. now eexists _, _.
    + intros ? ? ? [].
  - apply bind_Done in H as (s1 & H1 & H). apply bind_Done in H1 as (s2 & H2 & H1).
    apply set_value_Done in H2 as [-> Hlt]. apply heap_insert_heap in H1.
    destruct H1 as (o & p & ->). apply IH in H as (a & Hh & Hlen & Hnone & Hkeep).
    simpl in Hh, Hlen, Hkeep. exists a. split; [|split; [|split]].
    + destruct Hh as (o' & p' & ->). destruct s. now eexists _, _.
    + now rewrite Hlen, length_insert.
    + intros lit' lv' an' [[= -> -> ->]|Hin]; [|eauto].
      destruct (decide (Forall (fun e : entry =>
                                  Z.to_nat (Z.abs (fst (fst e)))
                                  <> Z.to_nat (Z.abs lit')) l)) as [Hall|Hex].
      * rewrite Hkeep.
        -- now apply list_lookup_insert_eq.
        -- intros l2 lv2 an2 Hin2. rewrite Forall_forall in Hall.
           apply (Hall (l2, lv2, an2)). now apply list_elem_of_In.
      * apply not_Forall_Exists in Hex; [|intros e; apply _].
        apply Exists_exists in Hex as ([[l2 lv2] an2] & Hin2 & Heq). simpl in Heq.
        apply dec_stable in Heq. rewrite <- Heq. eapply Hnone.
        apply list_elem_of_In. exact Hin2.
    + intros i Hi. rewrite Hkeep by (intros; eapply Hi; right; eassumption).
      apply list_lookup_insert_ne. eapply Hi. now left.
Qed.

(** Backtracking to a lower level [level >= 0] cuts the trail at the
    position recorded for that level, unassigns exactly the variables of
    the entries it drops, and sets the propagation head to the end of the
    trail.  The clause database and the counters are untouched. *)
Lemma backtrack_effect (level : Z) (pos : nat) (s s' : state) :
  0 <= level < decision_level s ->
  trail_lim s !! Z.to_nat level = Some pos ->
  _backtrack level s = Done s' ->
  trail s' = take pos (trail s)
  /\ trail_lim s' = take (Z.to_nat level) (trail_lim s)
  /\ decision_level s' = level
  /\ _propagate_head s' = length (trail s')
  /\ clauses s' = clauses s
  /\ (forall lit lv an, In (lit, lv, an) (drop pos (trail s)) ->
                        assignment s' !! Z.to_nat (Z.abs lit) = Some None)
  /\ (forall i, (forall lit lv an, In (lit, lv, an) (drop pos (trail s)) ->
                                   Z.to_nat (Z.abs lit) <> i) ->
                assignment s' !! i = assignment s !! i).
Proof.
  unfold _backtrack. intros Hlevel Hpos H.
  destruct (decision_level s <=? level) eqn:E1; [apply Z.leb_le in E1; lia|].
  destruct (level <? 0) eqn:E2; [apply Z.ltb_lt in E2; lia|].
  assert (Z.to_nat level < length (trail_lim s))%nat as Hlt
      by (eapply lookup_lt_Some; eassumption).
  destruct (level <? Z.of_nat (length (trail_lim s))) eqn:E3;
    [|apply Z.ltb_ge in E3; lia].
  rewrite Hpos in H. apply bind_Done in H as (s1 & H1 & H). injection H as <-.
  apply unassign_entries in H1 as (a & Hh & _ & Hnone & Hkeep).
  destruct Hh as (o & p & ->). simpl. unfold slice_to. rewrite E2.
  repeat split; try reflexivity.
  - intros lit lv an Hin. eapply Hnone. apply in_rev in Hin. exact Hin.
  - intros i Hi. apply Hkeep. intros lit lv an Hin. apply in_rev in Hin. eauto.
Qed.

(** A decision followed by backtracking to the level it was made on gives
    back the trail, the level marks, the assignment and the level. *)
Lemma decision_undone (s s1 s2 : state) :
  Z.of_nat (length (trail_lim s)) = decision_level s ->
  Forall (fun var => 0 <= var) (var_order s) ->
  _make_decision s = Done s1 ->
  num_decisions s1 <> num_decisions s ->
  _backtrack (decision_level s) s1 = Done s2 ->
  trail s2 = trail s /\ trail_lim s2 = trail_lim s /\ assignment s2 = assignment s
  /\ decision_level s2 = decision_level s /\ clauses s2 = clauses s
  /\ _propagate_head s2 = length (trail s).
Proof.
  intros Hlim Hpos H1 Hd H2.
  apply make_decision_cases in H1
    as [(? & ? & ->)|(var & s3 & Hh & Hmem & Hvar & ->)]; [now destruct Hd|].
  destruct Hh as (o & p & ->).
  assert (0 <= var) as Hv.
  { rewrite Forall_forall in Hpos. apply Hpos. now apply list_elem_of_In. }
  assert (Z.to_nat (decision_level s) = length (trail_lim s)) as Hn by lia.
  apply (backtrack_effect _ (length (trail s))) in H2; simpl.
  - simpl in H2. destruct H2 as (Ht & Hl & Hlv & Hp & Hc & Hnone & Hkeep).
    rewrite take_app_length in Ht. rewrite drop_app_length in Hnone, Hkeep.
    rewrite Hn, take_app_length in Hl.
    repeat split; try assumption; try congruence.
    apply list_eq. intros i.
    destruct (decide (i = Z.to_nat var)) as [->|Hne].
    + specialize (Hnone var _ None (or_introl eq_refl)).
      rewrite Z.abs_eq in Hnone by assumption. congruence.
    + rewrite Hkeep.
      * now apply list_lookup_insert_ne.
      * intros lit lv an [[= <- <- <-]|[]]. rewrite Z.abs_eq by assumption. congruence.
  - lia.
  - rewrite Hn. apply list_lookup_middle. reflexivity.
Qed.

(** *** Reduction of the learned clauses *)

Lemma insert_desc_In (x y : float * nat) (l : list (float * nat)) :
  In y (insert_desc x l) -> y = x \/ In y l.
Proof.
  induction l as [|z l IH]; simpl.
  - intros [<-|[]]. now left.
  - destruct (tuple_lt z x); simpl.
    + intros [<-|H]; auto.
    + intros [<-|H]; [right; now left|]. apply IH in H as [->|H]; auto.
Qed.

Lemma sort_desc_In (y : float * nat) (l : list (float * nat)) :
  In y (sort_desc l) -> In y l.
Proof.
  unfold sort_desc.
  assert (forall acc, In y (fold_left (fun sorted x => insert_desc x sorted) l acc) ->
                      In y acc \/ In y l) as H.
  { induction l as [|x l IH]; intros acc H; simpl in H; [now left|].
    apply IH in H as [H|H]; [|right; now right].
    apply insert_desc_In in H as [->|H]; [right; now left | now left]. }
  intros Hy. apply H in Hy as [[]|Hy]. exact Hy.
Qed.

Lemma In_drop {A : Type} (n : nat) :
  forall (l : list A) (x : A), In x (drop n l) -> In x l.
Proof.
  induction n as [|n IH]; intros [|a l] x H; simpl in H; auto.
  right. now apply IH.
Qed.

Lemma remove_clause_other (idx : nat) (s s' : state) :
  remove_clause idx s = Done s' ->
  trail s' = trail s /\ assignment s' = assignment s
  /\ length (clauses s') = length (clauses s)
  /\ forall i, i <> idx -> clauses s' !! i = clauses s !! i.
Proof.
  unfold remove_clause. intros H.
  destruct (idx <? length (clauses s))%nat; [|now injection H as <-].
  apply bind_Done in H as (clause & _ & H).
  apply bind_Done in H as (s1 & H1 & H). apply bind_Done in H as (s2 & H2 & H).
  apply bind_Done in H as (cls & Hcls & H). injection H as <-.
  apply update_Done in Hcls as [-> _].
  assert (exists w, s1 = set_watch_list w s) as (w1 & ->).
  { destruct clause as [|l0 tl].
    - injection H1 as <-. exists (watch_list s). now destruct s.
    - unfold unwatch in H1. run_inv H1; injection H1 as <-; eauto.
      exists (watch_list s). now destruct s. }
  assert (exists w, s2 = set_watch_list w s) as (w2 & ->).
  { destruct clause as [|l0 [|l1 tl]];
      try (injection H2 as <-; now exists w1).
    unfold unwatch in H2. run_inv H2; injection H2 as <-; eauto. }
  simpl. repeat split.
  - apply length_insert.
  - intros i Hi. now apply list_lookup_insert_ne.
Qed.

(** Reducing the learned clauses leaves the trail and the assignment as
    they are and touches only learned clauses that are the antecedent of no
    trail entry. *)
Lemma reduce_learned_clauses_keeps (s s' : state) :
  _reduce_learned_clauses s = Done s' ->
  trail s' = trail s /\ assignment s' = assignment s
  /\ length (clauses s') = length (clauses s)
  /\ forall idx, clauses s' !! idx <> clauses s !! idx ->
                 In idx (learned_clauses s) /\ is_reason s idx = false.
Proof.
  unfold _reduce_learned_clauses. intros H. cbn zeta in H.
  apply bind_Done in H as (s1 & H1 & H). injection H as <-. simpl.
  match type of H1 with
  | for_each ?l _ _ = _ => remember l as to_remove eqn:Hrem
  end.
  assert (Hin : forall idx, In idx to_remove ->
                            In idx (learned_clauses s) /\ is_reason s idx = false).
  { intros idx Hidx. subst to_remove.
    apply (proj2 (list_elem_of_In _ _)) in Hidx.
    apply (proj1 (elem_of_remove_dups _ _)) in Hidx.
    apply (proj1 (list_elem_of_In _ _)) in Hidx.
    apply in_flat_map in Hidx as ([a j] & Hj & Hidx).
    destruct (is_reason s j) eqn:Er; [destruct Hidx|].
    destruct Hidx as [<-|[]]. split; [|assumption].
    apply In_drop, sort_desc_In in Hj.
    apply in_flat_map in Hj as (k & Hk & Hj).
    destruct (_ && _); [|destruct Hj].
    destruct (clause_activity s !! _); [|destruct Hj].
    destruct Hj as [[= _ <-]|[]]. exact Hk. }
  clear Hrem.
  assert (Hgen : trail s1 = trail s /\ assignment s1 = assignment s
                 /\ length (clauses s1) = length (clauses s)
                 /\ forall idx, ~ In idx to_remove ->
                                clauses s1 !! idx = clauses s !! idx).
  { clear Hin. revert s H1. induction to_remove as [|j l IH]; intros s H1; simpl in H1.
    - now injection H1 as <-.
    - apply bind_Done in H1 as (s2 & H2 & H1).
      apply remove_clause_other in H2 as (Ht & Ha & Hl & Hc).
      apply IH in H1 as (Ht' & Ha' & Hl' & Hc').
      repeat split; try congruence.
      intros idx Hidx. rewrite Hc', Hc; auto.
      + intros ->. apply Hidx. now left.
      + intros Hn. apply Hidx. now right. }
  destruct Hgen as (Ht & Ha & Hl & Hc). repeat split; try assumption.
  - apply Hin. destruct (in_dec Nat.eq_dec idx to_remove) as [Hd|Hd]; [assumption|].
    now apply Hc in Hd.
  - apply Hin. destruct (in_dec Nat.eq_dec idx to_remove) as [Hd|Hd]; [assumption|].
    now apply Hc in Hd.
Qed.

(** *** The dictionary of a SAT answer *)

Lemma range1_In (n v : Z) : In v (range1 n) <-> 1 <= v <= n.
Proof.
  unfold range1. rewrite in_map_iff. split.
  - intros (k & <- & Hk). apply in_seq in Hk. lia.
  - intros Hv. exists (Z.to_nat v). split; [lia|]. apply in_seq. lia.
Qed.

Lemma final_assignment_keys (s : state) (A : gmap Z (option bool)) :
  final_assignment s = Done A ->
  forall v, (is_Some (A !! v) <-> 1 <= v <= num_vars s)
            /\ forall x, A !! v = Some x -> assignment s !! Z.to_nat v = Some x.
Proof.
  unfold final_assignment. intros H v. rewrite <- range1_In.
  assert (Hgen : forall l (A0 A1 : gmap Z (option bool)),
             for_each l (fun var A => let* value := index (assignment s) (Z.to_nat var) in
                                      Done (<[var := value]> A)) A0 = Done A1 ->
             (is_Some (A1 !! v) <-> In v l \/ is_Some (A0 !! v))
             /\ forall x, A1 !! v = Some x ->
                          assignment s !! Z.to_nat v = Some x \/ A0 !! v = Some x).
  { induction l as [|w l IH]; intros A0 A1 H1; simpl in H1.
    - injection H1 as <-. split; [|auto].
      split; [auto | intros [[]|?]; assumption].
    - apply bind_Done in H1 as (A2 & H2 & H1).
      apply bind_Done in H2 as (value & Hv & H2). injection H2 as <-.
      apply index_Some in Hv. apply IH in H1 as [Hk Hx].
      destruct (decide (w = v)) as [->|Hne].
      + rewrite lookup_insert_eq in Hk, Hx. split.
        * rewrite Hk. split; [intros _; left; now left|]. intros _. right. eauto.
        * intros x Hxv. apply Hx in Hxv as [Hxv|[= <-]]; auto.
      + rewrite lookup_insert_ne in Hk, Hx by assumption. split.
        * rewrite Hk. simpl. intuition congruence.
        * assumption. }
  destruct (Hgen _ _ _ H) as [Hk Hx]. rewrite lookup_empty in Hk, Hx. split.
  - rewrite Hk. split; [intros [Hin|[? [=]]]; assumption | auto].
  - intros x Hxv. apply Hx in Hxv as [Hxv|[=]]. exact Hxv.
Qed.

Lemma startup_vars (clock : nat -> float) (fuel : nat) (s : state) (s' : state)
    (tick : nat) :
  startup clock fuel s = Done (inl (s', tick)) -> num_vars s' = num_vars s.
Proof.
  unfold startup. intros H. cbn zeta in H.
  apply bind_Done in H as (s0 & H0 & H).
  apply init_data_structures_state in H0 as (_ & _ & _ & _ & _ & _ & Hv & _).
  destruct (existsb _ (clauses s0)); [discriminate|].
  apply bind_Done in H as ([conflict s1] & H1 & H).
  destruct conflict; [discriminate|]. injection H as <- <-.
  unfold _initial_propagate in H1. apply bind_Done in H1 as ([c s2] & H2 & H1).
  assert (num_vars s2 = num_vars s0) as Hv2.
  { clear -H2. revert H2. generalize 0%nat. generalize (clauses s0) at 1.
    intros cls. revert s0. induction cls as [|clause cls IH]; intros s0 idx H;
      simpl in H.
    - now injection H as _ <-.
    - destruct clause as [|lit [|l1 tl]]; try (eapply IH; eassumption).
      apply bind_Done in H as (a & _ & H). destruct a as [b|].
      + destruct (Bool.eqb b (lit_sign lit)); [eapply IH; eassumption|].
        now injection H as _ <-.
      + apply bind_Done in H as (s1 & H1 & H). apply set_value_Done in H1 as [-> _].
        apply IH in H. exact H. }
  destruct c; [injection H1 as _ <-; congruence|].
  apply propagate_extends in H1. rewrite (ext_vars _ _ H1). congruence.
Qed.

Lemma main_body_vars (clock : nat -> float) (fuel : nat) (time_limit : option float)
    (start_time : float) (st : state * nat) (x : (state * nat) + outcome) :
  main_body clock fuel time_limit start_time st = Done x ->
  match x with
  | inl st' => num_vars (fst st') = num_vars (fst st)
  | inr (v, A, _) =>
      match v with
      | Sat => exists D, A = Some D
                         /\ forall var, is_Some (D !! var) <-> 1 <= var <= num_vars (fst st)
      | _ => A = None
      end
  end.
Proof.
  destruct st as [s tick]. unfold main_body. simpl fst. intros H.
  destruct (deadline_passed clock time_limit start_time tick) as [[|] tick'].
  { now injection H as <-. }
  apply bind_Done in H as ([conflict s1] & H1 & H).
  apply propagate_extends in H1. pose proof (ext_vars _ _ H1) as Hv.
  destruct conflict as [c|].
  - cbn zeta in H. destruct (decision_level _ =? 0).
    + now injection H as <-.
    + apply bind_Done in H as (s2 & H2 & H). injection H as <-. simpl fst.
      apply handle_conflict_steady in H2. rewrite (st_vars _ _ H2). exact Hv.
  - destruct (Z.of_nat (length (trail s1)) =? num_vars s1).
    + apply bind_Done in H as (A & HA & H). injection H as <-.
      exists A. split; [reflexivity|]. intros var. rewrite <- Hv.
      apply (final_assignment_keys _ _ HA).
    + apply bind_Done in H as (s2 & H2 & H). injection H as <-. simpl fst.
      apply make_decision_cases in H2 as [Hh|(var & s3 & Hh & _ & _ & ->)];
        destruct Hh as (? & ? & ->); exact Hv.
Qed.

(** A SAT answer comes with a dictionary whose keys are exactly the
    variables [1 .. num_vars]. *)
Lemma solve_sat_keys (clock : nat -> float) (fuel : nat) (time_limit : option float)
    (num_vars : Z) (cls : list (list Z))
    (A : option (gmap Z (option bool))) (st : stats) :
  solve clock fuel time_limit num_vars cls = Done (Sat, A, st) ->
  exists D, A = Some D /\ forall var, is_Some (D !! var) <-> 1 <= var <= num_vars.
Proof.
  unfold solve, solve_from. intros H.
  apply bind_Done in H as (x & Hx & H).
  destruct x as [[s tick]|out].
  - apply startup_vars in Hx. simpl in Hx.
    refine (loop_inv (fun st => CDCL.num_vars (fst st) = num_vars)
              (fun out : outcome =>
                 fst (fst out) = Sat ->
                 exists D, snd (fst out) = Some D
                           /\ forall var, is_Some (D !! var) <-> 1 <= var <= num_vars)
              _ _ fuel (s, tick) (Sat, A, st) Hx H eq_refl).
    intros st0 y H0 Hy. apply main_body_vars in Hy.
    destruct y as [st'|[[v A'] stats']]; [congruence|].
    simpl. intros ->. rewrite <- H0. exact Hy.
  - injection H as ->. unfold startup in Hx. cbn zeta in Hx.
    apply bind_Done in Hx as (s0 & _ & Hx).
    destruct (existsb _ (clauses s0)); [discriminate|].
    apply bind_Done in Hx as ([[c|] s1] & _ & Hx); discriminate.
Qed.

(** *** The watch lists after the set-up *)

Lemma watching_append (s : state) (lit lit' : Z) (idx : nat) :
  watching (watch_append lit idx s) lit'
  = if decide (lit' = lit) then watching s lit ++ [idx] else watching s lit'.
Proof.
  unfold watching, watch_append. simpl. destruct (decide (lit' = lit)) as [->|Hne].
  - now rewrite lookup_insert_eq.
  - now rewrite lookup_insert_ne by congruence.
Qed.

Lemma add_clause_watched (c : list Z) (s : state) :
  watched s -> watched (add_clause c s).
Proof.
  intros Hw lit i.
  assert (Hold : In i (watching s lit) -> (i < length (clauses s))%nat).
  { intros Hi. apply Hw in Hi as (c' & Hc' & _). eapply lookup_lt_Some. exact Hc'. }
  assert (Hnew : (exists c', (clauses s ++ [c]) !! i = Some c'
                             /\ (c' !! 0%nat = Some lit \/ c' !! 1%nat = Some lit))
                 <-> In i (watching s lit)
                     \/ i = length (clauses s)
                        /\ (c !! 0%nat = Some lit \/ c !! 1%nat = Some lit)).
  { rewrite (Hw lit i). split.
    - intros (c' & Hc' & Hp). apply lookup_app_Some in Hc' as [Hc'|[Hle Hc']].
      + left. eauto.
      + right. destruct (i - length (clauses s))%nat eqn:Ed; [|discriminate].
        injection Hc' as <-. split; [lia | assumption].
    - intros [(c' & Hc' & Hp)|[-> Hp]].
      + exists c'. split; [|assumption]. apply lookup_app_l_Some. exact Hc'.
      + exists c. split; [|assumption]. apply list_lookup_middle. reflexivity. }
  unfold add_clause. destruct c as [|l0 [|l1 tl]]; cbn zeta.
  - simpl. rewrite Hnew. unfold watching. simpl. fold (watching s lit).
    split; [auto|]. intros [H|[_ [[=]|[=]]]]. exact H.
  - rewrite watching_append. simpl clauses. rewrite Hnew.
    unfold watching at 1 2. simpl watch_list. fold (watching s l0) (watching s lit).
    destruct (decide (lit = l0)) as [->|Hne].
    + rewrite in_app_iff. simpl. split.
      * intros [H|[<-|[]]]; [now left|]. right. split; [reflexivity | now left].
      * intros [H|[-> _]]; [now left|]. right. now left.
    + split; [auto|]. intros [H|[_ [[= ->]|[=]]]]; [exact H | now destruct Hne].
  - rewrite watching_append. simpl clauses. rewrite Hnew.
    destruct (decide (lit = l1)) as [->|Hne1].
    + rewrite in_app_iff, watching_append. simpl.
      unfold watching at 1 2. simpl watch_list. fold (watching s l0) (watching s l1).
      destruct (decide (l1 = l0)) as [->|Hne0].
      * rewrite in_app_iff. simpl. split.
        -- intros [[H|[<-|[]]]|[<-|[]]]; auto.
        -- intros [H|[-> _]]; auto.
      * split.
        -- intros [H|[<-|[]]]; auto.
        -- intros [H|[-> _]]; auto.
    + rewrite watching_append. simpl.
      unfold watching at 1 2. simpl watch_list. fold (watching s l0) (watching s lit).
      destruct (decide (lit = l0)) as [->|Hne0].
      * rewrite in_app_iff. simpl. split.
        -- intros [H|[<-|[]]]; auto.
        -- intros [H|[-> _]]; auto.
      * split; [auto|]. intros [H|[_ [[= ->]|[= ->]]]]; [exact H | |];
          now (destruct Hne0 || destruct Hne1).
Qed.

Lemma add_clauses_watched (l : list (list Z)) :
  forall s, watched s ->
            watched (fold_left (fun s clause_lits => add_clause clause_lits s) l s).
Proof.
  induction l as [|c l IH]; intros s Hs; simpl; [assumption|].
  apply IH. now apply add_clause_watched.
Qed.

(** Filling the heap at the set-up: all activities are equal, so every
    variable stays where it is appended. *)
Lemma heap_fill (L : nat) (m : nat) :
  forall (k : nat) (s : state),
  var_order s = map Z.of_nat (seq 1 k) ->
  (forall v, is_Some (var_pos s !! v) -> 1 <= v <= Z.of_nat k) ->
  activity s = replicate L 0%float ->
  (m <> 0 -> k + m < L)%nat ->
  exists s', for_each (map Z.of_nat (seq (S k) m)) _heap_insert s = Done s'
             /\ heap_only s s'
             /\ var_order s' = map Z.of_nat (seq 1 (k + m)).
Proof.
  induction m as [|m IH]; intros k s Ho Hp Ha Hlen; simpl.
  - exists s. rewrite Nat.add_0_r. auto using heap_only_refl.
  - specialize (Hlen ltac:(discriminate)).
    set (var := Z.of_nat (S k)).
    remember (set_var_order (var_order s ++ [var])
                (set_var_pos (<[var := length (var_order s)]> (var_pos s)) s))
      as s1 eqn:Es1.
    assert (Ho1 : var_order s1 = map Z.of_nat (seq 1 k) ++ [var])
      by (subst s1; simpl; now rewrite Ho).
    assert (Hp1 : var_pos s1 = <[var := k]> (var_pos s)).
    { subst s1. simpl. now rewrite Ho, length_map, length_seq. }
    assert (Ha1 : activity s1 = replicate L 0%float) by (subst s1; exact Ha).
    assert (Hh1 : heap_only s s1) by (subst s1; destruct s; now eexists _, _).
    assert (Hins : _heap_insert var s = Done s1).
    { unfold _heap_insert. destruct (var_pos s !! var) eqn:Ev.
      - assert (1 <= var <= Z.of_nat k) by (apply Hp; eauto). lia.
      - transitivity (_heap_decrease var s1); [subst s1; reflexivity|].
        clear Es1. unfold _heap_decrease.
        rewrite Hp1, lookup_insert_eq.
        destruct k as [|k']; [reflexivity|]. cbn [heap_decrease_loop].
        set (parent := ((S k' - 1) / 2)%nat).
        assert (parent < S k')%nat as Hparent.
        { unfold parent. apply Nat.Div0.div_lt_upper_bound. lia. }
        rewrite Ho1, Ha1.
        assert (Hvp : (map Z.of_nat (seq 1 (S k')) ++ [var]) !! parent
                      = Some (Z.of_nat (S parent))).
        { rewrite lookup_app_l by (rewrite length_map, length_seq; lia).
          rewrite list_lookup_fmap, lookup_seq_lt by lia. reflexivity. }
        unfold index at 1. rewrite Hvp. cbn [bind].
        unfold index at 1. rewrite lookup_replicate_2 by lia. cbn [bind].
        unfold index at 1. rewrite lookup_replicate_2 by (unfold var; lia).
        cbn [bind]. reflexivity. }
    destruct (IH (S k) s1) as (s' & Hs' & Hh & Ho').
    + rewrite Ho1. replace (S k) with (k + 1)%nat by lia.
      rewrite seq_app, map_app. reflexivity.
    + intros v Hv. rewrite Hp1 in Hv.
      destruct (decide (v = var)) as [->|Hne]; [unfold var; lia|].
      rewrite lookup_insert_ne in Hv by congruence. apply Hp in Hv. lia.
    + exact Ha1.
    + lia.
    + exists s'. rewrite Hins. cbn [bind]. split; [exact Hs'|]. split.
      * eapply heap_only_trans; [exact Hh1 | exact Hh].
      * rewrite Ho'. f_equal. f_equal. lia.
Qed.

(** The set-up of a new solver never fails.  It leaves the nonempty input
    clauses as the clause database, watched at their first two literals,
    an empty trail, every variable unassigned and the variables
    [1 .. num_vars] in the heap in increasing order. *)
Lemma init_data_structures_total (num_vars : Z) (cls : list (list Z)) :
  exists s,
    _init_data_structures (__init__ num_vars cls) = Done s
    /\ clauses s = List.filter (fun c => match c with [] => false | _ => true end) cls
    /\ watched s
    /\ var_order s = range1 num_vars
    /\ trail s = []
    /\ assignment s = replicate (Z.to_nat (num_vars + 1)) None
    /\ decision_level s = 0.
Proof.
  unfold _init_data_structures. cbn zeta.
  set (s0 := fold_left _ _ _).
  assert (Hw : watched s0).
  { apply add_clauses_watched. intros lit i. unfold watching. simpl.
    rewrite lookup_empty. simpl. split; [intros [] | intros (c & [=] & _)]. }
  destruct (add_clauses_state (original_clauses (set_clauses [] (__init__ num_vars cls)))
              (set_clauses [] (__init__ num_vars cls))) as (w & Hs0).
  fold s0 in Hs0. simpl in Hs0.
  destruct (heap_fill (Z.to_nat (num_vars + 1)) (Z.to_nat num_vars) 0
              (set_var_pos ∅ (set_var_order [] s0))) as (s1 & H1 & Hh & Ho).
  - reflexivity.
  - intros v [x Hx]. simpl in Hx. now rewrite lookup_empty in Hx.
  - rewrite Hs0. reflexivity.
  - lia.
  - assert (num_vars0 : CDCL.num_vars (set_var_pos ∅ (set_var_order [] s0)) = num_vars)
      by (rewrite Hs0; reflexivity).
    rewrite num_vars0. unfold range1. rewrite H1. cbn [bind].
    eexists. split; [reflexivity|]. destruct Hh as (o & p & ->). simpl.
    split; [now rewrite Hs0|]. split; [exact Hw|]. split; [exact Ho|].
    split; [reflexivity|]. split; [|reflexivity]. now rewrite Hs0.
Qed.

(** *** Contradicting unit clauses *)

(** The scan of the unit clauses returns when their variables are in range;
    without a conflict, every unit literal is true afterwards. *)
Lemma initial_units_total (cls : list (list Z)) :
  forall (idx : nat) (s : state),
  (forall lit, In [lit] cls -> (Z.to_nat (Z.abs lit) < length (assignment s))%nat) ->
  exists conflict s',
    initial_units idx cls s = Done (conflict, s')
    /\ length (assignment s') = length (assignment s)
    /\ (forall i b, assignment s !! i = Some (Some b) ->
                    assignment s' !! i = Some (Some b))
    /\ (conflict = None ->
        forall lit, In [lit] cls ->
                    assignment s' !! Z.to_nat (Z.abs lit) = Some (Some (lit_sign lit)))
    /\ num_decisions s' = num_decisions s /\ num_conflicts s' = num_conflicts s.
Proof.
  induction cls as [|clause cls IH]; intros idx s Hr; simpl.
  - exists None, s. repeat split; auto. intros _ lit [].
  - assert (Hr' : forall lit, In [lit] cls ->
                              (Z.to_nat (Z.abs lit) < length (assignment s))%nat)
      by (intros lit Hl; apply Hr; now right).
    assert (Hskip : (forall lit, clause <> [lit]) ->
                    exists conflict s',
                      initial_units (S idx) cls s = Done (conflict, s')
                      /\ length (assignment s') = length (assignment s)
                      /\ (forall i b, assignment s !! i = Some (Some b) ->
                                      assignment s' !! i = Some (Some b))
                      /\ (conflict = None ->
                          forall lit, In [lit] (clause :: cls) ->
                            assignment s' !! Z.to_nat (Z.abs lit)
                            = Some (Some (lit_sign lit)))
                      /\ num_decisions s' = num_decisions s
                      /\ num_conflicts s' = num_conflicts s).
    { intros Hne. destruct (IH (S idx) s Hr') as (c & s' & H & Hl & Hk & Hu & Hdc).
      exists c, s'. repeat split; auto; try apply Hdc. intros Hc lit [->|Hin]; [|auto].
      now destruct (Hne lit). }
    destruct clause as [|lit [|l1 tl]]; try (apply Hskip; discriminate).
    clear Hskip.
    assert (Hlt : (Z.to_nat (Z.abs lit) < length (assignment s))%nat)
      by (apply Hr; now left).
    destruct (lookup_lt_is_Some_2 _ _ Hlt) as [a Ha].
    unfold index at 1. rewrite Ha. cbn [bind]. destruct a as [b|].
    + destruct (Bool.eqb b (lit_sign lit)) eqn:Eb.
      * destruct (IH (S idx) s Hr') as (c & s' & H & Hl & Hk & Hu & Hdc).
        exists c, s'. repeat split; auto; try apply Hdc.
        intros Hc l [[= <-]|Hin]; [|auto].
        apply Bool.eqb_prop in Eb. subst b. auto.
      * exists (Some idx), s. repeat split; auto. discriminate.
    + unfold set_value, update.
      destruct (Nat.ltb_spec (Z.to_nat (Z.abs lit)) (length (assignment s)));
        [|lia].
      cbn [bind].
      match goal with
      | |- context [initial_units _ _ ?s1] =>
          destruct (IH (S idx) s1) as (c & s' & H' & Hl & Hk & Hu & Hdc)
      end.
      { simpl. intros l Hin. rewrite length_insert. auto. }
      simpl in Hl, Hk, Hdc. rewrite length_insert in Hl.
      exists c, s'. split; [exact H'|]. split; [exact Hl|].
      split; [|split; [|exact Hdc]].
      * intros i b Hi. apply Hk. rewrite list_lookup_insert_ne; [assumption|].
        intros <-. congruence.
      * intros Hc l [[= <-]|Hin]; [|auto].
        apply Hk. now apply list_lookup_insert_eq.
Qed.

(** Two unit clauses [[l]] and [[-l]] make [solve] answer UNSAT before the
    main loop, when the variables of the unit clauses are within
    [1 .. num_vars]. *)
Lemma solve_contradicting_units (clock : nat -> float) (fuel : nat)
    (time_limit : option float) (num_vars : Z) (cls : list (list Z)) (l : Z) :
  l <> 0 -> In [l] cls -> In [- l] cls ->
  (forall lit, In [lit] cls -> Z.abs lit <= num_vars) ->
  exists st, solve clock fuel time_limit num_vars cls = Done (Unsat, None, st)
             /\ decisions st = 0%nat /\ conflicts st = 0%nat.
Proof.
  intros Hl H1 H2 Hr. unfold solve, solve_from, startup. cbn zeta.
  destruct (init_data_structures_total num_vars cls)
    as (s & Hinit & Hcl & _ & _ & _ & Ha & _).
  rewrite Hinit. cbn [bind].
  apply init_data_structures_state in Hinit
    as (_ & _ & _ & _ & _ & Hdec & _ & _ & Hcf).
  destruct (existsb _ (clauses s)) eqn:Ee.
  { exfalso. apply existsb_exists in Ee as (c & Hc & He). rewrite Hcl in Hc.
    apply filter_In in Hc as [_ Hc]. destruct c; discriminate. }
  unfold _initial_propagate.
  destruct (initial_units_total (clauses s) 0 s)
    as (c & s' & -> & _ & _ & Hu & Hdec' & Hcf').
  { intros lit Hin. rewrite Hcl in Hin. apply filter_In in Hin as [Hin _].
    apply Hr in Hin. rewrite Ha, length_replicate. lia. }
  cbn [bind]. destruct c as [c|].
  - cbn [bind]. eexists. split; [reflexivity|]. simpl. split; congruence.
  - exfalso. specialize (Hu eq_refl).
    assert (In [l] (clauses s)) as Hin1 by (rewrite Hcl; apply filter_In; now split).
    assert (In [- l] (clauses s)) as Hin2 by (rewrite Hcl; apply filter_In; now split).
    apply Hu in Hin1. apply Hu in Hin2. rewrite Z.abs_opp, Hin1 in Hin2.
    unfold lit_sign in Hin2. injection Hin2 as Hs.
    destruct (0 <? l) eqn:E1, (0 <? - l) eqn:E2; try discriminate;
      rewrite ?Z.ltb_lt, ?Z.ltb_ge in E1, E2; lia.
Qed.

End CDCLMore.
(** ** SAT answers of the CDCL solver that meet no conflict *)

Module CDCLSat.
Import CDCL CDCLMore.

Lemma find_new_watch_found (s : state) (lits : list Z) :
  forall i j, find_new_watch s i lits = Done (Some j) ->
  (i <= j)%nat
  /\ exists l v, lits !! (j - i)%nat = Some l /\ _lit_value s l = Done v
                 /\ v <> Some false.
Proof.
  induction lits as [|l lits IH]; intros i j H; [discriminate|].
  simpl in H. destruct (_lit_value s l) as [v| |] eqn:E; simpl in H; try discriminate.
  assert (Hhere : v <> Some false -> Done (Some i) = Done (Some j) ->
                  (i <= j)%nat
                  /\ exists l0 v0, (l :: lits) !! (j - i)%nat = Some l0
                                   /\ _lit_value s l0 = Done v0 /\ v0 <> Some false).
  { intros Hv [= <-]. split; [lia|]. exists l, v. rewrite Nat.sub_diag. auto. }
  destruct v as [[|]|]; try (apply Hhere; [discriminate | assumption]).
  apply IH in H as (Hle & l0 & v0 & Hl & Hv & Hne). split; [lia|].
  exists l0, v0. replace (j - i)%nat with (S (j - S i)) by lia. auto.
Qed.

(** One visit of a clause goes one of six ways. *)
Lemma visit_clause_cases (neg : Z) (idx : nat) (s s' : state) (r : option nat) :
  visit_clause neg idx s = Done (r, s') ->
  exists c, clauses s !! idx = Some c /\ visited neg idx s c r s'.
Proof.
  unfold visit_clause. intros H.
  apply bind_Done in H as (c & Hc & H). apply index_Some in Hc.
  exists c. split; [assumption|].
  apply bind_Done in H as (c0 & Hc0 & H). apply index_Some in Hc0.
  apply bind_Done in H as (watched & Hw & H).
  assert (Hplaces : match watched with
                    | Some (w, o) => watches_at c neg w /\ o = (1 - w)%nat
                    | None => c !! 0%nat <> Some neg /\ c !! 1%nat <> Some neg
                    end).
  { destruct (c0 =? neg) eqn:E0.
    - injection Hw as <-. apply Z.eqb_eq in E0. subst. unfold watches_at. auto.
    - apply Z.eqb_neq in E0.
      apply bind_Done in Hw as (c1 & Hc1 & Hw). apply index_Some in Hc1.
      destruct (c1 =? neg) eqn:E1; injection Hw as <-.
      + apply Z.eqb_eq in E1. subst. unfold watches_at. split; [|reflexivity].
        split; [assumption|]. right. split; [reflexivity | congruence].
      + apply Z.eqb_neq in E1. split; congruence. }
  clear Hw. destruct watched as [[w o]|].
  2:{ injection H as <- <-. now apply v_skip. }
  destruct Hplaces as [Hwa ->]. cbn zeta in H.
  apply bind_Done in H as (sat & Hsat & H). destruct sat.
  { injection H as <- <-. apply other_has_value_true in Hsat as (lo & Hlo & Hnz & Hv).
    now apply (v_satisfied _ _ _ _ w lo). }
  apply bind_Done in H as (nw & Hnw & H). destruct nw as [nw|].
  - apply find_new_watch_found in Hnw as (Hle & lnew & v & Hl & Hv & Hne).
    rewrite lookup_drop in Hl. replace (2 + (nw - 2))%nat with nw in Hl by lia.
    apply bind_Done in H as (lw & Hlw & H). apply index_Some in Hlw.
    apply bind_Done in H as (ln & Hln & H). apply index_Some in Hln.
    apply bind_Done in H as (c1 & Hc1 & H). apply update_Done in Hc1 as [-> _].
    apply bind_Done in H as (c2 & Hc2 & H). apply update_Done in Hc2 as [-> _].
    apply bind_Done in H as (cls & Hcls & H). apply update_Done in Hcls as [-> _].
    cbn zeta in H. apply bind_Done in H as (ws & Hws & H).
    apply bind_Done in H as (lw' & Hlw' & H). apply index_Some in Hlw'.
    injection H as <- <-.
    destruct Hwa as [Hcw Hw01]. assert (lw = neg) as -> by congruence.
    assert (ln = lnew) as -> by congruence.
    assert (lw' = lnew) as ->.
    { rewrite list_lookup_insert_ne in Hlw' by (destruct Hw01 as [->|[-> _]]; lia).
      rewrite list_lookup_insert_eq in Hlw'; [congruence|].
      eapply lookup_lt_Some. exact Hcw. }
    apply (v_move _ _ _ _ w nw lnew v ws); auto. now split.
  - apply bind_Done in H as (cf & Hcf & H). destruct cf.
    + injection H as <- <-. now apply (v_conflict _ _ _ _ w).
    + apply find_new_watch_None in Hnw.
      destruct (c !! (1 - w)%nat) as [z|] eqn:Ho.
      2:{ injection H as <- <-. apply (v_nothing _ _ _ _ w); auto. }
      destruct (z =? 0) eqn:Ez.
      { injection H as <- <-. apply Z.eqb_eq in Ez. subst.
        apply (v_nothing _ _ _ _ w); auto. }
      apply Z.eqb_neq in Ez.
      pose proof (other_unassigned s z Ez Hsat Hcf) as Hun.
      apply bind_Done in H as (s1 & Hs1 & H). apply set_value_Done in Hs1 as [-> Hlt].
      injection H as <- <-. now apply (v_imply _ _ _ _ w z).
Qed.

(** *** Values only grow *)

Lemma other_true_mono (s s' : state) (c : list Z) (p : nat) :
  grows s s' -> other_true s c p = true -> other_true s' c p = true.
Proof.
  unfold other_true. intros Hg H. destruct (c !! (1 - p)%nat) as [l|]; [|discriminate].
  destruct (_lit_value s l) as [[[|]|]| |] eqn:E; try discriminate.
  now rewrite (lit_value_kept s s' l true Hg E).
Qed.

Lemma unsettled_at_mono (s s' : state) (c : list Z) (l : Z) (p : nat) :
  grows s s' -> (unsettled_at s' c l p <= unsettled_at s c l p)%nat.
Proof.
  unfold unsettled_at. intros Hg. destruct (c !! p) as [x|]; [|lia].
  destruct (x =? l); simpl; [|lia].
  destruct (other_true s c p) eqn:E.
  - now rewrite (other_true_mono s s' c p Hg E).
  - simpl. destruct (other_true s' c p); simpl; lia.
Qed.

Lemma unsettled_mono (s s' : state) (c : list Z) (l : Z) :
  grows s s' -> (unsettled s' c l <= unsettled s c l)%nat.
Proof.
  intros Hg. unfold unsettled.
  pose proof (unsettled_at_mono s s' c l 0 Hg).
  pose proof (unsettled_at_mono s s' c l 1 Hg). lia.
Qed.

Lemma nonzero_perm (cls cls' : list (list Z)) :
  Forall2 Permutation cls cls' -> nonzero_lits cls -> nonzero_lits cls'.
Proof.
  unfold nonzero_lits. induction 1 as [|c c' l l' Hp HF IH]; intros Hnz; [constructor|].
  inversion Hnz; subst. constructor; [|auto].
  eapply Permutation_Forall; eassumption.
Qed.

Lemma units_true_extends (s s' : state) :
  extends s s' -> units_true s -> units_true s'.
Proof.
  intros Hext Hu i l Hi.
  destruct (Forall2_lookup_r _ _ _ _ _ (ext_clauses _ _ Hext) Hi) as (c & Hc & Hp).
  apply Permutation_sym, Permutation_length_1_inv in Hp. subst c.
  eapply lit_value_kept; [apply Hext | eauto].
Qed.

(** A false literal and a literal that is not false are different. *)
Lemma lit_value_differ (s : state) (l l' : Z) (v : option bool) :
  _lit_value s l = Done (Some false) -> _lit_value s l' = Done v ->
  v <> Some false -> l' <> l.
Proof. intros H1 H2 Hv ->. congruence. Qed.

(** *** One visit settles one watched place *)

Lemma other_true_same (s s' : state) (c : list Z) (p : nat) :
  assignment s' = assignment s -> other_true s' c p = other_true s c p.
Proof.
  intros Ha. unfold other_true. destruct (c !! (1 - p)%nat); [|reflexivity].
  now rewrite (lit_value_same s s' _ Ha).
Qed.

Lemma unsettled_same (s s' : state) (c : list Z) (l : Z) :
  assignment s' = assignment s -> unsettled s' c l = unsettled s c l.
Proof.
  intros Ha. unfold unsettled, unsettled_at. now rewrite !(other_true_same s s' c _ Ha).
Qed.

Lemma unsettled_at_le (s : state) (c : list Z) (l : Z) (p : nat) :
  (unsettled_at s c l p
   <= match c !! p with Some x => if (x =? l)%Z then 1 else 0 | None => 0 end)%nat.
Proof.
  unfold unsettled_at. destruct (c !! p) as [x|]; [|lia].
  destruct (x =? l); simpl; [|lia]. destruct (other_true s c p); simpl; lia.
Qed.

Lemma unsettled_places (s : state) (c : list Z) (l : Z) (w : nat) :
  w = 0%nat \/ w = 1%nat ->
  unsettled s c l = (unsettled_at s c l w + unsettled_at s c l (1 - w))%nat.
Proof. unfold unsettled. intros [-> | ->]; simpl; lia. Qed.

(** The count for the literal being propagated, at a clause that watches
    it. *)
Lemma unsettled_watched (s : state) (c : list Z) (neg : Z) (w : nat) :
  watches_at c neg w ->
  _lit_value s neg = Done (Some false) ->
  (w = 0%nat \/ w = 1%nat)
  /\ unsettled_at s c neg w = (if other_true s c w then 0 else 1)%nat
  /\ unsettled_at s c neg (1 - w)
     = match c !! (1 - w)%nat with
       | Some lo => if lo =? neg then 1%nat else 0%nat
       | None => 0%nat
       end.
Proof.
  intros [Hw Hw01] Hneg.
  assert (Hp : w = 0%nat \/ w = 1%nat) by (destruct Hw01 as [->|[-> _]]; auto).
  split; [assumption|]. split.
  - unfold unsettled_at. rewrite Hw, Z.eqb_refl. simpl.
    now destruct (other_true s c w).
  - unfold unsettled_at. destruct (c !! (1 - w)%nat) as [lo|] eqn:E; [|reflexivity].
    destruct (lo =? neg); simpl; [|reflexivity].
    unfold other_true. replace (1 - (1 - w))%nat with w by (destruct Hp; subst; reflexivity).
    now rewrite Hw, Hneg.
Qed.

Lemma visited_settles (neg : Z) (idx : nat) (s s' : state) (c : list Z) :
  visited neg idx s c None s' ->
  clauses s !! idx = Some c ->
  _lit_value s neg = Done (Some false) ->
  units_true s -> nonzero_lits (clauses s) ->
  forall j cj, clauses s !! j = Some cj ->
  exists cj', clauses s' !! j = Some cj'
              /\ (unsettled s' cj' neg
                  + (if decide (j = idx) then Nat.min 1 (unsettled s cj neg) else 0)
                  <= unsettled s cj neg)%nat.
Proof.
  intros Hv Hc Hneg Hunits Hnz j cj Hj.
  inversion Hv as [H0 H1|w lo Hw Hlo Hlnz Hlv|w nw lnew v ws Hw Hnw Hlnew Hval Hvne Hws
                  | |w z Hw Hfal Hz Hznz Hun|w Hw Hnone]; subst.
  - (* not watching *)
    exists cj. split; [assumption|]. destruct (decide (j = idx)) as [->|]; [|lia].
    assert (cj = c) as -> by congruence.
    unfold unsettled, unsettled_at.
    destruct (c !! 0%nat) as [a|] eqn:E0, (c !! 1%nat) as [b|] eqn:E1; simpl;
      repeat match goal with
             | |- context [?x =? neg] =>
                 destruct (Z.eqb_spec x neg); [subst; congruence|]
             end; simpl; lia.
  - (* the other watched literal is true *)
    exists cj. split; [assumption|]. destruct (decide (j = idx)) as [->|]; [|lia].
    assert (cj = c) as -> by congruence.
    destruct (unsettled_watched s' c neg w Hw Hneg) as (Hp & Ha & Hb).
    rewrite (unsettled_places s' c neg w Hp), Ha, Hb, Hlo.
    unfold other_true. rewrite Hlo, Hlv.
    destruct (Z.eqb_spec lo neg) as [->|]; [congruence|]. simpl. lia.
  - (* a new literal is watched *)
    simpl clauses. destruct (decide (j = idx)) as [->|Hne].
    + assert (cj = c) as -> by congruence.
      rewrite list_lookup_insert_eq by (eapply lookup_lt_Some; eassumption).
      eexists. split; [reflexivity|].
      rewrite (unsettled_same s) by reflexivity.
      destruct (unsettled_watched s c neg w Hw Hneg) as (Hp & Ha & Hb).
      assert (Hlt : (w < length c)%nat) by (eapply lookup_lt_Some; apply Hw).
      assert (Hwn : w <> nw) by (destruct Hp; subst; lia).
      assert (Hon : (1 - w)%nat <> nw) by (destruct Hp; subst; simpl; lia).
      assert (Hwo : (1 - w)%nat <> w) by (destruct Hp; subst; simpl; lia).
      rewrite (unsettled_places s c neg w Hp), Ha, Hb.
      rewrite (unsettled_places s _ neg w Hp).
      pose proof (unsettled_at_le s (<[nw:=neg]> (<[w:=lnew]> c)) neg w) as Hle1.
      pose proof (unsettled_at_le s (<[nw:=neg]> (<[w:=lnew]> c)) neg (1 - w)) as Hle2.
      rewrite list_lookup_insert_ne, list_lookup_insert_eq in Hle1 by auto.
      rewrite !list_lookup_insert_ne in Hle2 by auto.
      pose proof (lit_value_differ s neg lnew v Hneg Hval Hvne) as Hd.
      destruct (Z.eqb_spec lnew neg); [contradiction|].
      destruct (other_true s c w) eqn:Eo; [|lia].
      unfold other_true in Eo. destruct (c !! (1 - w)%nat) as [lo|]; [|discriminate].
      destruct (_lit_value s lo) as [[[|]|]| |] eqn:El; try discriminate.
      destruct (Z.eqb_spec lo neg) as [->|]; [congruence|]. lia.
    + rewrite list_lookup_insert_ne by congruence. exists cj. split; [assumption|].
      rewrite (unsettled_same s) by reflexivity. lia.
  - (* an implied literal *)
    simpl clauses. exists cj. split; [assumption|].
    set (s1 := set_num_propagations _ _).
    assert (Hg : grows s s1).
    { intros i b Hi. unfold s1. simpl. rewrite list_lookup_insert_ne; [assumption|].
      intros <-. congruence. }
    pose proof (unsettled_mono s s1 cj neg Hg) as Hm.
    destruct (decide (j = idx)) as [->|]; [|lia].
    assert (cj = c) as -> by congruence.
    assert (Hneg1 : _lit_value s1 neg = Done (Some false))
      by (eapply lit_value_kept; eassumption).
    destruct (unsettled_watched s1 c neg w Hw Hneg1) as (Hp & Ha & Hb).
    assert (Hlt : (Z.to_nat (Z.abs z) < length (assignment s))%nat)
      by (eapply lookup_lt_Some; eassumption).
    assert (Hz1 : _lit_value s1 z = Done (Some true)).
    { unfold s1. rewrite (lit_value_same (set_assignment
          (<[Z.to_nat (Z.abs z):=Some (lit_sign z)]> (assignment s)) s)) by reflexivity.
      now apply lit_value_set. }
    rewrite (unsettled_places s1 c neg w Hp), Ha, Hb, Hz.
    unfold other_true. rewrite Hz, Hz1.
    destruct (Z.eqb_spec z neg) as [->|]; [congruence|]. cbn [Nat.add]. lia.
  - (* no other watched literal *)
    exfalso. destruct Hw as [Hw Hw01]. destruct Hnone as [Hnone|Hzero].
    + destruct Hw01 as [->|[-> _]].
      * simpl in Hnone. destruct c as [|a [|b rest]]; try discriminate.
        injection Hw as ->. rewrite (Hunits _ _ Hc) in Hneg. discriminate.
      * simpl in Hnone. destruct c as [|a [|b rest]]; discriminate.
    + unfold nonzero_lits in Hnz. rewrite Forall_forall in Hnz.
      pose proof (Hnz c (list_elem_of_lookup_2 _ _ _ Hc)) as Hcz.
      rewrite Forall_forall in Hcz.
      now apply (Hcz 0 (list_elem_of_lookup_2 _ _ _ Hzero)).
Qed.

(** A visit keeps the places settled for the literals propagated before. *)
Lemma visited_keeps (neg l : Z) (idx : nat) (s s' : state) (c : list Z)
    (r : option nat) :
  visited neg idx s c r s' ->
  clauses s !! idx = Some c ->
  _lit_value s neg = Done (Some false) ->
  _lit_value s l = Done (Some false) ->
  (forall j cj, clauses s !! j = Some cj -> unsettled s cj l = 0%nat) ->
  forall j cj, clauses s' !! j = Some cj -> unsettled s' cj l = 0%nat.
Proof.
  intros Hv Hc Hneg Hl Hall j cj Hj.
  inversion Hv as [H0 H1|w lo Hw Hlo Hlnz Hlv|w nw lnew v ws Hw Hnw Hlnew Hval Hvne Hws
                  |w Hw|w z Hw Hfal Hz Hznz Hun|w Hw Hnone]; subst; eauto.
  - (* a new literal is watched *)
    simpl clauses in Hj. rewrite (unsettled_same s) by reflexivity.
    destruct (decide (j = idx)) as [->|Hne].
    2:{ rewrite list_lookup_insert_ne in Hj by congruence. eauto. }
    rewrite list_lookup_insert_eq in Hj by (eapply lookup_lt_Some; eassumption).
    injection Hj as <-.
    destruct (unsettled_watched s c neg w Hw Hneg) as (Hp & _ & _).
    assert (Hlt : (w < length c)%nat) by (eapply lookup_lt_Some; apply Hw).
    assert (Hwn : w <> nw) by (destruct Hp; subst; lia).
    assert (Hon : (1 - w)%nat <> nw) by (destruct Hp; subst; simpl; lia).
    assert (Hwo : (1 - w)%nat <> w) by (destruct Hp; subst; simpl; lia).
    rewrite (unsettled_places s _ l w Hp).
    pose proof (unsettled_at_le s (<[nw:=neg]> (<[w:=lnew]> c)) l w) as Hle1.
    rewrite list_lookup_insert_ne, list_lookup_insert_eq in Hle1 by auto.
    pose proof (lit_value_differ s l lnew v Hl Hval Hvne) as Hd.
    destruct (Z.eqb_spec lnew l); [contradiction|].
    pose proof (unsettled_at_le s (<[nw:=neg]> (<[w:=lnew]> c)) l (1 - w)) as Hle2.
    rewrite !list_lookup_insert_ne in Hle2 by auto.
    specialize (Hall idx c Hc). rewrite (unsettled_places s c l w Hp) in Hall.
    assert (Hat : unsettled_at s c l (1 - w) = 0%nat) by lia.
    unfold unsettled_at in Hat. destruct (c !! (1 - w)%nat) as [lo|] eqn:Elo; [|lia].
    destruct (Z.eqb_spec lo l) as [->|]; [|lia].
    exfalso. simpl in Hat. unfold other_true in Hat.
    replace (1 - (1 - w))%nat with w in Hat by (destruct Hp; subst; reflexivity).
    destruct Hw as [Hw _]. rewrite Hw, Hneg in Hat. discriminate.
  - (* an implied literal *)
    simpl clauses in Hj. set (s1 := set_num_propagations _ _).
    assert (Hg : grows s s1).
    { intros i b Hi. unfold s1. simpl. rewrite list_lookup_insert_ne; [assumption|].
      intros <-. congruence. }
    pose proof (unsettled_mono s s1 cj l Hg) as Hm.
    specialize (Hall j cj Hj). lia.
Qed.

Lemma list_remove_count (x : nat) (l l' : list nat) :
  list_remove x l = Done l' ->
  forall y, count_occ Nat.eq_dec l y
            = (count_occ Nat.eq_dec l' y + if decide (y = x) then 1 else 0)%nat.
Proof.
  revert l'. induction l as [|a l IH]; intros l' H y; simpl in H; [discriminate|].
  destruct (x =? a)%nat eqn:E.
  - apply Nat.eqb_eq in E. subst a. injection H as <-. simpl.
    destruct (Nat.eq_dec x y), (decide (y = x)); subst; try congruence; lia.
  - apply Nat.eqb_neq in E. apply bind_Done in H as (l1 & H1 & H). injection H as <-.
    specialize (IH l1 H1 y). simpl.
    destruct (Nat.eq_dec a y), (decide (y = x)); subst; try congruence; lia.
Qed.

(** *** What a visit keeps *)

Lemma Forall2_perm_trans (l1 l2 l3 : list (list Z)) :
  Forall2 Permutation l1 l2 -> Forall2 Permutation l2 l3 -> Forall2 Permutation l1 l3.
Proof.
  intros H12. revert l3. induction H12; intros l3 H23; inversion H23; subst;
    constructor; [etransitivity; eassumption | auto].
Qed.

Lemma watch_count_places (c : list Z) (l : Z) (w : nat) :
  w = 0%nat \/ w = 1%nat ->
  watch_count c l
  = (match c !! w with Some x => if (x =? l)%Z then 1 else 0 | None => 0 end
     + match c !! (1 - w)%nat with
       | Some x => if (x =? l)%Z then 1 else 0
       | None => 0
       end)%nat.
Proof. unfold watch_count. intros [-> | ->]; simpl; lia. Qed.

Lemma trail_var_assigned (s : state) (v : Z) :
  trail_true s -> In v (trail_vars s) ->
  exists b, assignment s !! Z.to_nat v = Some (Some b).
Proof.
  intros Ht Hin. unfold trail_vars in Hin. apply in_map_iff in Hin as ([[l lv] an] & <- & Hin).
  destruct (Ht _ _ _ Hin) as [_ Hv]. simpl. unfold _lit_value in Hv.
  destruct (index (assignment s) (Z.to_nat (Z.abs l))) as [[val|]| |] eqn:E;
    simpl in Hv; try discriminate.
  apply index_Some in E. eauto.
Qed.

Lemma visit_clause_calm (n : Z) (cls : list (list Z)) (neg : Z) (idx : nat)
    (s s' : state) (r : option nat) :
  visit_clause neg idx s = Done (r, s') ->
  _lit_value s neg = Done (Some false) ->
  calm n cls s -> calm n cls s'.
Proof.
  intros H Hneg Hs.
  pose proof (visit_clause_extends _ _ _ _ _ H) as Hext.
  pose proof (visit_clause_sound _ _ _ _ _ Hneg H) as (Ht & _ & _).
  destruct (visit_clause_cases _ _ _ _ _ H) as (c & Hc & Hv).
  destruct Hs as [Hcl Hvars Hlen Htr Hnd Hun Hwa Hheap Hass].
  split.
  - eapply Forall2_perm_trans; [exact Hcl | apply Hext].
  - rewrite (ext_vars _ _ Hext). exact Hvars.
  - inversion Hv; subst; try assumption. simpl. now rewrite length_insert.
  - auto.
  - inversion Hv as [| | | |w z Hw Hfal Hz Hznz Hunass|]; subst; try assumption.
    unfold trail_vars. simpl. rewrite map_app. simpl.
    apply NoDup_app. split; [exact Hnd|]. split; [|apply NoDup_singleton].
    intros v Hin Hv'. apply list_elem_of_In in Hin.
    apply list_elem_of_singleton in Hv'. subst v.
    destruct (trail_var_assigned s _ Htr Hin) as (b & Hb). congruence.
  - eapply units_true_extends; eassumption.
  - inversion Hv as [| |w nw lnew v ws Hw Hnw Hlnew Hval Hvne Hws| | |]; subst;
      try assumption.
    intros j cj l Hj. simpl clauses in Hj.
    pose proof (lit_value_differ s neg lnew v Hneg Hval Hvne) as Hd.
    pose proof (list_remove_count _ _ _ Hws) as Hcount.
    rewrite watching_append.
    assert (Hw2 : forall l0, watching (set_watch_list (<[neg:=ws]> (watch_list s))
                               (set_clauses (<[idx:=<[nw:=neg]> (<[w:=lnew]> c)]>
                                               (clauses s)) s)) l0
                             = if decide (l0 = neg) then ws else watching s l0).
    { intros l0. unfold watching. simpl. destruct (decide (l0 = neg)) as [->|].
      - now rewrite lookup_insert_eq.
      - now rewrite lookup_insert_ne by congruence. }
    rewrite !Hw2. destruct (decide (lnew = neg)) as [|_]; [contradiction|].
    destruct (decide (j = idx)) as [->|Hne].
    + rewrite list_lookup_insert_eq in Hj by (eapply lookup_lt_Some; eassumption).
      injection Hj as <-.
      destruct (unsettled_watched s c neg w Hw Hneg) as (Hp & _ & _).
      assert (Hlt : (w < length c)%nat) by (eapply lookup_lt_Some; apply Hw).
      assert (Hwn : nw <> w) by (destruct Hp; subst; lia).
      assert (Hon : nw <> (1 - w)%nat) by (destruct Hp; subst; simpl; lia).
      assert (Hwo : w <> (1 - w)%nat) by (destruct Hp; subst; simpl; lia).
      rewrite (watch_count_places _ l w Hp).
      rewrite (list_lookup_insert_ne _ nw w), list_lookup_insert_eq by auto.
      rewrite !list_lookup_insert_ne by auto.
      pose proof (Hwa idx c l Hc) as Hold.
      rewrite (watch_count_places _ l w Hp) in Hold.
      destruct Hw as [Hw _]. rewrite Hw in Hold.
      specialize (Hcount idx). destruct (decide (idx = idx)); [|congruence].
      destruct (decide (l = lnew)) as [->|Hl1].
      * rewrite Z.eqb_refl, count_occ_app. simpl.
        destruct (Nat.eq_dec idx idx); [|congruence].
        destruct (Z.eqb_spec neg lnew); [congruence|]. lia.
      * destruct (Z.eqb_spec lnew l); [congruence|].
        destruct (decide (l = neg)) as [->|Hl2].
        -- rewrite Z.eqb_refl in Hold. lia.
        -- destruct (Z.eqb_spec neg l); [congruence|]. lia.
    + rewrite list_lookup_insert_ne in Hj by congruence.
      pose proof (Hwa j cj l Hj) as Hold. specialize (Hcount j).
      destruct (decide (j = idx)); [congruence|].
      destruct (decide (l = lnew)) as [->|Hl1].
      * rewrite count_occ_app. simpl. destruct (Nat.eq_dec idx j); [congruence|]. lia.
      * destruct (decide (l = neg)) as [->|Hl2]; lia.
  - destruct (ext_heap _ _ Hext) as [-> _]. exact Hheap.
  - inversion Hv as [| | | |w z Hw Hfal Hz Hznz Hunass|]; subst; try assumption.
    intros i b Hi. unfold trail_vars. simpl in Hi |- *. rewrite map_app.
    apply in_or_app. destruct (decide (i = Z.to_nat (Z.abs z))) as [->|Hne].
    + right. left. simpl. lia.
    + left. rewrite list_lookup_insert_ne in Hi by congruence. exact (Hass i b Hi).
Qed.

Lemma visit_clause_head (neg : Z) (idx : nat) (s s' : state) (r : option nat) :
  visit_clause neg idx s = Done (r, s') -> _propagate_head s' = _propagate_head s.
Proof.
  intros H. destruct (visit_clause_cases _ _ _ _ _ H) as (c & Hc & Hv).
  inversion Hv; subst; reflexivity.
Qed.

Lemma calm_nonzero (n : Z) (cls : list (list Z)) (s : state) :
  nonzero_lits cls -> calm n cls s -> nonzero_lits (clauses s).
Proof. intros Hnz Hs. eapply nonzero_perm; [apply Hs | exact Hnz]. Qed.

(** *** Visiting a whole watch list *)

Lemma visit_watchers_quiet (n : Z) (cls : list (list Z)) (neg : Z) (rest : list nat) :
  nonzero_lits cls ->
  forall s s',
  calm n cls s ->
  _lit_value s neg = Done (Some false) ->
  (forall j cj, clauses s !! j = Some cj ->
                (unsettled s cj neg <= count_occ Nat.eq_dec rest j)%nat) ->
  visit_watchers neg rest s = Done (None, s') ->
  calm n cls s' /\ extends s s' /\ _propagate_head s' = _propagate_head s
  /\ (forall j cj, clauses s' !! j = Some cj -> unsettled s' cj neg = 0%nat)
  /\ (forall l, _lit_value s l = Done (Some false) ->
                (forall j cj, clauses s !! j = Some cj -> unsettled s cj l = 0%nat) ->
                forall j cj, clauses s' !! j = Some cj -> unsettled s' cj l = 0%nat).
Proof.
  intros Hnz. induction rest as [|idx rest IH]; intros s s' Hs Hneg Hcount H;
    simpl in H.
  - injection H as <-. split; [assumption|]. split; [apply extends_refl|].
    split; [reflexivity|]. split; [|auto].
    intros j cj Hj. specialize (Hcount j cj Hj). simpl in Hcount. lia.
  - apply bind_Done in H as ([r s1] & H1 & H). destruct r as [r|]; [discriminate|].
    pose proof (visit_clause_extends _ _ _ _ _ H1) as Hext1.
    pose proof (visit_clause_calm n cls _ _ _ _ _ H1 Hneg Hs) as Hs1.
    pose proof (visit_clause_head _ _ _ _ _ H1) as Hh1.
    destruct (visit_clause_cases _ _ _ _ _ H1) as (c & Hc & Hv).
    assert (Hneg1 : _lit_value s1 neg = Done (Some false))
      by (eapply lit_value_kept; [apply Hext1 | exact Hneg]).
    apply IH in H as (Hs' & Hext & Hh & Hzero & Hkeep); try assumption.
    + split; [assumption|]. split; [eapply extends_trans; eassumption|].
      split; [congruence|]. split; [assumption|].
      intros l Hl Hall. apply Hkeep.
      * eapply lit_value_kept; [apply Hext1 | exact Hl].
      * eapply visited_keeps; eassumption.
    + intros j cj1 Hj1.
      destruct (Forall2_lookup_r _ _ _ _ _ (ext_clauses _ _ Hext1) Hj1)
        as (cj & Hj & _).
      destruct (visited_settles _ _ _ _ _ Hv Hc Hneg (c_units _ _ _ Hs)
                  (calm_nonzero _ _ _ Hnz Hs) j cj Hj) as (cj' & Hj' & Hle).
      assert (cj' = cj1) as -> by congruence.
      specialize (Hcount j cj Hj). simpl in Hcount.
      destruct (decide (j = idx)) as [->|Hne].
      * destruct (Nat.eq_dec idx idx); [|congruence]. lia.
      * destruct (Nat.eq_dec idx j); [congruence|]. lia.
Qed.

(** *** Propagation *)

Lemma calm_head (n : Z) (cls : list (list Z)) (s : state) (k : nat) :
  calm n cls s -> calm n cls (set_propagate_head k s).
Proof. intros [? ? ? ? ? ? ? ? ?]. split; assumption. Qed.

Lemma unsettled_le_watch_count (s : state) (c : list Z) (l : Z) :
  (unsettled s c l <= watch_count c l)%nat.
Proof.
  unfold unsettled, watch_count.
  pose proof (unsettled_at_le s c l 0). pose proof (unsettled_at_le s c l 1). lia.
Qed.

Lemma In_take {A : Type} (k : nat) :
  forall (l : list A) (x : A), In x (take k l) -> In x l.
Proof.
  induction k as [|k IH]; intros [|a l] x H; simpl in H; try destruct H as [<-|H];
    try contradiction; [now left | right; now apply IH].
Qed.

Lemma processed_false (s : state) (k : nat) (l : Z) :
  trail_true s -> processed s k l -> _lit_value s l = Done (Some false).
Proof.
  intros Ht (lv & an & Hin). apply In_take in Hin.
  destruct (Ht _ _ _ Hin) as [Hnz Hv].
  rewrite lit_value_opp in Hv by lia.
  destruct (_lit_value s l) as [[[|]|]| |]; simpl in Hv; congruence.
Qed.

Lemma propagate_body_quiet (n : Z) (cls : list (list Z)) (s : state)
    (x : state + (option nat * state)) :
  nonzero_lits cls ->
  quiet n cls s -> propagate_body s = Done x ->
  match x with
  | inl s' => quiet n cls s' /\ extends s s'
  | inr (None, s') =>
      quiet n cls s' /\ extends s s' /\ _propagate_head s' = length (trail s')
  | inr (Some _, _) => True
  end.
Proof.
  intros Hnz [Hs Hhead Htwo] H. unfold propagate_body in H.
  destruct (_propagate_head s <? length (trail s))%nat eqn:Elt.
  2:{ injection H as <-. apply Nat.ltb_ge in Elt.
      split; [now split|]. split; [apply extends_refl | lia]. }
  apply Nat.ltb_lt in Elt.
  apply bind_Done in H as ([[lit lv] an] & Hi & H). apply index_Some in Hi.
  apply bind_Done in H as ([r s1] & H1 & H). destruct r as [r|].
  { now injection H as <-. }
  injection H as <-.
  set (s0 := set_propagate_head (S (_propagate_head s)) s) in *.
  destruct (c_trail _ _ _ Hs lit lv an) as [Hlnz Hlv].
  { apply list_elem_of_In. eapply list_elem_of_lookup_2. exact Hi. }
  assert (Hneg : _lit_value s0 (- lit) = Done (Some false)).
  { rewrite (lit_value_same s) by reflexivity.
    rewrite lit_value_opp by assumption. now rewrite Hlv. }
  apply (visit_watchers_quiet n cls) in H1
    as (Hs1 & Hext & Hh & Hzero & Hkeep); try assumption.
  - assert (Hext' : extends s s1)
      by (eapply extends_trans; [apply extends_head | exact Hext]).
    destruct (ext_trail _ _ Hext') as (added & Htr & _). simpl in Hh.
    split; [|assumption]. split; [assumption | rewrite Hh, Htr, length_app; lia|].
    rewrite Hh. intros l (lv' & an' & Hin).
    rewrite Htr, take_app_le in Hin by lia.
    rewrite (take_S_r _ _ _ Hi) in Hin. apply in_app_or in Hin as [Hin|Hin].
    + assert (Hp : processed s (_propagate_head s) l) by (now exists lv', an').
      apply Hkeep.
      * rewrite (lit_value_same s) by reflexivity.
        eapply processed_false; [apply Hs | exact Hp].
      * intros j cj Hj. rewrite (unsettled_same s) by reflexivity.
        now apply (Htwo l Hp j cj).
    + destruct Hin as [[= Hl _ _]|[]].
      replace l with (- lit) by lia. exact Hzero.
  - now apply calm_head.
  - intros j cj Hj. rewrite (unsettled_same s) by reflexivity.
    etransitivity; [apply unsettled_le_watch_count|].
    apply (c_watches _ _ _ Hs j cj (- lit) Hj).
Qed.

Lemma propagate_quiet (n : Z) (cls : list (list Z)) (fuel : nat) (s s' : state) :
  nonzero_lits cls ->
  quiet n cls s -> _propagate fuel s = Done (None, s') ->
  quiet n cls s' /\ _propagate_head s' = length (trail s').
Proof.
  unfold _propagate. intros Hnz Hs H.
  refine (loop_inv (quiet n cls)
            (fun r => fst r = None ->
                      quiet n cls (snd r)
                      /\ _propagate_head (snd r) = length (trail (snd r)))
            propagate_body _ fuel s (None, s') Hs H eq_refl).
  intros s0 x H0 Hx. pose proof (propagate_body_quiet n cls _ _ Hnz H0 Hx) as Hb.
  destruct x as [s1|[[c|] s1]]; simpl.
  - apply Hb.
  - discriminate.
  - intros _. destruct Hb as (Hq & _ & Hh). now split.
Qed.

(** *** Decisions *)

Lemma choose_loop_incl (k : nat) :
  forall (s s' : state) (chosen : option Z),
  choose_loop k s = Done (chosen, s') -> incl (var_order s') (var_order s).
Proof.
  induction k as [|k IH]; intros s s' chosen H; simpl in H.
  - destruct (var_order s) eqn:E; [|discriminate]. injection H as _ <-.
    rewrite E. apply incl_refl.
  - destruct (var_order s) eqn:Eo.
    { injection H as _ <-. rewrite Eo. apply incl_refl. }
    rewrite <- Eo.
    apply bind_Done in H as ([popped s1] & H1 & H).
    apply heap_pop_incl in H1 as [Hincl _].
    destruct popped as [v|]; [|discriminate].
    apply bind_Done in H as (value & _ & H). destruct value.
    + apply IH in H. eapply incl_tran; eassumption.
    + now injection H as _ <-.
Qed.

Lemma take_app_head {A : Type} (l added : list A) (k : nat) :
  (k <= length l)%nat -> take k (l ++ added) = take k l.
Proof. intros Hk. now rewrite take_app_le. Qed.

Lemma make_decision_quiet (n : Z) (cls : list (list Z)) (s s' : state) :
  quiet n cls s -> _make_decision s = Done s' ->
  quiet n cls s' /\ num_conflicts s' = num_conflicts s.
Proof.
  intros [Hs Hhead Htwo] H.
  assert (Hord : incl (var_order s') (var_order s)).
  { unfold _make_decision, _choose_variable in H.
    apply bind_Done in H as ([chosen s1] & H1 & H).
    apply choose_loop_incl in H1. destruct chosen as [var|].
    - cbn zeta in H. apply bind_Done in H as (s2 & H2 & H).
      apply set_value_Done in H2 as [-> _]. now injection H as <-.
    - now injection H as <-. }
  assert (Hheap' : Forall (fun var => 1 <= var) (var_order s')).
  { pose proof (c_heap _ _ _ Hs) as Hh. rewrite Forall_forall in *.
    intros v Hv. apply Hh. apply list_elem_of_In. apply Hord.
    now apply list_elem_of_In. }
  destruct Hs as [Hcl Hvars Hlen Htr Hnd Hun Hwa Hheap Hass].
  apply make_decision_cases in H
    as [(o & p & ->)|(var & s1 & (o & p & ->) & Hmem & Hnone & ->)].
  - split; [|reflexivity]. split; [split; assumption | assumption | assumption].
  - split; [|reflexivity].
    assert (Hv1 : 1 <= var).
    { rewrite Forall_forall in Hheap. apply Hheap. now apply list_elem_of_In. }
    assert (Hlt : (Z.to_nat var < length (assignment s))%nat)
      by (eapply lookup_lt_Some; eassumption).
    set (s2 := set_num_decisions _ _) in *.
    assert (Hg : grows s s2).
    { intros i b Hi. unfold s2. simpl. rewrite list_lookup_insert_ne; [assumption|].
      intros <-. congruence. }
    split; [split| |].
    + exact Hcl.
    + exact Hvars.
    + unfold s2. simpl. now rewrite length_insert.
    + intros l lv an Hin. unfold s2 in Hin. simpl in Hin.
      apply in_app_or in Hin as [Hin|Hin].
      * destruct (Htr _ _ _ Hin) as [Hnz Hv]. split; [assumption|].
        eapply lit_value_kept; eassumption.
      * destruct Hin as [[= <- <- <-]|[]]. split; [lia|].
        unfold _lit_value, index, s2. simpl. rewrite Z.abs_eq by lia.
        rewrite list_lookup_insert_eq by assumption. simpl.
        destruct (Z.ltb_spec 0 var); [reflexivity | lia].
    + unfold trail_vars, s2. simpl. rewrite map_app. simpl.
      apply NoDup_app. split; [exact Hnd|]. split; [|apply NoDup_singleton].
      intros v Hin Hv'. apply list_elem_of_In in Hin.
      apply list_elem_of_singleton in Hv'. subst v.
      destruct (trail_var_assigned s _ Htr Hin) as (b & Hb).
      rewrite Z.abs_eq in Hb by lia. congruence.
    + intros i l Hi. eapply lit_value_kept; [exact Hg|]. apply (Hun i l Hi).
    + exact Hwa.
    + exact Hheap'.
    + intros i b Hi. unfold trail_vars, s2. unfold s2 in Hi. simpl in Hi |- *.
      rewrite map_app. apply in_or_app.
      destruct (decide (i = Z.to_nat var)) as [->|Hne].
      * right. left. simpl. lia.
      * left. rewrite list_lookup_insert_ne in Hi by congruence. exact (Hass i b Hi).
    + unfold s2. simpl. rewrite length_app. simpl in *. lia.
    + intros l (lv & an & Hin) j cj Hj. unfold s2 in Hin. simpl in Hin, Hj.
      rewrite take_app_head in Hin by exact Hhead.
      pose proof (unsettled_mono s s2 cj l Hg) as Hm.
      assert (Hz : unsettled s cj l = 0%nat); [|lia].
      apply (Htwo l (ex_intro _ lv (ex_intro _ an Hin)) j cj Hj).
Qed.

(** *** The set-up *)

Lemma count_occ_snoc (l : list nat) (x y : nat) :
  count_occ Nat.eq_dec (l ++ [x]) y
  = (count_occ Nat.eq_dec l y + if decide (y = x) then 1 else 0)%nat.
Proof.
  rewrite count_occ_app. simpl.
  destruct (Nat.eq_dec x y), (decide (y = x)); subst; congruence || lia.
Qed.

Lemma watching_set_clauses (x : list (list Z)) (s : state) (l : Z) :
  watching (set_clauses x s) l = watching s l.
Proof. reflexivity. Qed.

Lemma watching_add_clause (c : list Z) (s : state) (l : Z) (j : nat) :
  count_occ Nat.eq_dec (watching (add_clause c s) l) j
  = (count_occ Nat.eq_dec (watching s l) j
     + if decide (j = length (clauses s)) then watch_count c l else 0)%nat.
Proof.
  unfold add_clause, watch_count. destruct c as [|l0 [|l1 tl]]; cbn zeta; simpl lookup;
    rewrite ?watching_append, ?watching_set_clauses;
    repeat match goal with
           | |- context [decide (?a = ?b)] => destruct (decide (a = b)); subst
           | |- context [?a =? ?b] => destruct (Z.eqb_spec a b); subst
           | _ => rewrite count_occ_snoc
           | _ => rewrite watching_append
           | _ => rewrite watching_set_clauses
           end; simpl; try congruence; try lia.
Qed.

Lemma add_clause_watches_ok (c : list Z) (s : state) :
  watches_ok s -> watches_ok (add_clause c s).
Proof.
  intros Hw j cj l Hj. rewrite watching_add_clause.
  assert (Hcl : clauses (add_clause c s) = clauses s ++ [c])
    by (unfold add_clause; destruct c as [|l0 [|l1 tl]]; reflexivity).
  rewrite Hcl in Hj. apply lookup_app_Some in Hj as [Hj|[Hle Hj]].
  - specialize (Hw j cj l Hj). lia.
  - destruct (j - length (clauses s))%nat eqn:Ed; [|discriminate].
    injection Hj as <-. destruct (decide (j = length (clauses s))); lia.
Qed.

Lemma add_clauses_watches_ok (l : list (list Z)) :
  forall s, watches_ok s ->
            watches_ok (fold_left (fun s clause_lits => add_clause clause_lits s) l s).
Proof.
  induction l as [|c l IH]; intros s Hs; simpl; [assumption|].
  apply IH. now apply add_clause_watches_ok.
Qed.

Lemma init_watches_ok (num_vars : Z) (cls : list (list Z)) (s : state) :
  _init_data_structures (__init__ num_vars cls) = Done s -> watches_ok s.
Proof.
  unfold _init_data_structures. cbn zeta. set (s0 := fold_left _ _ _). intros H.
  assert (Hw : watches_ok s0).
  { apply add_clauses_watches_ok. intros j cj l Hj. discriminate. }
  apply bind_Done in H as (s1 & H1 & H).
  apply for_each_heap in H1; [|intros; eapply heap_insert_heap; eassumption].
  destruct H1 as (o & p & ->). injection H as <-. exact Hw.
Qed.

(** The scan of the unit clauses, when it meets no conflict: the literal of
    every unit clause is true afterwards; only the trail, the assignment
    vector and the count of propagations change. *)
Lemma initial_units_calm (rest : list (list Z)) :
  forall (idx : nat) (s s' : state),
  nonzero_lits rest -> trail_true s -> NoDup (trail_vars s) ->
  (forall i b, assignment s !! i = Some (Some b) -> In (Z.of_nat i) (trail_vars s)) ->
  initial_units idx rest s = Done (None, s') ->
  trail_true s' /\ NoDup (trail_vars s')
  /\ (forall i b, assignment s' !! i = Some (Some b) -> In (Z.of_nat i) (trail_vars s'))
  /\ length (assignment s') = length (assignment s)
  /\ grows s s'
  /\ (forall lit, In [lit] rest -> _lit_value s' lit = Done (Some true))
  /\ exists a t np, s' = set_num_propagations np (set_trail t (set_assignment a s)).
Proof.
  induction rest as [|clause rest IH]; intros idx s s' Hnz Ht Hnd Hass H; simpl in H.
  - injection H as <-. split; [assumption|]. split; [assumption|].
    split; [assumption|]. split; [reflexivity|]. split; [intros i b Hi; exact Hi|].
    split; [intros lit []|].
    exists (assignment s), (trail s), (num_propagations s). now destruct s.
  - inversion Hnz as [|? ? Hnzc Hnz']; subst.
    assert (Hskip : (forall lit, clause <> [lit]) ->
                    initial_units (S idx) rest s = Done (None, s') ->
                    trail_true s' /\ NoDup (trail_vars s')
                    /\ (forall i b, assignment s' !! i = Some (Some b) ->
                                    In (Z.of_nat i) (trail_vars s'))
                    /\ length (assignment s') = length (assignment s)
                    /\ grows s s'
                    /\ (forall lit, In [lit] (clause :: rest) ->
                                    _lit_value s' lit = Done (Some true))
                    /\ exists a t np,
                         s' = set_num_propagations np (set_trail t (set_assignment a s))).
    { intros Hne H'.
      apply IH in H' as (H1 & H2 & H2' & H3 & H4 & H5 & H6); try assumption.
      do 5 (split; [assumption|]). split; [|assumption].
      intros lit [->|Hin]; [now destruct (Hne lit) | auto]. }
    destruct clause as [|lit [|l1 tl]]; try (apply Hskip; [discriminate | exact H]).
    clear Hskip. inversion Hnzc as [|? ? Hlit _]; subst.
    apply bind_Done in H as (a & Ha & H). apply index_Some in Ha.
    destruct a as [b|].
    + destruct (Bool.eqb b (lit_sign lit)) eqn:Eb; [|discriminate].
      apply Bool.eqb_prop in Eb. subst b.
      apply IH in H as (H1 & H2 & H2' & H3 & H4 & H5 & H6); try assumption.
      do 5 (split; [assumption|]). split; [|assumption].
      intros l [[= <-]|Hin]; [|auto].
      unfold _lit_value, index. rewrite (H4 _ _ Ha). simpl.
      unfold lit_sign. now destruct (0 <? lit).
    + apply bind_Done in H as (s1 & Hs1 & H). apply set_value_Done in Hs1 as [-> Hlt].
      match type of H with
      | initial_units _ _ ?st = _ => set (s1 := st) in *
      end.
      assert (Hg : grows s s1).
      { intros i b Hi. unfold s1. simpl. rewrite list_lookup_insert_ne; [assumption|].
        intros <-. congruence. }
      apply IH in H as (H1 & H2 & H2' & H3 & H4 & H5 & H6); try assumption.
      * split; [assumption|]. split; [assumption|]. split; [assumption|].
        split; [unfold s1 in H3; simpl in H3; now rewrite length_insert in H3|].
        split; [intros i b Hi; auto|]. split.
        -- intros l [[= <-]|Hin]; [|auto].
           eapply lit_value_kept; [exact H4|]. unfold s1.
           rewrite (lit_value_same (set_assignment
             (<[Z.to_nat (Z.abs lit):=Some (lit_sign lit)]> (assignment s)) s))
             by reflexivity.
           now apply lit_value_set.
        -- destruct H6 as (a & t & np & ->). exists a, t, np. unfold s1.
           now destruct s.
      * intros l lv an Hin. unfold s1 in Hin. simpl in Hin.
        apply in_app_or in Hin as [Hin|Hin].
        -- destruct (Ht _ _ _ Hin) as [Hl Hv]. split; [assumption|].
           eapply lit_value_kept; eassumption.
        -- destruct Hin as [[= <- <- <-]|[]]. split; [assumption|]. unfold s1.
           rewrite (lit_value_same (set_assignment
             (<[Z.to_nat (Z.abs lit):=Some (lit_sign lit)]> (assignment s)) s))
             by reflexivity.
           now apply lit_value_set.
      * unfold trail_vars, s1. simpl. rewrite map_app. simpl.
        apply NoDup_app. split; [exact Hnd|]. split; [|apply NoDup_singleton].
        intros v Hin Hv'. apply list_elem_of_In in Hin.
        apply list_elem_of_singleton in Hv'. subst v.
        destruct (trail_var_assigned s _ Ht Hin) as (b & Hb). congruence.
      * intros i b Hi. unfold trail_vars, s1. unfold s1 in Hi. simpl in Hi |- *.
        rewrite map_app. apply in_or_app.
        destruct (decide (i = Z.to_nat (Z.abs lit))) as [->|Hne].
        -- right. left. simpl. lia.
        -- left. rewrite list_lookup_insert_ne in Hi by congruence.
           exact (Hass i b Hi).
Qed.

(** *** The first state of the main loop *)

Lemma filter_nonempty (cls : list (list Z)) :
  (forall c, In c cls -> c <> []) ->
  List.filter (fun c => match c with [] => false | _ => true end) cls = cls.
Proof.
  induction cls as [|c cls IH]; intros H; [reflexivity|]. simpl.
  destruct c as [|l c]; [now destruct (H [] (or_introl eq_refl))|].
  f_equal. apply IH. intros c' Hc'. apply H. now right.
Qed.

Lemma in_range_nonzero (n : Z) (cls : list (list Z)) :
  in_range n cls -> nonzero_lits cls.
Proof.
  intros H. unfold nonzero_lits. rewrite Forall_forall. intros c Hc.
  rewrite Forall_forall. intros l Hl.
  apply list_elem_of_In in Hc, Hl. now destruct (H c l Hc Hl).
Qed.

Lemma startup_quiet (clock : nat -> float) (fuel : nat) (n : Z)
    (cls : list (list Z)) (s : state) (tick : nat) :
  in_range n cls -> (forall c, In c cls -> c <> []) ->
  startup clock fuel (__init__ n cls) = Done (inl (s, tick)) ->
  quiet n cls s.
Proof.
  intros Hr Hne H. pose proof (in_range_nonzero _ _ Hr) as Hnz.
  unfold startup in H. cbn zeta in H.
  destruct (init_data_structures_total n cls)
    as (s0 & Hinit & Hcl & _ & Hord & Htr & Has & _).
  rewrite Hinit in H. cbn [bind] in H.
  pose proof (init_watches_ok _ _ _ Hinit) as Hw0.
  apply init_data_structures_state in Hinit
    as (_ & _ & _ & _ & _ & _ & Hvars & Hhead & _).
  simpl in Hvars. rewrite (filter_nonempty cls Hne) in Hcl.
  destruct (existsb _ (clauses s0)); [discriminate|].
  apply bind_Done in H as ([conflict s1] & H1 & H).
  destruct conflict; [discriminate|]. injection H as <- _.
  unfold _initial_propagate in H1. apply bind_Done in H1 as ([c s2] & H2 & H1).
  destruct c; [discriminate|].
  apply initial_units_calm in H2
    as (Ht2 & Hnd2 & Hass2 & Hlen2 & Hg2 & Hu2 & a & t & np & ->).
  - apply (propagate_quiet n cls) in H1 as [Hq _]; [exact Hq | exact Hnz|].
    split; [split|simpl; rewrite Hhead; lia|].
    + simpl. rewrite Hcl. apply Forall2_perm_refl.
    + exact Hvars.
    + rewrite Hlen2, Has, length_replicate. reflexivity.
    + exact Ht2.
    + exact Hnd2.
    + intros i l Hi. simpl in Hi. apply Hu2.
      apply list_elem_of_In. eapply list_elem_of_lookup_2. exact Hi.
    + exact Hw0.
    + simpl. rewrite Hord. rewrite Forall_forall. intros v Hv.
      apply list_elem_of_In, range1_In in Hv. lia.
    + exact Hass2.
    + simpl. rewrite Hhead. intros l (lv & an & []).
  - rewrite Hcl. exact Hnz.
  - intros l lv an Hin. rewrite Htr in Hin. destruct Hin.
  - unfold trail_vars. rewrite Htr. constructor.
  - intros i b Hi. rewrite Has in Hi. apply lookup_replicate in Hi as [Hi _].
    discriminate.
Qed.

(** *** When every variable is on the trail *)

Lemma trail_var_range (n : Z) (cls : list (list Z)) (s : state) (v : Z) :
  calm n cls s -> In v (trail_vars s) -> 1 <= v <= n.
Proof.
  intros Hs Hin.
  destruct (trail_var_assigned s v (c_trail _ _ _ Hs) Hin) as (b & Hb).
  apply lookup_lt_Some in Hb. rewrite (c_length _ _ _ Hs) in Hb.
  unfold trail_vars in Hin. apply in_map_iff in Hin as ([[l lv] an] & <- & Hin).
  destruct (c_trail _ _ _ Hs _ _ _ Hin) as [Hnz _]. simpl in *. lia.
Qed.

(** With as many trail entries as variables, every literal in range is
    true or has its complement on the trail. *)
Lemma full_trail (n : Z) (cls : list (list Z)) (s : state) (l : Z) :
  calm n cls s -> Z.of_nat (length (trail s)) = n ->
  l <> 0 -> Z.abs l <= n ->
  _lit_value s l = Done (Some true) \/ processed s (length (trail s)) l.
Proof.
  intros Hs Hfull Hnz Hle.
  assert (Hincl : incl (range1 n) (trail_vars s)).
  { apply NoDup_length_incl.
    - apply NoDup_ListNoDup. exact (c_nodup _ _ _ Hs).
    - unfold range1, trail_vars. rewrite !length_map, length_seq. lia.
    - intros v Hv. apply range1_In. eapply trail_var_range; eassumption. }
  assert (Hin : In (Z.abs l) (trail_vars s)) by (apply Hincl, range1_In; lia).
  unfold trail_vars in Hin. apply in_map_iff in Hin as ([[l' lv] an] & Habs & Hin).
  simpl in Habs. destruct (c_trail _ _ _ Hs _ _ _ Hin) as [_ Hv].
  assert (l' = l \/ l' = - l) as [-> | ->] by lia.
  - now left.
  - right. exists lv, an. now rewrite firstn_all.
Qed.

Lemma lit_true_satisfied (s : state) (A : gmap Z (option bool)) (l : Z) :
  final_assignment s = Done A ->
  l <> 0 -> Z.abs l <= num_vars s ->
  _lit_value s l = Done (Some true) ->
  match A !! Z.abs l with
  | Some (Some b) => Bool.eqb b (lit_sign l)
  | _ => false
  end = true.
Proof.
  intros HA Hnz Hle Hv.
  destruct (final_assignment_keys s A HA (Z.abs l)) as [Hk Hx].
  destruct (proj2 Hk ltac:(lia)) as [x Hxv]. rewrite Hxv.
  apply Hx in Hxv. unfold _lit_value, index in Hv. rewrite Hxv in Hv. simpl in Hv.
  destruct x as [val|]; [|discriminate]. injection Hv as Hv.
  unfold lit_sign. destruct (0 <? l), val; simpl in *; congruence.
Qed.

Lemma quiet_satisfied (n : Z) (cls : list (list Z)) (s : state)
    (A : gmap Z (option bool)) :
  in_range n cls -> (forall c, In c cls -> c <> []) ->
  quiet n cls s ->
  _propagate_head s = length (trail s) ->
  Z.of_nat (length (trail s)) = n ->
  final_assignment s = Done A ->
  forall c, In c cls -> satisfied_by A c = true.
Proof.
  intros Hr Hne [Hs Hhead Htwo] Hh Hfull HA c Hc.
  apply list_elem_of_In, list_elem_of_lookup_1 in Hc as [i Hi].
  destruct (Forall2_lookup_l _ _ _ _ _ (c_clauses _ _ _ Hs) Hi) as (c' & Hi' & Hp).
  assert (Hc : In c cls) by (apply list_elem_of_In; eapply list_elem_of_lookup_2; eauto).
  assert (Hrange : forall l, In l c' -> l <> 0 /\ Z.abs l <= n).
  { intros l Hl. apply (Hr c l Hc). eapply Permutation_in; [symmetry|]; eassumption. }
  assert (Htrue : exists l, In l c' /\ _lit_value s l = Done (Some true)).
  { destruct c' as [|l0 [|l1 tl]].
    - apply Permutation_nil_r in Hp. now destruct (Hne c Hc).
    - exists l0. split; [now left|]. apply (c_units _ _ _ Hs i l0 Hi').
    - destruct (Hrange l0 (or_introl eq_refl)) as [Hnz0 Hle0].
      destruct (full_trail n cls s l0 Hs Hfull Hnz0 Hle0) as [Ht|Hproc].
      + exists l0. split; [now left | assumption].
      + rewrite <- Hh in Hproc. pose proof (Htwo l0 Hproc i _ Hi') as Hu.
        unfold unsettled, unsettled_at, other_true in Hu. simpl in Hu.
        rewrite Z.eqb_refl in Hu. simpl in Hu.
        exists l1. split; [right; now left|].
        destruct (_lit_value s l1) as [[[|]|]| |]; simpl in Hu; try reflexivity;
          lia. }
  destruct Htrue as (l & Hl & Hv). destruct (Hrange l Hl) as [Hnz Hle].
  unfold satisfied_by. apply existsb_exists. exists l. split.
  - eapply Permutation_in; [symmetry|]; eassumption.
  - apply (lit_true_satisfied s A l HA Hnz); [|assumption].
    rewrite (c_vars _ _ _ Hs). exact Hle.
Qed.

Lemma calm_total (n : Z) (cls : list (list Z)) (s : state)
    (A : gmap Z (option bool)) :
  calm n cls s ->
  Z.of_nat (length (trail s)) = n ->
  final_assignment s = Done A ->
  forall var, 1 <= var <= n -> exists b, A !! var = Some (Some b).
Proof.
  intros Hs Hfull HA var Hvar.
  destruct (full_trail n cls s var Hs Hfull ltac:(lia) ltac:(lia)) as [Hv|Hp].
  - pose proof (lit_true_satisfied s A var HA ltac:(lia)) as Hsat.
    rewrite (c_vars _ _ _ Hs), Z.abs_eq in Hsat by lia.
    specialize (Hsat ltac:(lia) Hv).
    destruct (A !! var) as [[b|]|]; try discriminate. now exists b.
  - apply (processed_false s _ _ (c_trail _ _ _ Hs)) in Hp.
    rewrite <- (Z.opp_involutive var) in Hp. rewrite lit_value_opp in Hp by lia.
    destruct (_lit_value s (- var)) as [[[|]|]| |] eqn:Eneg; simpl in Hp;
      try discriminate.
    pose proof (lit_true_satisfied s A (- var) HA ltac:(lia)) as Hsat.
    rewrite (c_vars _ _ _ Hs), Z.abs_opp, Z.abs_eq in Hsat by lia.
    specialize (Hsat ltac:(lia) Eneg).
    destruct (A !! var) as [[b|]|]; try discriminate. now exists b.
Qed.

(** *** The main loop *)

Lemma main_body_quiet (clock : nat -> float) (fuel : nat) (time_limit : option float)
    (start_time : float) (n : Z) (cls : list (list Z)) (st : state * nat)
    (x : (state * nat) + outcome) :
  in_range n cls -> (forall c, In c cls -> c <> []) ->
  (num_conflicts (fst st) = 0%nat -> quiet n cls (fst st)) ->
  main_body clock fuel time_limit start_time st = Done x ->
  match x with
  | inl st' => num_conflicts (fst st') = 0%nat -> quiet n cls (fst st')
  | inr (v, A, stats) =>
      v = Sat -> conflicts stats = 0%nat ->
      exists D, A = Some D
                /\ (forall c, In c cls -> satisfied_by D c = true)
                /\ forall var, 1 <= var <= n -> exists b, D !! var = Some (Some b)
  end.
Proof.
  intros Hr Hne. destruct st as [s tick]. unfold main_body. simpl fst. intros Hs H.
  pose proof (in_range_nonzero _ _ Hr) as Hnz.
  destruct (deadline_passed clock time_limit start_time tick) as [[|] tick'].
  { injection H as <-. discriminate. }
  apply bind_Done in H as ([conflict s1] & H1 & H).
  pose proof (propagate_extends _ _ _ _ H1) as Hext.
  destruct conflict as [c|].
  - cbn zeta in H. destruct (decision_level _ =? 0).
    + injection H as <-. discriminate.
    + apply bind_Done in H as (s2 & H2 & H). injection H as <-. simpl fst.
      apply handle_conflict_steady in H2. intros Hc.
      rewrite (st_conflicts _ _ H2) in Hc. discriminate.
  - assert (Hq1 : num_conflicts s1 = 0%nat ->
                  quiet n cls s1 /\ _propagate_head s1 = length (trail s1)).
    { intros Hc. rewrite (ext_conflicts _ _ Hext) in Hc.
      eapply propagate_quiet; eauto. }
    destruct (Z.of_nat (length (trail s1)) =? num_vars s1) eqn:Efull.
    + apply bind_Done in H as (A & HA & H). injection H as <-.
      intros _ Hc. simpl in Hc. destruct (Hq1 Hc) as [Hq Hh].
      exists A. split; [reflexivity|].
      apply Z.eqb_eq in Efull. rewrite (c_vars _ _ _ (q_calm _ _ _ Hq)) in Efull.
      split; [eapply quiet_satisfied; eassumption|].
      eapply calm_total; [apply Hq | eassumption..].
    + apply bind_Done in H as (s2 & H2 & H). injection H as <-. simpl fst.
      intros Hc.
      assert (Hc1 : num_conflicts s1 = 0%nat).
      { apply make_decision_cases in H2
          as [(o & p & ->)|(var & s3 & (o & p & ->) & _ & _ & ->)]; exact Hc. }
      destruct (Hq1 Hc1) as [Hq _].
      now apply (make_decision_quiet n cls s1 s2 Hq) in H2 as [Hq2 _].
Qed.

(** A SAT answer found without meeting a conflict gives every variable a
    value and satisfies every input clause. *)
Lemma solve_sat_quiet (clock : nat -> float) (fuel : nat) (time_limit : option float)
    (n : Z) (cls : list (list Z)) (A : option (gmap Z (option bool))) (st : stats) :
  in_range n cls -> (forall c, In c cls -> c <> []) ->
  solve clock fuel time_limit n cls = Done (Sat, A, st) ->
  conflicts st = 0%nat ->
  exists D, A = Some D
            /\ (forall c, In c cls -> satisfied_by D c = true)
            /\ forall var, 1 <= var <= n -> exists b, D !! var = Some (Some b).
Proof.
  unfold solve, solve_from. intros Hr Hne H Hc.
  apply bind_Done in H as (x & Hx & H). destruct x as [[s tick]|out].
  - pose proof (startup_quiet _ _ _ _ _ _ Hr Hne Hx) as Hq.
    refine (loop_inv (fun st => num_conflicts (fst st) = 0%nat -> quiet n cls (fst st))
              (fun out : outcome =>
                 fst (fst out) = Sat -> conflicts (snd out) = 0%nat ->
                 exists D, snd (fst out) = Some D
                           /\ (forall c, In c cls -> satisfied_by D c = true)
                           /\ forall var, 1 <= var <= n ->
                                          exists b, D !! var = Some (Some b))
              _ _ fuel (s, tick) (Sat, A, st) (fun _ => Hq) H eq_refl Hc).
    intros st0 y H0 Hy.
    pose proof (main_body_quiet _ _ _ _ n cls _ _ Hr Hne H0 Hy) as Hb.
    destruct y as [st'|[[v A'] stats']]; assumption.
  - injection H as ->. unfold startup in Hx. cbn zeta in Hx.
    apply bind_Done in Hx as (s0 & _ & Hx).
    destruct (existsb _ (clauses s0)); [discriminate|].
    apply bind_Done in Hx as ([[c|] s1] & _ & Hx); discriminate.
Qed.

(** *** Trail consistency while no conflict is met *)

Lemma turns_inv {S R : Type} (P : S -> Prop) (body : S -> result (S + R)) :
  (forall s x, P s -> body s = Done x ->
               match x with inl s' => P s' | inr _ => True end) ->
  forall (k : nat) (s s' : S), P s -> turns body k s = Done (inl s') -> P s'.
Proof.
  intros Hbody k. induction k as [|k IH]; intros s s' Hs H.
  - now injection H as <-.
  - cbn [turns] in H. apply bind_Done in H as (x & Hx & H).
    specialize (Hbody s x Hs Hx). destruct x as [s1|r]; [eauto | discriminate].
Qed.

Lemma find_entry (var : Z) (t : list entry) :
  match find (entry_of_var var) t with
  | Some (lit, lv, an) => In (lit, lv, an) t /\ Z.abs lit = var
  | None => ~ In var (map (fun e : entry => Z.abs (fst (fst e))) t)
  end.
Proof.
  induction t as [|[[l lv] an] t IH]; simpl; [tauto|].
  destruct (Z.eqb_spec (Z.abs l) var) as [E|E].
  - split; [now left | assumption].
  - destruct (find (entry_of_var var) t) as [[[l' lv'] an']|].
    + destruct IH. split; [now right | assumption].
    + intros [H|H]; [contradiction | now apply IH].
Qed.

Lemma calm_trail_consistent (n : Z) (cls : list (list Z)) (s : state) :
  calm n cls s -> trail_consistent s.
Proof.
  intros Hs. split.
  - intros var Hvar. rewrite (c_vars _ _ _ Hs) in Hvar. unfold trail_value.
    pose proof (find_entry var (trail s)) as Hf.
    destruct (find (entry_of_var var) (trail s)) as [[[l lv] an]|].
    + destruct Hf as [Hin Habs]. destruct (c_trail _ _ _ Hs _ _ _ Hin) as [Hnz Hv].
      unfold _lit_value, index in Hv. rewrite Habs in Hv.
      destruct (assignment s !! Z.to_nat var) as [[val|]|]; simpl in Hv;
        try discriminate.
      injection Hv as Hv. unfold lit_sign. destruct (0 <? l), val; simpl in *;
        congruence.
    + assert (Hlt : (Z.to_nat var < length (assignment s))%nat)
        by (rewrite (c_length _ _ _ Hs); lia).
      destruct (lookup_lt_is_Some_2 _ _ Hlt) as [[b|] Hx]; [|assumption].
      exfalso. apply Hf. pose proof (c_assigned _ _ _ Hs _ _ Hx) as Hin.
      rewrite Z2Nat.id in Hin by lia. exact Hin.
  - exact (c_nodup _ _ _ Hs).
Qed.

(** At every iteration boundary of the main loop reached without a
    conflict, the assignment vector is the projection of the trail and no
    variable is on the trail twice. *)
Lemma at_turn_consistent (clock : nat -> float) (fuel : nat)
    (time_limit : option float) (n : Z) (cls : list (list Z)) (k : nat)
    (s : state) (tick : nat) :
  in_range n cls -> (forall c, In c cls -> c <> []) ->
  at_turn clock fuel time_limit n cls k = Done (inl (s, tick)) ->
  num_conflicts s = 0%nat ->
  trail_consistent s.
Proof.
  unfold at_turn. intros Hr Hne H Hc.
  apply bind_Done in H as (x & Hx & H). destruct x as [[s0 tick0]|out];
    [|discriminate].
  pose proof (startup_quiet _ _ _ _ _ _ Hr Hne Hx) as Hq.
  apply (calm_trail_consistent n cls). apply q_calm.
  refine (turns_inv (fun st => num_conflicts (fst st) = 0%nat -> quiet n cls (fst st))
            _ _ k (s0, tick0) (s, tick) (fun _ => Hq) H Hc).
  intros st0 y H0 Hy.
  pose proof (main_body_quiet _ _ _ _ n cls _ _ Hr Hne H0 Hy) as Hb.
  destruct y as [st'|r]; [assumption | exact I].
Qed.

End CDCLSat.

(** ** Calling [solve] again on the same CDCL solver *)

Module CDCLObjectFacts.
Import CDCL CDCLMore CDCLObject.

(** A loop that returns more than another returns the same. *)
Lemma loop_outcome {S R R' : Type} (f : R' -> R)
    (body : S -> result (S + R)) (body' : S -> result (S + R')) :
  (forall s, body s = let* next := body' s in
                      Done (match next with
                            | inl s' => inl s'
                            | inr r => inr (f r)
                            end)) ->
  forall (fuel : nat) (s : S),
  loop body fuel s = let* r := loop body' fuel s in Done (f r).
Proof.
  intros Hbody fuel. induction fuel as [|fuel IH]; intros s; [reflexivity|].
  rewrite !loop_S, Hbody.
  destruct (body' s) as [[s1|r]| |]; simpl; auto.
Qed.

Lemma main_body_obj_outcome (clock : nat -> float) (fuel : nat)
    (time_limit : option float) (start_time : float) (st : state * nat) :
  main_body clock fuel time_limit start_time st =
  let* next := main_body_obj clock fuel time_limit start_time st in
  Done (match next with
        | inl st' => inl st'
        | inr r => inr (fst r)
        end).
Proof.
  unfold main_body, main_body_obj. destruct st as [s tick].
  destruct (deadline_passed clock time_limit start_time tick) as [[] tick'];
    [reflexivity|].
  destruct (_propagate fuel s) as [[[c|] s1]| |]; try reflexivity; cbn [bind].
  - destruct (decision_level _ =? 0); [reflexivity|].
    now destruct (handle_conflict fuel c _).
  - destruct (Z.of_nat (length (trail s1)) =? num_vars s1).
    + now destruct (final_assignment s1).
    + now destruct (_make_decision s1).
Qed.

Lemma startup_obj_outcome (clock : nat -> float) (fuel : nat) (s : state) :
  startup clock fuel s =
  let* next := startup_obj clock fuel s in
  Done (match next with
        | inl st' => inl st'
        | inr r => inr (fst r)
        end).
Proof.
  unfold startup, startup_obj. cbv zeta.
  destruct (_init_data_structures s) as [s1| |]; try reflexivity; cbn [bind].
  destruct (existsb _ (clauses s1)); [reflexivity|].
  now destruct (_initial_propagate fuel s1) as [[[c|] s2]| |].
Qed.

(** What a call of [solve] returns does not depend on keeping track of the
    object it leaves. *)
Theorem solve_obj_outcome (clock : nat -> float) (fuel : nat)
    (time_limit : option float) (s : state) :
  solve_from clock fuel time_limit s =
  let* r := solve_obj clock fuel time_limit s in Done (fst r).
Proof.
  unfold solve_from, solve_obj. rewrite startup_obj_outcome.
  destruct (startup_obj clock fuel s) as [[st|[out s1]]| |]; try reflexivity.
  cbn [bind]. apply loop_outcome. intros st'. apply main_body_obj_outcome.
Qed.

(** The first of two calls is a call on a new solver. *)
Lemma solve_twice_first (clock : nat -> float) (fuel : nat)
    (time_limit : option float) (num_vars : Z) (cls : list (list Z))
    (first second : outcome) :
  solve_twice clock fuel time_limit num_vars cls = Done (first, second) ->
  solve clock fuel time_limit num_vars cls = Done first.
Proof.
  unfold solve_twice, solve. intros H. rewrite solve_obj_outcome.
  apply bind_Done in H as ([out s1] & -> & H).
  apply bind_Done in H as ([out2 s2] & _ & H). now injection H as <- _.
Qed.

(** *** The set-up appends to the watch lists it finds *)

Lemma add_clause_watching (c : list Z) (s : state) (lit : Z) :
  exists added, watching (add_clause c s) lit = watching s lit ++ added.
Proof.
  unfold add_clause. destruct c as [|l0 [|l1 tl]]; cbn zeta.
  - exists []. now rewrite app_nil_r.
  - rewrite watching_append. destruct (decide (lit = l0)) as [->|_].
    + now eexists.
    + exists []. now rewrite app_nil_r.
  - rewrite !watching_append.
    destruct (decide (lit = l1)) as [->|_], (decide (l1 = l0)) as [->|Hne];
      try destruct (decide (lit = l0)) as [->|_].
    + exists [length (clauses s); length (clauses s)]. now rewrite <- app_assoc.
    + now eexists.
    + now eexists.
    + exists []. now rewrite app_nil_r.
    + now eexists.
    + exists []. now rewrite app_nil_r.
Qed.

Lemma add_clauses_watching (l : list (list Z)) (lit : Z) :
  forall s, exists added,
    watching (fold_left (fun s clause_lits => add_clause clause_lits s) l s) lit
    = watching s lit ++ added.
Proof.
  induction l as [|c l IH]; intros s; simpl.
  - exists []. now rewrite app_nil_r.
  - destruct (IH (add_clause c s)) as (a2 & ->).
    destruct (add_clause_watching c s lit) as (a1 & ->).
    exists (a1 ++ a2). now rewrite app_assoc.
Qed.

(** [_init_data_structures] does not empty [watch_list]: the entries it
    finds stay in front of the ones it appends. *)
Theorem init_data_structures_watching (s s' : state) (lit : Z) :
  _init_data_structures s = Done s' ->
  exists added, watching s' lit = watching s lit ++ added.
Proof.
  unfold _init_data_structures. intros H. cbn zeta in H.
  destruct (add_clauses_watching (original_clauses (set_clauses [] s)) lit
              (set_clauses [] s)) as (added & Hadded).
  apply bind_Done in H as (s1 & H1 & H).
  apply for_each_heap in H1; [|intros; eapply heap_insert_heap; eassumption].
  destruct H1 as (? & ? & ->). injection H as <-.
  exists added. exact Hadded.
Qed.

End CDCLObjectFacts.

(** ** The claims of the specification *)

Import CDCLFacts.

(** Replace a closed call by its value. *)
Ltac run t :=
  let x := eval vm_compute in t in
  replace t with x by (vm_compute; reflexivity).

(** Claim C1 (soundness of the sat verdict), at the failing input: for the
    clause list [[1]; []] over one variable the CDCL solver reports sat with
    an assignment, although the input has a clause, the empty one, in which
    the assignment satisfies no literal.  ([DPLLResults.solve_sound] is the
    claim for the DPLL solver.) *)
Theorem C1_cdcl_sat_leaves_clause_unsatisfied : forall clock : nat -> float,
  exists (A : gmap Z (option bool)) (st : CDCL.stats) (clause : list Z),
    CDCL.solve clock 10 None 1 [[1]; []] = Done (Sat, Some A, st)
    /\ In clause [[1]; []]
    /\ CDCL.satisfied_by A clause = false.
Proof.
  intros clock. eexists; eexists; exists [].
  split; [vm_compute; reflexivity|]. split; [right; left|]; reflexivity.
Qed.

(** Claim C2 (agreement of the two solvers), at the failing input: on the
    clause list [[]] over no variable DPLL answers unsat and CDCL answers
    sat. *)
Theorem C2_dpll_cdcl_disagree : forall (set_iter : list Z -> list Z)
    (start_time end_time : float) (clock : nat -> float),
  exists (st : DPLL.stats) (A : gmap Z (option bool)) (st' : CDCL.stats),
    DPLL.solve set_iter start_time end_time 10 0 [[]] = Done (Unsat, None, st)
    /\ CDCL.solve clock 10 None 0 [[]] = Done (Sat, Some A, st').
Proof.
  intros set_iter start_time end_time clock. do 3 eexists.
  split; vm_compute; reflexivity.
Qed.

(** Claim C3 (termination of CDCL without a time limit), at the failing
    input: on [(-1 or 2) and (-1 or -2)] over two variables the solver
    decides 1, derives 2, meets the conflict and enters conflict analysis,
    whose loop comes back to the same state at every turn.  Whatever the
    budget, [solve] does not return. *)
Theorem C3_cdcl_does_not_terminate : forall (clock : nat -> float) (fuel : nat),
  CDCL.solve clock fuel None 2 [[-1; 2]; [-1; -2]] = OutOfFuel.
Proof.
  intros clock fuel. unfold CDCL.solve, CDCL.solve_from.
  destruct fuel as [|[|n]]; [vm_compute; reflexivity..|].
  run (CDCL.startup clock (S (S n)) (CDCL.__init__ 2 [[-1; 2]; [-1; -2]])).
  cbn [bind]. rewrite loop_S.
  match goal with
  | |- context [CDCL.main_body ?c ?f ?tl ?st ?x] => run (CDCL.main_body c f tl st x)
  end.
  cbn [bind]. rewrite loop_S.
  match goal with
  | |- context [CDCL.main_body ?c ?f ?tl ?st (?s, ?t)] =>
      let r := eval vm_compute in (CDCL._propagate f s) in
      match r with
      | Done (Some ?cc, ?s1) =>
          rewrite (main_body_OutOfFuel c f tl st s t cc s1);
          [reflexivity | reflexivity | vm_compute; reflexivity | reflexivity |]
      end
  end.
  apply handle_conflict_OutOfFuel.
  eapply analyze_conflict_OutOfFuel; [reflexivity | vm_compute; reflexivity |].
  rewrite loop_S.
  match goal with
  | |- context [CDCL.analyze_body ?x] => run (CDCL.analyze_body x)
  end.
  cbn [bind]. apply loop_stuck. vm_compute. reflexivity.
Qed.

(** Claim C4 (a zero-length input clause gives unsat at once), at the
    failing input: [CDCLSolver(0, [[]]).solve()] answers sat with the empty
    assignment and zeroed counters; more generally an empty clause in front
    of the input changes nothing of what the CDCL solver does, because
    [__init__] drops it. *)
Theorem C4_cdcl_ignores_empty_clause : forall clock : nat -> float,
  CDCL.solve clock 10 None 0 [[]]
  = Done (Sat, Some ∅, CDCL.mkStats 0 0 0 0 0 (clock 1%nat - clock 0%nat)%float)
  /\ forall (fuel : nat) (time_limit : option float) (num_vars : Z)
            (cls : list (list Z)),
       CDCL.solve clock fuel time_limit num_vars ([] :: cls)
       = CDCL.solve clock fuel time_limit num_vars cls.
Proof.
  intros clock. split; [vm_compute; reflexivity|]. reflexivity.
Qed.

(** Claim C5 (the learned clause is unit after the backjump and the next
    propagation asserts it), at the failing input [[-2; -2; -1]] over two
    variables.  The third turn of the main loop meets a conflict at level 2;
    analysis returns the clause [1; -2] and level 1.  After the backjump and
    the addition of the clause, literal 1 is true and literal -2 is
    unassigned, so the clause has two literals that are not false; and the
    next [_propagate] returns without a conflict and leaves the solver, with
    its one-entry trail, as it was. *)
Theorem C5_learned_clause_not_asserted : forall clock : nat -> float,
  exists (c : nat) (s s1 s2 : CDCL.state) (b : Z),
    CDCL.conflict_at clock 10 None 2 [[-2; -2; -1]] 2 = Done (Some (c, s))
    /\ CDCL.decision_level s = 2
    /\ CDCL._analyze_conflict 10 c s = Done ([1; -2], b, s1)
    /\ CDCL._backtrack b s1 = Done s2
    /\ let s3 := CDCL._add_learned_clause [1; -2] s2 in
       CDCL._lit_value s3 1 = Done (Some true)
       /\ CDCL._lit_value s3 (-2) = Done None
       /\ CDCL.trail s3 = [(1, 1, None)]
       /\ forall fuel, CDCL._propagate (S fuel) s3 = Done (None, s3).
Proof.
  intros clock. do 5 eexists.
  split; [vm_compute; reflexivity|]. split; [reflexivity|].
  split; [vm_compute; reflexivity|]. split; [vm_compute; reflexivity|].
  cbv zeta. split; [vm_compute; reflexivity|]. split; [vm_compute; reflexivity|].
  split; [vm_compute; reflexivity|].
  intros fuel. apply propagate_idle. vm_compute. reflexivity.
Qed.

(** Claim C6 (conflict analysis leaves the trail alone), at the failing
    input [[-1; 2]; [-1; -1]] over two variables.  The second turn of the
    main loop meets a conflict at level 1 with the trail [1, 2];
    [_analyze_conflict] returns with the entry of 2 popped. *)
Theorem C6_analysis_pops_the_trail : forall clock : nat -> float,
  exists (c : nat) (s s' : CDCL.state) (learned_clause : list Z) (b : Z),
    CDCL.conflict_at clock 10 None 2 [[-1; 2]; [-1; -1]] 1 = Done (Some (c, s))
    /\ CDCL.decision_level s = 1
    /\ CDCL._analyze_conflict 10 c s = Done (learned_clause, b, s')
    /\ CDCL.trail s = [(1, 1, None); (2, 1, Some 0%nat)]
    /\ CDCL.trail s' = [(1, 1, None)].
Proof.
  intros clock. do 5 eexists.
  split; [vm_compute; reflexivity|]. split; [reflexivity|].
  split; [vm_compute; reflexivity|]. split; reflexivity.
Qed.

(** Claim C7 (trail consistency at every turn of the main loop), at the
    failing input [[-1; 2]; [-1; -1]] over two variables: at the third
    iteration boundary the trail is empty while variable 2 is still
    assigned true. *)
Theorem C7_assignment_not_on_trail : forall clock : nat -> float,
  exists (s : CDCL.state) (tick : nat),
    CDCL.at_turn clock 10 None 2 [[-1; 2]; [-1; -1]] 2 = Done (inl (s, tick))
    /\ CDCL.trail s = []
    /\ CDCL.assignment s !! 2%nat = Some (Some true)
    /\ ~ CDCL.trail_consistent s.
Proof.
  intros clock. do 2 eexists.
  split; [vm_compute; reflexivity|]. split; [reflexivity|].
  split; [reflexivity|].
  intros [H _]. specialize (H 2). discriminate H. vm_compute. split; discriminate.
Qed.


(** Claim C8 (determinism) as stated fails for the CDCL solver when [solve]
    is given a time limit: on the same input (one variable, no clause, limit
    of one second) a run that sees no time pass answers sat after one
    decision, a run that finds five seconds gone at the first iteration
    boundary answers unknown with no decision. *)
Lemma C8_counterexample :
  exists (out out' : CDCL.outcome),
    CDCL.solve still_clock 10 (Some 1%float) 1 [] = Done out
    /\ CDCL.solve slow_clock 10 (Some 1%float) 1 [] = Done out'
    /\ CDCL.decisions (snd out) = 1%nat
    /\ CDCL.decisions (snd out') = 0%nat.
Proof.
  do 2 eexists. split; [vm_compute; reflexivity|].
  split; [vm_compute; reflexivity|]. split; reflexivity.
Qed.

(** Claim C8, amended: two runs of [DPLLSolver.solve] on the same input, and
    two runs of [CDCLSolver.solve] without a time limit ([None] or [0]),
    each on a newly constructed [CDCLSolver] for the same input, return the
    same verdict, the same assignment and the same counters, whatever the
    clock shows and however long they are allowed to run; and such a run of
    the CDCL solver that returns under one clock returns under any other.
    [CDCL.solve] is [CDCLSolver(num_vars, clauses).solve(time_limit)], the
    call on a new object; [DPLL.solve] is any call of [DPLLSolver.solve],
    whose set-up overwrites every field the search reads.  Nothing is said
    here of a second call of [solve] on a [CDCLSolver] that has run
    ([CDCLObject.solve_twice]). *)
Theorem C8_determinism :
  (forall (set_iter : list Z -> list Z)
          (start_time end_time start_time' end_time' : float) (fuel fuel' : nat)
          (num_vars : Z) (cls : list (list Z)) (v v' : verdict)
          (A A' : option (gmap Z bool)) (st st' : DPLL.stats),
      DPLL.solve set_iter start_time end_time fuel num_vars cls = Done (v, A, st) ->
      DPLL.solve set_iter start_time' end_time' fuel' num_vars cls = Done (v', A', st') ->
      v = v' /\ A = A'
      /\ DPLL.decisions st = DPLL.decisions st'
      /\ DPLL.propagations st = DPLL.propagations st'
      /\ DPLL.depth_reached st = DPLL.depth_reached st')
  /\ (forall (clock clock' : nat -> float) (fuel fuel' : nat)
             (time_limit : option float) (num_vars : Z) (cls : list (list Z))
             (out out' : CDCL.outcome),
        CDCL.time_limit_set time_limit = false ->
        CDCL.solve clock fuel time_limit num_vars cls = Done out ->
        CDCL.solve clock' fuel' time_limit num_vars cls = Done out' ->
        fst out = fst out'
        /\ CDCL.decisions (snd out) = CDCL.decisions (snd out')
        /\ CDCL.propagations (snd out) = CDCL.propagations (snd out')
        /\ CDCL.conflicts (snd out) = CDCL.conflicts (snd out')
        /\ CDCL.learned (snd out) = CDCL.learned (snd out')
        /\ CDCL.restarts (snd out) = CDCL.restarts (snd out'))
  /\ (forall (clock clock' : nat -> float) (fuel fuel' : nat)
             (time_limit : option float) (num_vars : Z) (cls : list (list Z))
             (out : CDCL.outcome),
        CDCL.time_limit_set time_limit = false ->
        CDCL.solve clock fuel time_limit num_vars cls = Done out ->
        (fuel <= fuel')%nat ->
        exists out', CDCL.solve clock' fuel' time_limit num_vars cls = Done out').
Proof.
  split; [|split].
  - intros. eapply DPLLResults.dpll_solve_deterministic; eassumption.
  - intros clock clock' fuel fuel' time_limit num_vars cls out out' Hunset H H'.
    destruct (cdcl_solve_deterministic _ _ _ _ _ _ _ _ _ Hunset H H')
      as (Hv & HA & Hrest).
    split; [|exact Hrest].
    destruct out as [[v A] st], out' as [[v' A'] st']. simpl in *. congruence.
  - intros clock clock' fuel fuel' time_limit num_vars cls out Hunset H Hle.
    apply solve_mono with (fuel' := fuel') in H; [|assumption].
    pose proof (solve_clock clock clock' fuel' time_limit num_vars cls Hunset) as Hrel.
    rewrite H in Hrel.
    destruct (CDCL.solve clock' fuel' time_limit num_vars cls) as [out'| |];
      [now exists out' | contradiction..].
Qed.

(** The amended claim C8 at work: a two-clause formula,
    run by both solvers with different clocks and budgets. *)
Lemma C8_witness :
  (exists st st' : DPLL.stats,
      DPLL.solve first_seen 0 1 10 2 [[1; 2]; [-1; 2]]
      = Done (Sat, Some (<[2 := true]> ∅), st)
      /\ DPLL.solve first_seen 3 7 20 2 [[1; 2]; [-1; 2]]
         = Done (Sat, Some (<[2 := true]> ∅), st')
      /\ DPLL.decisions st = DPLL.decisions st')
  /\ (exists out out' : CDCL.outcome,
        CDCL.solve still_clock 10 None 2 [[1; 2]; [-1; 2]] = Done out
        /\ CDCL.solve slow_clock 20 None 2 [[1; 2]; [-1; 2]] = Done out'
        /\ CDCL.decisions (snd out) = CDCL.decisions (snd out')).
Proof.
  split.
  - do 2 eexists.
    assert (H1 : DPLL.solve first_seen 0 1 10 2 [[1; 2]; [-1; 2]]
                 = Done (Sat, Some (<[2 := true]> ∅), DPLL.mkStats 0 0 0 (1 - 0)%float))
      by (vm_compute; reflexivity).
    assert (H2 : DPLL.solve first_seen 3 7 20 2 [[1; 2]; [-1; 2]]
                 = Done (Sat, Some (<[2 := true]> ∅), DPLL.mkStats 0 0 0 (7 - 3)%float))
      by (vm_compute; reflexivity).
    split; [exact H1|]. split; [exact H2|].
    exact (proj1 (proj2 (proj2 (proj1 C8_determinism _ _ _ _ _ _ _ _ _ _ _ _ _ _ _
                                      H1 H2)))).
  - eexists; eexists.
    assert (H1 : CDCL.solve still_clock 10 None 2 [[1; 2]; [-1; 2]]
                 = Done (Sat, Some (<[2 := Some true]> (<[1 := Some true]> ∅)),
                         CDCL.mkStats 1 1 0 0 0 (0 - 0)%float))
      by (vm_compute; reflexivity).
    assert (H2 : CDCL.solve slow_clock 20 None 2 [[1; 2]; [-1; 2]]
                 = Done (Sat, Some (<[2 := Some true]> (<[1 := Some true]> ∅)),
                         CDCL.mkStats 1 1 0 0 0 (5 - 0)%float))
      by (vm_compute; reflexivity).
    split; [exact H1|]. split; [exact H2|].
    exact (proj1 (proj2 (proj1 (proj2 C8_determinism) still_clock slow_clock 10%nat
                                 20%nat None 2 [[1; 2]; [-1; 2]] _ _ eq_refl H1 H2))).
Defined.

(** Claim C9 (deadline) as stated fails for the time limit [0.0]: with a
    clock that shows five seconds gone at the first iteration boundary, a
    limit of zero seconds is exceeded, yet [solve] goes on and answers
    sat. *)
Lemma C9_counterexample :
  (0 <? slow_clock 1 - slow_clock 0)%float = true
  /\ exists (A : gmap Z (option bool)) (st : CDCL.stats),
       CDCL.solve slow_clock 10 (Some 0%float) 0 [] = Done (Sat, Some A, st).
Proof. split; [reflexivity|]. do 2 eexists. vm_compute. reflexivity. Qed.

(** Claim C9, amended: when [CDCLSolver.solve] is called with a time limit
    other than zero and, at an iteration boundary of the main loop, the
    time elapsed since the start is found to exceed the limit, [solve]
    returns there; the verdict is the unknown one, different from sat and
    from unsat, no assignment is returned, and the statistics are the
    counters of the solver as they stand at that boundary. *)
Theorem C9_deadline (clock : nat -> float) (fuel : nat) (t : float) (num_vars : Z)
    (cls : list (list Z)) (k : nat) (s : CDCL.state) (tick : nat) :
  (t =? 0)%float = false ->
  CDCL.at_turn clock fuel (Some t) num_vars cls k = Done (inl (s, tick)) ->
  (t <? clock tick - clock 0%nat)%float = true ->
  (k < fuel)%nat ->
  CDCL.solve clock fuel (Some t) num_vars cls
  = Done (Unknown, None, CDCL._get_stats (clock (S tick)) (clock 0%nat) s)
  /\ Unknown <> Sat /\ Unknown <> Unsat.
Proof.
  intros Hset Hturn Hexc Hk. split; [|split; discriminate].
  unfold CDCL.solve, CDCL.solve_from. unfold CDCL.at_turn in Hturn.
  apply bind_Done in Hturn as (st & -> & Hturn). cbn [bind].
  destruct st as [st|o]; [|discriminate].
  set (body := CDCL.main_body clock fuel (Some t) (clock 0%nat)) in *.
  replace (loop body fuel st) with (loop body (k + S (fuel - S k)) st)
    by (f_equal; lia).
  rewrite (loop_turns _ _ _ _ _ Hturn), loop_S. unfold body.
  now rewrite main_body_deadline.
Qed.

(** The amended claim C9 at work: a limit of one second, five seconds gone
    at the first boundary. *)
Lemma C9_witness :
  exists s : CDCL.state,
    CDCL.at_turn slow_clock 10 (Some 1%float) 1 [] 0 = Done (inl (s, 1%nat))
    /\ CDCL.solve slow_clock 10 (Some 1%float) 1 []
       = Done (Unknown, None, CDCL._get_stats 5 0 s).
Proof.
  eexists. split; [vm_compute; reflexivity|].
  refine (proj1 (C9_deadline slow_clock 10 1%float 1 [] 0 _ 1 _ _ _ _)).
  - reflexivity.
  - vm_compute. reflexivity.
  - reflexivity.
  - lia.
Defined.



(** ** Further properties of the two solvers *)

(** *** The DPLL solver *)

(** X1 (a SAT answer of DPLL is a model): when [DPLLSolver.solve] answers
    sat on clauses without the literal 0, every total valuation that
    agrees with the returned dictionary satisfies every input clause; the
    variables the dictionary leaves out may take any value. *)
Theorem X1_dpll_sat_answer_is_model (set_iter : list Z -> list Z)
    (start_time end_time : float) (fuel : nat) (num_vars : Z)
    (cls : list (list Z)) (A : gmap Z bool) (st : DPLL.stats) :
  DPLL.set_iter_ok set_iter ->
  nonzero_lits cls ->
  DPLL.solve set_iter start_time end_time fuel num_vars cls = Done (Sat, Some A, st) ->
  forall sigma, (forall v b, A !! v = Some b -> sigma v = b) -> models sigma cls.
Proof.
  intros Hset Hnz H sigma Hsig c Hc.
  pose proof (DPLLResults.solve_sound set_iter Hset _ _ _ _ _ _ _ Hnz H c Hc) as Hs.
  apply existsb_exists in Hs as (lit & Hin & Hl). exists lit. split; [assumption|].
  unfold lit_satisfied in Hl. destruct (A !! Z.abs lit) as [b|] eqn:E; [|discriminate].
  unfold holds. now rewrite (Hsig _ _ E).
Qed.

Lemma X1_witness : models (fun _ => true) [[1; 2]; [-1; 2]].
Proof.
  refine (X1_dpll_sat_answer_is_model first_seen 0 0 10 2 [[1; 2]; [-1; 2]]
            (<[2 := true]> ∅) (DPLL.mkStats 0 0 0 (0 - 0)%float)
            DPLLResults.first_seen_ok _ _ (fun _ => true) _).
  - repeat constructor; discriminate.
  - vm_compute; reflexivity.
  - intros v b Hv. destruct (decide (v = 2)) as [->|Hne].
    + rewrite lookup_insert_eq in Hv. now injection Hv as <-.
    + rewrite lookup_insert_ne, lookup_empty in Hv by congruence. discriminate.
Defined.

(** X2 (an UNSAT answer of DPLL is right): when [DPLLSolver.solve] answers
    unsat on clauses without the literal 0, no valuation satisfies all
    input clauses. *)
Theorem X2_dpll_unsat_answer_is_right (set_iter : list Z -> list Z)
    (start_time end_time : float) (fuel : nat) (num_vars : Z)
    (cls : list (list Z)) (st : DPLL.stats) :
  DPLL.set_iter_ok set_iter ->
  nonzero_lits cls ->
  DPLL.solve set_iter start_time end_time fuel num_vars cls = Done (Unsat, None, st) ->
  forall sigma, ~ models sigma cls.
Proof.
  intros Hset Hnz H.
  exact (DPLLComplete.solve_unsat_correct set_iter Hset _ _ _ _ _ _ Hnz H).
Qed.

Lemma X2_witness :
  nonzero_lits [[1; 2]; [-1; 2]; [-2]]
  /\ forall sigma, ~ models sigma [[1; 2]; [-1; 2]; [-2]].
Proof.
  assert (Hnz : nonzero_lits [[1; 2]; [-1; 2]; [-2]])
    by (repeat constructor; discriminate).
  split; [exact Hnz|].
  eapply (X2_dpll_unsat_answer_is_right first_seen 0 0 10 2 _ _
            DPLLResults.first_seen_ok Hnz).
  vm_compute; reflexivity.
Defined.

(** X3 (DPLL terminates): [DPLLSolver.solve] returns on every input: a
    budget of nested calls and loop turns above the number of clauses plus
    literal occurrences of the input is never used up, and no exception is
    raised.  (The recursion limit of the Python interpreter is not part of
    the model.) *)
Theorem X3_dpll_terminates (set_iter : list Z -> list Z)
    (start_time end_time : float) (fuel : nat) (num_vars : Z)
    (cls : list (list Z)) :
  DPLL.set_iter_ok set_iter ->
  (weight cls < fuel)%nat ->
  exists out, DPLL.solve set_iter start_time end_time fuel num_vars cls = Done out.
Proof.
  intros Hset Hlt. exact (DPLLTotal.solve_total set_iter Hset _ _ _ _ _ Hlt).
Qed.

Lemma X3_witness :
  exists out, DPLL.solve first_seen 0 0 10 2 [[1; 2]; [-1; 2]; [-2]] = Done out.
Proof.
  apply (X3_dpll_terminates first_seen 0 0 10 2 _ DPLLResults.first_seen_ok).
  cbv. lia.
Defined.

(** X4 (DPLL decides satisfiability): on clauses without the literal 0,
    [DPLLSolver.solve] returns either sat with a dictionary that satisfies
    every input clause, or unsat with no dictionary, and then the clauses
    have no model.  It never answers anything else. *)
Theorem X4_dpll_decides (set_iter : list Z -> list Z)
    (start_time end_time : float) (fuel : nat) (num_vars : Z)
    (cls : list (list Z)) :
  DPLL.set_iter_ok set_iter ->
  nonzero_lits cls ->
  (weight cls < fuel)%nat ->
  exists st,
    (exists A, DPLL.solve set_iter start_time end_time fuel num_vars cls
               = Done (Sat, Some A, st)
               /\ forall c, In c cls -> clause_satisfied A c = true)
    \/ (DPLL.solve set_iter start_time end_time fuel num_vars cls
        = Done (Unsat, None, st)
        /\ forall sigma, ~ models sigma cls).
Proof.
  intros Hset Hnz Hlt.
  destruct (DPLLTotal.solve_total set_iter Hset start_time end_time fuel num_vars cls Hlt)
    as (out & Hout).
  assert (Hshape : exists st, (exists A, out = (Sat, Some A, st))
                              \/ out = (Unsat, None, st)).
  { unfold DPLL.solve in Hout.
    destruct (DPLL._dpll set_iter fuel 0 (DPLL._init_data_structures cls))
      as [[r s]| |]; try discriminate.
    cbn [bind] in Hout. destruct r; injection Hout as <-; eauto. }
  destruct Hshape as (st & [(A & ->)| ->]); exists st.
  - left. exists A. split; [assumption|].
    exact (DPLLResults.solve_sound set_iter Hset _ _ _ _ _ _ _ Hnz Hout).
  - right. split; [assumption|].
    exact (DPLLComplete.solve_unsat_correct set_iter Hset _ _ _ _ _ _ Hnz Hout).
Qed.

Lemma X4_witness :
  exists st,
    (exists A, DPLL.solve first_seen 0 0 10 2 [[1; 2]; [-1; -2]] = Done (Sat, Some A, st)
               /\ forall c, In c [[1; 2]; [-1; -2]] -> clause_satisfied A c = true)
    \/ (DPLL.solve first_seen 0 0 10 2 [[1; 2]; [-1; -2]] = Done (Unsat, None, st)
        /\ forall sigma, ~ models sigma [[1; 2]; [-1; -2]]).
Proof.
  apply (X4_dpll_decides first_seen 0 0 10 2 _ DPLLResults.first_seen_ok).
  - repeat constructor; discriminate.
  - cbv. lia.
Defined.

(** X5 (DPLL and the empty clause): on an input that holds a clause of
    length zero, [DPLLSolver.solve] answers unsat, with no dictionary. *)
Theorem X5_dpll_empty_clause_unsat (set_iter : list Z -> list Z)
    (start_time end_time : float) (fuel : nat) (num_vars : Z)
    (cls : list (list Z)) :
  DPLL.set_iter_ok set_iter ->
  In [] cls ->
  (weight cls < fuel)%nat ->
  exists st, DPLL.solve set_iter start_time end_time fuel num_vars cls
             = Done (Unsat, None, st).
Proof.
  intros Hset Hin Hlt.
  exact (DPLLTotal.solve_empty_clause_unsat set_iter Hset _ _ _ _ _ Hin Hlt).
Qed.

Lemma X5_witness :
  exists st, DPLL.solve first_seen 0 0 10 2 [[1; 2]; []] = Done (Unsat, None, st).
Proof.
  apply (X5_dpll_empty_clause_unsat first_seen 0 0 10 2 _ DPLLResults.first_seen_ok).
  - right. now left.
  - cbv. lia.
Defined.

(** X6 (unit propagation runs to the end): from a state in which no
    assigned variable occurs in the working clauses, [_unit_propagate]
    returns true only when no unit clause is left, and then every model of
    the clauses it started from is a model of the clauses it leaves; it
    returns false only when the clauses it started from have no model. *)
Theorem X6_unit_propagation_complete (fuel : nat) (s s' : DPLL.state) (ok : bool) :
  fresh s ->
  nonzero_lits (DPLL.clauses s) ->
  DPLL._unit_propagate fuel s = Done (ok, s') ->
  if ok
  then DPLL._find_unit_clauses s' = []
       /\ forall sigma, models sigma (DPLL.clauses s) -> models sigma (DPLL.clauses s')
  else forall sigma, ~ models sigma (DPLL.clauses s).
Proof.
  intros Hf Hnz H.
  pose proof (DPLLComplete.unit_propagate_complete fuel s s' ok Hf Hnz H) as Hc.
  destruct ok; [|assumption]. destruct Hc as [Hinv Hnil]. split; [assumption|].
  intros sigma Hm. now apply (ui_models _ _ Hinv).
Qed.

Lemma X6_witness :
  exists s', DPLL._unit_propagate 5 (DPLL._init_data_structures [[1]; [-1; 2]; [2; 3]])
             = Done (true, s')
             /\ DPLL._find_unit_clauses s' = [].
Proof.
  eexists. split; [vm_compute; reflexivity|].
  refine (proj1 (X6_unit_propagation_complete 5
                   (DPLL._init_data_structures [[1]; [-1; 2]; [2; 3]]) _ true _ _ _)).
  - intros v [b Hb]. simpl in Hb. rewrite lookup_empty in Hb. discriminate.
  - repeat constructor; discriminate.
  - vm_compute; reflexivity.
Defined.

(** X7 (pure literals only remove clauses): [_pure_literal_eliminate]
    leaves a sublist of the working clauses; it never shortens or adds a
    clause. *)
Theorem X7_pure_literals_remove_clauses (set_iter : list Z -> list Z) (s : DPLL.state) :
  DPLL.set_iter_ok set_iter ->
  nonzero_lits (DPLL.clauses s) ->
  fresh s ->
  incl (DPLL.clauses (DPLL._pure_literal_eliminate set_iter s)) (DPLL.clauses s).
Proof.
  intros Hset Hnz Hf.
  exact (proj1 (DPLLComplete.pure_literal_eliminate_incl set_iter Hset s Hnz Hf)).
Qed.

Lemma X7_witness :
  incl (DPLL.clauses (DPLL._pure_literal_eliminate first_seen
                        (DPLL._init_data_structures [[1; 2]; [1; -2]; [2; -3]])))
       [[1; 2]; [1; -2]; [2; -3]].
Proof.
  apply (X7_pure_literals_remove_clauses first_seen
           (DPLL._init_data_structures [[1; 2]; [1; -2]; [2; -3]])
           DPLLResults.first_seen_ok).
  - repeat constructor; discriminate.
  - intros v [b Hb]. simpl in Hb. rewrite lookup_empty in Hb. discriminate.
Defined.

(** X8 (simplification removes the variable): after
    [_simplify_with_assignment var value] the variable [var] occurs in no
    working clause, in either polarity. *)
Theorem X8_simplify_removes_variable (var : Z) (value : bool) (s : DPLL.state) :
  ~ occurs (Z.abs var) (DPLL.clauses (DPLL._simplify_with_assignment var value s)).
Proof.
  unfold DPLL._simplify_with_assignment. simpl.
  replace (Z.abs var) with (Z.abs (lit_of var value))
    by (destruct value; simpl; lia).
  apply DPLLComplete.simplify_removes.
Qed.

(** X9 (a branching variable is found): while working clauses are left,
    none of them empty, [_choose_variable] returns a variable; the
    [return False] that follows a [None] in [_dpll] is not reached. *)
Theorem X9_branching_variable_found (set_iter : list Z -> list Z) (s : DPLL.state) :
  DPLL.set_iter_ok set_iter ->
  fresh s ->
  DPLL._all_clauses_satisfied s = false ->
  DPLL._has_empty_clause s = false ->
  exists var, DPLL._choose_variable set_iter s = Some var.
Proof.
  intros Hset Hf Ha He.
  exact (DPLLComplete.choose_variable_finds set_iter Hset s Hf Ha He).
Qed.

Lemma X9_witness :
  exists var,
    DPLL._choose_variable first_seen (DPLL._init_data_structures [[1; 2]; [-1; -2]])
    = Some var.
Proof.
  apply (X9_branching_variable_found first_seen _ DPLLResults.first_seen_ok).
  - intros v [b Hb]. simpl in Hb. rewrite lookup_empty in Hb. discriminate.
  - reflexivity.
  - reflexivity.
Defined.

(** X10 (depth and decisions): in the statistics [DPLLSolver.solve]
    returns, the maximum depth is at most the number of decisions. *)
Theorem X10_dpll_depth_at_most_decisions (set_iter : list Z -> list Z)
    (start_time end_time : float) (fuel : nat) (num_vars : Z)
    (cls : list (list Z)) (v : verdict) (A : option (gmap Z bool)) (st : DPLL.stats) :
  DPLL.solve set_iter start_time end_time fuel num_vars cls = Done (v, A, st) ->
  (DPLL.depth_reached st <= DPLL.decisions st)%nat.
Proof.
  unfold DPLL.solve. intros H.
  destruct (DPLL._dpll set_iter fuel 0 (DPLL._init_data_structures cls))
    as [[r s]| |] eqn:E; try discriminate.
  cbn [bind] in H.
  apply DPLLStats.dpll_depth in E as [Hd _]; [|simpl; lia..].
  destruct r; injection H as _ _ <-; exact Hd.
Qed.

Lemma X10_witness :
  exists v A st,
    DPLL.solve first_seen 0 0 10 3 [[1; 2]; [-1; 3]; [-2; -3]] = Done (v, A, st)
    /\ (DPLL.depth_reached st <= DPLL.decisions st)%nat.
Proof.
  do 3 eexists.
  assert (H : DPLL.solve first_seen 0 0 10 3 [[1; 2]; [-1; 3]; [-2; -3]]
              = Done (?[v], ?[A], ?[st])) by (vm_compute; reflexivity).
  split; [exact H|].
  exact (X10_dpll_depth_at_most_decisions first_seen 0 0 10 3 _ _ _ _ H).
Defined.

(** *** The CDCL solver *)

(** X11 (what propagation may change): a call of [_propagate] that returns
    appends entries to the trail, each a nonzero literal at the current
    level with an antecedent clause, and counts one propagation for each;
    values already given stay, the literals inside a clause may change
    places, and the level, the level marks, the decision and conflict
    counters, the variable heap and the number of variables are as
    before. *)
Theorem X11_propagation_extends (fuel : nat) (s s' : CDCL.state)
    (conflict : option nat) :
  CDCL._propagate fuel s = Done (conflict, s') -> extends s s'.
Proof. apply CDCLMore.propagate_extends. Qed.

Lemma X11_witness :
  exists conflict s',
    CDCL._propagate 5 (after_units 3 [[1]; [-1; 2]; [-2; -1; 3]]) = Done (conflict, s')
    /\ extends (after_units 3 [[1]; [-1; 2]; [-2; -1; 3]]) s'.
Proof.
  do 2 eexists.
  assert (H : CDCL._propagate 5 (after_units 3 [[1]; [-1; 2]; [-2; -1; 3]])
              = Done (?[c], ?[s'])) by (vm_compute; reflexivity).
  split; [exact H|].
  exact (X11_propagation_extends _ _ _ _ H).
Defined.

(** X12 (a reported conflict is one): if every trail literal is true in
    the assignment vector when [_propagate] is called, the clause whose
    index it returns has only false literals in the state it leaves. *)
Theorem X12_propagation_conflict_is_falsified (fuel : nat) (s s' : CDCL.state)
    (c : nat) :
  trail_true s ->
  CDCL._propagate fuel s = Done (Some c, s') ->
  exists clause, CDCL.clauses s' !! c = Some clause /\ falsified s' clause.
Proof.
  intros Ht H.
  destruct (CDCLMore.propagate_conflict fuel s s' (Some c) Ht H) as (_ & _ & Hc).
  exact (Hc c eq_refl).
Qed.

Lemma X12_witness :
  exists c s' clause,
    CDCL._propagate 5 (after_units 2 [[1]; [-1; 2]; [-2; -1]]) = Done (Some c, s')
    /\ CDCL.clauses s' !! c = Some clause /\ falsified s' clause.
Proof.
  assert (Ht : trail_true (after_units 2 [[1]; [-1; 2]; [-2; -1]])).
  { intros lit lv an Hin. vm_compute in Hin.
    destruct Hin as [[= <- <- <-]|[]]. split; [discriminate | reflexivity]. }
  do 2 eexists.
  assert (H : CDCL._propagate 5 (after_units 2 [[1]; [-1; 2]; [-2; -1]])
              = Done (Some ?[c], ?[s'])) by (vm_compute; reflexivity).
  destruct (X12_propagation_conflict_is_falsified _ _ _ _ Ht H) as (clause & Hc & Hf).
  exists clause. split; [exact H | split; assumption].
Defined.

(** X13 (UNSAT before any decision is right): when [CDCLSolver.solve]
    answers unsat and its statistics count no decision, the input clauses
    (without the literal 0) have no model. *)
Theorem X13_cdcl_unsat_without_decision_is_right (clock : nat -> float) (fuel : nat)
    (time_limit : option float) (num_vars : Z) (cls : list (list Z))
    (A : option (gmap Z (option bool))) (st : CDCL.stats) :
  nonzero_lits cls ->
  CDCL.solve clock fuel time_limit num_vars cls = Done (Unsat, A, st) ->
  CDCL.decisions st = 0%nat ->
  forall sigma, ~ models sigma cls.
Proof. apply CDCLMore.solve_unsat_undecided. Qed.

Lemma X13_witness :
  nonzero_lits [[1]; [-1; 2]; [-2; -1]]
  /\ forall sigma, ~ models sigma [[1]; [-1; 2]; [-2; -1]].
Proof.
  assert (Hnz : nonzero_lits [[1]; [-1; 2]; [-2; -1]])
    by (repeat constructor; discriminate).
  split; [exact Hnz|].
  eapply (X13_cdcl_unsat_without_decision_is_right still_clock 10 None 2 _ _ _ Hnz).
  - vm_compute; reflexivity.
  - reflexivity.
Defined.

(** X14 (what backtracking does): [_backtrack level], for a level that is
    not negative and below the current one, cuts the trail at the position
    recorded for that level, makes exactly the variables of the entries it
    drops unassigned, keeps the first [level] level marks, sets the level
    and moves the propagation head to the end of the trail; the clause
    database stays as it is. *)
Theorem X14_backtrack_effect (level : Z) (pos : nat) (s s' : CDCL.state) :
  0 <= level < CDCL.decision_level s ->
  CDCL.trail_lim s !! Z.to_nat level = Some pos ->
  CDCL._backtrack level s = Done s' ->
  CDCL.trail s' = take pos (CDCL.trail s)
  /\ CDCL.trail_lim s' = take (Z.to_nat level) (CDCL.trail_lim s)
  /\ CDCL.decision_level s' = level
  /\ CDCL._propagate_head s' = length (CDCL.trail s')
  /\ CDCL.clauses s' = CDCL.clauses s
  /\ (forall lit lv an, In (lit, lv, an) (drop pos (CDCL.trail s)) ->
                        CDCL.assignment s' !! Z.to_nat (Z.abs lit) = Some None)
  /\ (forall i, (forall lit lv an, In (lit, lv, an) (drop pos (CDCL.trail s)) ->
                                   Z.to_nat (Z.abs lit) <> i) ->
                CDCL.assignment s' !! i = CDCL.assignment s !! i).
Proof. apply CDCLMore.backtrack_effect. Qed.

Lemma X14_witness :
  exists s',
    CDCL._backtrack 0 (after_decision 2 [[1; 2]]) = Done s'
    /\ CDCL.trail s' = take 0 (CDCL.trail (after_decision 2 [[1; 2]]))
    /\ CDCL.decision_level s' = 0.
Proof.
  eexists.
  assert (H : CDCL._backtrack 0 (after_decision 2 [[1; 2]]) = Done ?[s'])
    by (vm_compute; reflexivity).
  split; [exact H|].
  assert (Hlevel : 0 <= 0 < CDCL.decision_level (after_decision 2 [[1; 2]]))
    by (vm_compute; split; [discriminate | reflexivity]).
  assert (Hlim : CDCL.trail_lim (after_decision 2 [[1; 2]]) !! Z.to_nat 0 = Some 0%nat)
    by reflexivity.
  destruct (X14_backtrack_effect 0 0 _ _ Hlevel Hlim H) as (Ht & _ & Hl & _).
  split; assumption.
Defined.

(** X15 (a decision is undone by backtracking): when the number of level
    marks equals the level and the heap holds no negative variable, a
    decision followed by [_backtrack] to the level it was made on gives
    back the trail, the level marks, the assignment vector, the level and
    the clause database; the propagation head is at the end of the
    trail. *)
Theorem X15_decision_undone_by_backtrack (s s1 s2 : CDCL.state) :
  Z.of_nat (length (CDCL.trail_lim s)) = CDCL.decision_level s ->
  Forall (fun var => 0 <= var) (CDCL.var_order s) ->
  CDCL._make_decision s = Done s1 ->
  CDCL.num_decisions s1 <> CDCL.num_decisions s ->
  CDCL._backtrack (CDCL.decision_level s) s1 = Done s2 ->
  CDCL.trail s2 = CDCL.trail s /\ CDCL.trail_lim s2 = CDCL.trail_lim s
  /\ CDCL.assignment s2 = CDCL.assignment s
  /\ CDCL.decision_level s2 = CDCL.decision_level s
  /\ CDCL.clauses s2 = CDCL.clauses s
  /\ CDCL._propagate_head s2 = length (CDCL.trail s).
Proof. apply CDCLMore.decision_undone. Qed.

Lemma X15_witness :
  exists s1 s2,
    CDCL._make_decision (after_units 3 [[1]; [-2; 3]]) = Done s1
    /\ CDCL._backtrack 0 s1 = Done s2
    /\ CDCL.trail s2 = CDCL.trail (after_units 3 [[1]; [-2; 3]])
    /\ CDCL.assignment s2 = CDCL.assignment (after_units 3 [[1]; [-2; 3]]).
Proof.
  do 2 eexists.
  assert (H1 : CDCL._make_decision (after_units 3 [[1]; [-2; 3]]) = Done ?[s1])
    by (vm_compute; reflexivity).
  match type of H1 with
  | _ = Done ?x =>
      assert (H2 : CDCL._backtrack 0 x = Done ?[s2]) by (vm_compute; reflexivity)
  end.
  split; [exact H1|]. split; [exact H2|].
  assert (Hlim : Z.of_nat (length (CDCL.trail_lim (after_units 3 [[1]; [-2; 3]])))
                 = CDCL.decision_level (after_units 3 [[1]; [-2; 3]]))
    by reflexivity.
  assert (Hheap : Forall (fun var => 0 <= var)
                         (CDCL.var_order (after_units 3 [[1]; [-2; 3]])))
    by (vm_compute; repeat constructor; discriminate).
  destruct (X15_decision_undone_by_backtrack _ _ _ Hlim Hheap H1
              ltac:(vm_compute; discriminate) H2) as (Ht & _ & Ha & _).
  split; assumption.
Defined.

(** X16 (what clause reduction keeps): [_reduce_learned_clauses] leaves
    the trail and the assignment vector as they are and keeps the number
    of clause slots; a clause it changes is a learned clause that is the
    antecedent of no trail entry. *)
Theorem X16_reduce_keeps_reason_clauses (s s' : CDCL.state) :
  CDCL._reduce_learned_clauses s = Done s' ->
  CDCL.trail s' = CDCL.trail s /\ CDCL.assignment s' = CDCL.assignment s
  /\ length (CDCL.clauses s') = length (CDCL.clauses s)
  /\ forall idx, CDCL.clauses s' !! idx <> CDCL.clauses s !! idx ->
                 In idx (CDCL.learned_clauses s) /\ CDCL.is_reason s idx = false.
Proof. apply CDCLMore.reduce_learned_clauses_keeps. Qed.

Lemma X16_witness :
  exists s',
    CDCL._reduce_learned_clauses with_learned = Done s'
    /\ CDCL.clauses s' !! 1%nat <> CDCL.clauses with_learned !! 1%nat
    /\ CDCL.clauses s' !! 0%nat = CDCL.clauses with_learned !! 0%nat
    /\ CDCL.trail s' = CDCL.trail with_learned.
Proof.
  eexists.
  assert (H : CDCL._reduce_learned_clauses with_learned = Done ?[s'])
    by (vm_compute; reflexivity).
  split; [exact H|]. split; [vm_compute; discriminate|].
  split; [reflexivity|].
  exact (proj1 (X16_reduce_keeps_reason_clauses _ _ H)).
Defined.

(** X17 (the dictionary of a SAT answer): when [CDCLSolver.solve] answers
    sat it returns a dictionary, and its keys are exactly the variables
    [1 .. num_vars]. *)
Theorem X17_cdcl_sat_dictionary_keys (clock : nat -> float) (fuel : nat)
    (time_limit : option float) (num_vars : Z) (cls : list (list Z))
    (A : option (gmap Z (option bool))) (st : CDCL.stats) :
  CDCL.solve clock fuel time_limit num_vars cls = Done (Sat, A, st) ->
  exists D, A = Some D /\ forall var, is_Some (D !! var) <-> 1 <= var <= num_vars.
Proof. apply CDCLMore.solve_sat_keys. Qed.

Lemma X17_witness :
  exists A st,
    CDCL.solve still_clock 10 None 3 [[1; 2]; [-1; 2]] = Done (Sat, A, st)
    /\ exists D, A = Some D /\ forall var, is_Some (D !! var) <-> 1 <= var <= 3.
Proof.
  do 2 eexists.
  assert (H : CDCL.solve still_clock 10 None 3 [[1; 2]; [-1; 2]]
              = Done (Sat, ?[A], ?[st])) by (vm_compute; reflexivity).
  split; [exact H|].
  exact (X17_cdcl_sat_dictionary_keys _ _ _ _ _ _ _ H).
Defined.

(** X18 (the set-up of a new solver succeeds): for every number of
    variables and every clause list, [_init_data_structures] on the object
    built by [__init__] returns, with the nonempty input clauses as the
    clause database, each on the watch lists of exactly the literals at its
    first two places, the variables [1 .. num_vars] in the heap in
    increasing order, an empty trail and every variable unassigned at
    level 0. *)
Theorem X18_cdcl_setup_succeeds (num_vars : Z) (cls : list (list Z)) :
  exists s,
    CDCL._init_data_structures (CDCL.__init__ num_vars cls) = Done s
    /\ CDCL.clauses s = List.filter (fun c => match c with [] => false | _ => true end) cls
    /\ watched s
    /\ CDCL.var_order s = range1 num_vars
    /\ CDCL.trail s = []
    /\ CDCL.assignment s = replicate (Z.to_nat (num_vars + 1)) None
    /\ CDCL.decision_level s = 0.
Proof. apply CDCLMore.init_data_structures_total. Qed.

(** X19 (contradicting unit clauses): if the input holds the unit clauses
    [[l]] and [[-l]] and the variables of its unit clauses are at most
    [num_vars], [CDCLSolver.solve] answers unsat, whatever the clock, the
    time limit and the loop budget, and counts no decision and no
    conflict. *)
Theorem X19_cdcl_contradicting_units (clock : nat -> float) (fuel : nat)
    (time_limit : option float) (num_vars : Z) (cls : list (list Z)) (l : Z) :
  l <> 0 -> In [l] cls -> In [- l] cls ->
  (forall lit, In [lit] cls -> Z.abs lit <= num_vars) ->
  exists st, CDCL.solve clock fuel time_limit num_vars cls = Done (Unsat, None, st)
             /\ CDCL.decisions st = 0%nat /\ CDCL.conflicts st = 0%nat.
Proof. apply CDCLMore.solve_contradicting_units. Qed.

Lemma X19_witness :
  exists st, CDCL.solve slow_clock 0 (Some 1%float) 3 [[1; 2]; [3]; [-2; 1]; [-3]]
             = Done (Unsat, None, st)
             /\ CDCL.decisions st = 0%nat /\ CDCL.conflicts st = 0%nat.
Proof.
  apply (X19_cdcl_contradicting_units slow_clock 0 (Some 1%float) 3 _ 3).
  - discriminate.
  - right. now left.
  - right. right. right. now left.
  - intros lit [[=]|[[= <-]|[[=]|[[= <-]|[]]]]]; simpl; lia.
Defined.

(** X20 (a SAT answer found without a conflict is a model): when the input
    has no empty clause, its literals are nonzero with variables at most
    [num_vars], and [CDCLSolver.solve] answers sat with statistics that
    count no conflict, the returned dictionary gives every variable
    [1 .. num_vars] a Boolean value and satisfies every input clause. *)
Theorem X20_cdcl_sat_without_conflict_is_model (clock : nat -> float) (fuel : nat)
    (time_limit : option float) (num_vars : Z) (cls : list (list Z))
    (A : option (gmap Z (option bool))) (st : CDCL.stats) :
  in_range num_vars cls ->
  (forall c, In c cls -> c <> []) ->
  CDCL.solve clock fuel time_limit num_vars cls = Done (Sat, A, st) ->
  CDCL.conflicts st = 0%nat ->
  exists D, A = Some D
            /\ (forall c, In c cls -> CDCL.satisfied_by D c = true)
            /\ forall var, 1 <= var <= num_vars -> exists b, D !! var = Some (Some b).
Proof. apply CDCLSat.solve_sat_quiet. Qed.

Lemma X20_witness :
  exists A st,
    CDCL.solve still_clock 10 None 3 [[1; 2]; [-1; 2]; [-2; 3]] = Done (Sat, A, st)
    /\ exists D, A = Some D
                 /\ (forall c, In c [[1; 2]; [-1; 2]; [-2; 3]] ->
                               CDCL.satisfied_by D c = true)
                 /\ forall var, 1 <= var <= 3 -> exists b, D !! var = Some (Some b).
Proof.
  do 2 eexists.
  assert (H : CDCL.solve still_clock 10 None 3 [[1; 2]; [-1; 2]; [-2; 3]]
              = Done (Sat, ?[A], ?[st])) by (vm_compute; reflexivity).
  split; [exact H|].
  refine (X20_cdcl_sat_without_conflict_is_model _ _ _ _ _ _ _ _ _ H eq_refl).
  - intros c l Hc Hl. simpl in Hc.
    destruct Hc as [<-|[<-|[<-|[]]]]; simpl in Hl;
      destruct Hl as [<-|[<-|[]]]; split; (discriminate || (simpl; lia)).
  - intros c Hc. simpl in Hc. destruct Hc as [<-|[<-|[<-|[]]]]; discriminate.
Defined.

(** X21 (trail consistency while no conflict is met): on an input without
    empty clause whose literals are nonzero with variables at most
    [num_vars], at every iteration boundary of the main loop of
    [CDCLSolver.solve] reached with [num_conflicts = 0], the assignment
    vector is the projection of the trail and no variable is on the trail
    twice. *)
Theorem X21_trail_consistent_without_conflict (clock : nat -> float) (fuel : nat)
    (time_limit : option float) (num_vars : Z) (cls : list (list Z)) (k : nat)
    (s : CDCL.state) (tick : nat) :
  in_range num_vars cls ->
  (forall c, In c cls -> c <> []) ->
  CDCL.at_turn clock fuel time_limit num_vars cls k = Done (inl (s, tick)) ->
  CDCL.num_conflicts s = 0%nat ->
  CDCL.trail_consistent s.
Proof. apply CDCLSat.at_turn_consistent. Qed.

Lemma X21_witness :
  exists s tick,
    CDCL.at_turn still_clock 10 None 4 [[1; 2]; [-1; 2]; [-2; 3]] 1
    = Done (inl (s, tick))
    /\ CDCL.trail_consistent s.
Proof.
  do 2 eexists.
  assert (H : CDCL.at_turn still_clock 10 None 4 [[1; 2]; [-1; 2]; [-2; 3]] 1
              = Done (inl (?[s], ?[tick]))) by (vm_compute; reflexivity).
  split; [exact H|].
  refine (X21_trail_consistent_without_conflict _ _ _ _ _ _ _ _ _ _ H eq_refl).
  - intros c l Hc Hl. simpl in Hc.
    destruct Hc as [<-|[<-|[<-|[]]]]; simpl in Hl;
      destruct Hl as [<-|[<-|[]]]; split; (discriminate || (simpl; lia)).
  - intros c Hc. simpl in Hc. destruct Hc as [<-|[<-|[<-|[]]]]; discriminate.
Defined.

(** X22 (a second call of [solve] on the same CDCL solver): on four
    variables and the clauses [[1]; [-1; 3; -2]; [-1; 2]; [-2; -3]; [-2; 4]]
    a new [CDCLSolver] answers unsat with 4 propagations, which is what
    [solve] on a new solver always gives for this input, and a second
    call of [solve] on the same object answers unsat with 3. *)
Theorem X22_cdcl_second_solve_differs :
  exists first second : CDCL.outcome,
    CDCLObject.solve_twice still_clock 30 None 4
      [[1]; [-1; 3; -2]; [-1; 2]; [-2; -3]; [-2; 4]] = Done (first, second)
    /\ CDCL.solve still_clock 30 None 4
         [[1]; [-1; 3; -2]; [-1; 2]; [-2; -3]; [-2; 4]] = Done first
    /\ fst first = (Unsat, None)
    /\ fst second = (Unsat, None)
    /\ CDCL.propagations (snd first) = 4%nat
    /\ CDCL.propagations (snd second) = 3%nat.
Proof.
  do 2 eexists.
  assert (H : CDCLObject.solve_twice still_clock 30 None 4
                [[1]; [-1; 3; -2]; [-1; 2]; [-2; -3]; [-2; 4]]
              = Done (?[first], ?[second])) by (vm_compute; reflexivity).
  split; [exact H|].
  split; [exact (CDCLObjectFacts.solve_twice_first _ _ _ _ _ _ _ H)|].
  repeat split.
Qed.

(** X23 (the set-up keeps the watch lists): [_init_data_structures] of the
    CDCL solver appends the watches of the input clauses to the lists
    [watch_list] holds when it is called; it does not empty them, so a
    solver that has run starts its next run with the watches of the last
    one in front. *)
Theorem X23_init_keeps_watch_lists (s s' : CDCL.state) (lit : Z) :
  CDCL._init_data_structures s = Done s' ->
  exists added, CDCL.watching s' lit = CDCL.watching s lit ++ added.
Proof. apply CDCLObjectFacts.init_data_structures_watching. Qed.

Lemma X23_witness :
  exists s' added,
    CDCL._init_data_structures (after_units 2 [[1; 2]; [-1; 2]]) = Done s'
    /\ CDCL.watching s' 2
       = CDCL.watching (after_units 2 [[1; 2]; [-1; 2]]) 2 ++ added.
Proof.
  assert (H : CDCL._init_data_structures (after_units 2 [[1; 2]; [-1; 2]])
              = Done ?[s']) by (vm_compute; reflexivity).
  destruct (X23_init_keeps_watch_lists _ _ 2 H) as (added & Hadded).
  match type of H with _ = Done ?x => exists x, added end.
  split; [exact H | exact Hadded].
Defined.
